(** * voiceiq-AI: the timeline-fusion engine of [app/services]

    A shallow embedding of [app/services/alignment_service.py] and
    [app/services/metadata_service.py], and the properties of the
    alignment pipeline proved over it.

    Modelling conventions.
    - A Python [float] time stamp is an exact rational ([Q]).  The code
      only adds, subtracts, multiplies, divides and compares them, all
      of which [Q] has; rounding error of binary floating point is not
      modelled.  [math.exp] has no rational counterpart and is a
      parameter of the development.
    - A Python [str] is a [string] whose characters are code points
      below 256.
    - A Python [dict] with a fixed set of keys is a record; a [dict]
      used as a map is an association list in insertion order (Python
      dictionaries iterate in insertion order).
    - [sorted] is a stable sort. *)

From Stdlib Require Import List String Ascii Bool Arith ZArith QArith Qround Qminmax.
From Stdlib Require Import Permutation Lia Lqa.
Import ListNotations.

Open Scope string_scope.
Open Scope Q_scope.

(* ================================================================== *)
(** ** Python primitives *)
(* ================================================================== *)

Module Py.

(** [max(a, b)] of the builtins: [a] unless [b] is greater. *)
Definition max (a b : Q) : Q := if Qle_bool b a then a else b.

(** [min(a, b)] of the builtins: [a] unless [b] is smaller. *)
Definition min (a b : Q) : Q := if Qle_bool a b then a else b.

(** [a < b] on floats. *)
Definition ltb (a b : Q) : bool := negb (Qle_bool b a).

(** [str.isspace] on one character: the code points below 256 that
    Python treats as white space. *)
Definition is_space (c : ascii) : bool :=
  let n := nat_of_ascii c in
  ((9 <=? n) && (n <=? 13) || (28 <=? n) && (n <=? 32)
   || (n =? 133) || (n =? 160))%nat.

Definition is_empty (s : string) : bool :=
  match s with EmptyString => true | String _ _ => false end.

(** [s.lstrip()] *)
Fixpoint lstrip (s : string) : string :=
  match s with
  | EmptyString => EmptyString
  | String c s' => if is_space c then lstrip s' else s
  end.

(** [s.rstrip()] *)
Fixpoint rstrip (s : string) : string :=
  match s with
  | EmptyString => EmptyString
  | String c s' =>
      match rstrip s' with
      | EmptyString => if is_space c then EmptyString else String c EmptyString
      | r => String c r
      end
  end.

(** [s.strip()] *)
Definition strip (s : string) : string := rstrip (lstrip s).

(** [s.split()]: the maximal runs of characters that are not white
    space, in order. *)
Fixpoint split (s : string) : list string :=
  match s with
  | EmptyString => []
  | String c s' =>
      if is_space c then split s'
      else match s' with
           | EmptyString => [String c EmptyString]
           | String c' _ =>
               if is_space c' then String c EmptyString :: split s'
               else match split s' with
                    | w :: ws => String c w :: ws
                    | [] => [String c EmptyString]
                    end
           end
  end.

(** [sep.join(l)] *)
Definition join (sep : string) (l : list string) : string :=
  String.concat sep l.

Section Sorted.
Context {A : Type}.
Variable key : A -> Q.

(** [sorted(l, key=key)]: stable, ascending. *)
Fixpoint insert (x : A) (l : list A) : list A :=
  match l with
  | [] => [x]
  | y :: tl => if Qle_bool (key x) (key y) then x :: l else y :: insert x tl
  end.

Fixpoint sorted (l : list A) : list A :=
  match l with
  | [] => []
  | x :: tl => insert x (sorted tl)
  end.

(** [sorted(l, key=key, reverse=True)]: descending, and still
    stable (equal keys keep their input order). *)
Fixpoint insert_desc (x : A) (l : list A) : list A :=
  match l with
  | [] => [x]
  | y :: tl => if Qle_bool (key y) (key x) then x :: l else y :: insert_desc x tl
  end.

Fixpoint sorted_desc (l : list A) : list A :=
  match l with
  | [] => []
  | x :: tl => insert_desc x (sorted_desc tl)
  end.
End Sorted.

(** [round(x, 3)] idealised: the multiple of 1/1000 nearest to [x],
    a tie going to the even multiple. *)
Definition round_half_even (x : Q) : Z :=
  let f := Qfloor x in
  let r := x - inject_Z f in
  if ltb r (1 # 2) then f
  else if ltb (1 # 2) r then (f + 1)%Z
  else if Z.even f then f else (f + 1)%Z.

Definition round3 (x : Q) : Q :=
  inject_Z (round_half_even (x * 1000)) / 1000.

End Py.

(* ================================================================== *)
(** ** Data model *)
(* ================================================================== *)

(** A record of the recognition engine as it arrives: every key may be
    absent. *)
Record RawAsr : Type := mkRawAsr {
  raw_start : option Q;
  raw_end : option Q;
  raw_text : option string;
  raw_avg_logprob : option Q;
  raw_no_speech_prob : option Q
}.

(** The accepted shapes of [asr_result]. *)
Inductive AsrResult : Type :=
| AsrDict (segments : option (list RawAsr)) (meta_segments : option (list RawAsr))
| AsrList (segs : list RawAsr)
| AsrOther.

(** A normalised recognition segment:
    [{start, end, text, avg_logprob, no_speech_prob}]. *)
Record AsrSeg : Type := mkAsrSeg {
  a_start : Q;
  a_end : Q;
  a_text : string;
  avg_logprob : Q;
  no_speech_prob : Q
}.

(** [{start, end, word}] *)
Record WordSeg : Type := mkWordSeg {
  w_start : Q;
  w_end : Q;
  word : string
}.

(** A diarization interval: [{start, end, speaker}]. *)
Record Diar : Type := mkDiar {
  d_start : Q;
  d_end : Q;
  d_speaker : string
}.

(** A speaker block before the confidence is attached:
    [{start, end, speaker, text}]. *)
Record Block : Type := mkBlock {
  b_start : Q;
  b_end : Q;
  b_speaker : string;
  b_text : string
}.

(** An entry of ["speaker_segments"]. [gender] and [gender_confidence]
    are always [None] here and are left out. *)
Record SpeakerSeg : Type := mkSpeakerSeg {
  start : Q;
  end_ : Q;
  speaker : string;
  text : string;
  confidence : Q
}.

(** A conversation turn:
    [{start, end, speaker, speaker_raw, text}]; the key ["speaker"]
    holds the role. *)
Record Turn : Type := mkTurn {
  t_start : Q;
  t_end : Q;
  t_role : string;
  t_speaker_raw : string;
  t_text : string
}.

(* ================================================================== *)
(** ** [alignment_service.py] *)
(* ================================================================== *)

Definition or_default {A : Type} (o : option A) (d : A) : A :=
  match o with Some x => x | None => d end.

(** The loop body of [_extract_asr_segments] on a record whose
    ["start"] and ["end"], when present, are numbers: [float] returns
    them.  [Raising.normalise_one] below is the same body on records
    that may hold [None] there, where [float] raises. *)
Definition normalise_one (s : RawAsr) : list AsrSeg :=
  match raw_start s, raw_end s with
  | Some st, Some en =>
      [ mkAsrSeg st en
          (Py.strip (or_default (raw_text s) ""))
          (or_default (raw_avg_logprob s) (-1))
          (or_default (raw_no_speech_prob s) 0) ]
  | _, _ => []
  end.

(** [EnhancedAligner._extract_asr_segments] *)
Definition _extract_asr_segments (asr_result : AsrResult) : list AsrSeg :=
  let segs :=
    match asr_result with
    | AsrDict (Some l) _ => Some l
    | AsrDict None (Some l) => Some l
    | AsrDict None None => None
    | AsrList l => Some l
    | AsrOther => None
    end in
  match segs with
  | None => []
  | Some l => flat_map normalise_one l
  end.

(** An [int] used in float arithmetic. *)
Definition of_nat (n : nat) : Q := inject_Z (Z.of_nat n).

(** The literal [1e-6]. *)
Definition EPS : Q := 1 # 1000000.

(** The inner loop of [_to_word_segments]:
    [for i, w in enumerate(words)], entered at index [i]. *)
Fixpoint slice_words (st en w_dur : Q) (n i : nat) (words : list string)
  : list WordSeg :=
  match words with
  | [] => []
  | w :: rest =>
      let ws := st + of_nat i * w_dur in
      let we := if (i =? n - 1)%nat then en
                else st + of_nat (i + 1) * w_dur in
      mkWordSeg ws we w :: slice_words st en w_dur n (S i) rest
  end.

(** One iteration of the outer loop of [_to_word_segments]. *)
Definition segment_words (seg : AsrSeg) : list WordSeg :=
  if Py.is_empty (a_text seg) then []
  else
    let duration := Py.max (a_end seg - a_start seg) EPS in
    let words := Py.split (a_text seg) in
    match words with
    | [] => []
    | _ =>
        let n := List.length words in
        let w_dur := duration / of_nat n in
        slice_words (a_start seg) (a_end seg) w_dur n 0 words
    end.

(** [EnhancedAligner._to_word_segments] *)
Definition _to_word_segments (asr_segments : list AsrSeg) : list WordSeg :=
  flat_map segment_words asr_segments.

(** The test of the list comprehension in
    [_align_words_to_diarization]:
    [not (w["end"] <= d_start or w["start"] >= d_end)]. *)
Definition overlaps (d : Diar) (w : WordSeg) : bool :=
  negb (Qle_bool (w_end w) (d_start d) || Qle_bool (d_end d) (w_start w)).

(** The body of the loop over the diarization intervals. *)
Definition map_one (word_segments : list WordSeg) (d : Diar) : list Block :=
  let words := filter (overlaps d) word_segments in
  match words with
  | [] => []
  | _ =>
      let txt := Py.join " " (map word words) in
      [ mkBlock (Py.round3 (d_start d)) (Py.round3 (d_end d))
          (d_speaker d) (Py.strip txt) ]
  end.

(** [EnhancedAligner._align_words_to_diarization] *)
Definition _align_words_to_diarization
  (word_segments : list WordSeg) (diarization : list Diar) : list Block :=
  match word_segments, diarization with
  | [], _ => []
  | _, [] => []
  | _, _ =>
      let word_segments' := Py.sorted w_start word_segments in
      let diarization' := Py.sorted d_start diarization in
      flat_map (map_one word_segments') diarization'
  end.

(** The default of [max_gap], also [MAX_GAP] of [build_conversation]. *)
Definition MAX_GAP : Q := 3 # 4.

(** The test of [_merge_blocks]:
    [seg["speaker"] == last["speaker"] and 0 <= gap <= max_gap]. *)
Definition mergeable (max_gap : Q) (last seg : Block) : bool :=
  let gap := b_start seg - b_end last in
  String.eqb (b_speaker seg) (b_speaker last)
  && (Qle_bool 0 gap && Qle_bool gap max_gap).

(** The two assignments of the merging branch. *)
Definition absorb (last seg : Block) : Block :=
  mkBlock (b_start last) (b_end seg) (b_speaker last)
    (Py.strip (b_text last ++ " " ++ b_text seg)).

(** One iteration of the loop of [_merge_blocks]. The list [merged] is
    never empty: it is held as the entries before the last one and the
    last one, [merged[-1]]. The source updates [merged[-1]] in place;
    on values this is the same as long as no dictionary occurs twice
    in [segments], and [align] passes dictionaries it has just made. *)
Definition merge_step (max_gap : Q) (merged : list Block * Block) (seg : Block)
  : list Block * Block :=
  let (kept, last) := merged in
  if mergeable max_gap last seg then (kept, absorb last seg)
  else ((kept ++ [last])%list, seg).

(** [EnhancedAligner._merge_blocks] *)
Definition _merge_blocks (segments : list Block) (max_gap : Q) : list Block :=
  match Py.sorted b_start segments with
  | [] => []
  | s0 :: rest =>
      let (kept, last) := fold_left (merge_step max_gap) rest ([], s0) in
      (kept ++ [last])%list
  end.

(** [_overlap] *)
Definition _overlap (a_start a_end b_start b_end : Q) : Q :=
  Py.max 0 (Py.min a_end b_end - Py.max a_start b_start).

(** One iteration of the loop of [_best_diar_for_asr]; the state is
    [(best, best_overlap)]. *)
Definition best_step (s_start s_end : Q) (st : option AsrSeg * Q) (d : AsrSeg)
  : option AsrSeg * Q :=
  let (best, best_overlap) := st in
  let ov := _overlap s_start s_end (a_start d) (a_end d) in
  if Py.ltb best_overlap ov then (Some d, ov) else (best, best_overlap).

(** [_best_diar_for_asr], called by [align] with a merged block as
    [asr_seg] and the recognition segments as [diar]. *)
Definition _best_diar_for_asr (s_start s_end : Q) (diar : list AsrSeg)
  : option AsrSeg :=
  fst (fold_left (best_step s_start s_end) diar (None, 0)).

Section Confidence.

(** [math.exp] *)
Variable exp : Q -> Q.

(** [_confidence_from_whisper] *)
Definition _confidence_from_whisper (seg : AsrSeg) : Q :=
  let conf := 1 / (1 + exp (- avg_logprob seg)) in
  let conf := conf * (1 - no_speech_prob seg) in
  Py.max 0 (Py.min 1 conf).

(** The body of the loop of [align] over the merged blocks. *)
Definition attach (asr : list AsrSeg) (seg : Block) : SpeakerSeg :=
  let best := _best_diar_for_asr (b_start seg) (b_end seg) asr in
  mkSpeakerSeg (b_start seg) (b_end seg) (b_speaker seg) (b_text seg)
    (match best with
     | Some b => _confidence_from_whisper b
     | None => 1 # 2
     end).

(** [EnhancedAligner.align]; the result is the list under
    ["speaker_segments"]. *)
Definition align (asr_result : AsrResult) (diarization_result : list Diar)
  : list SpeakerSeg :=
  let diar := diarization_result in
  let asr := _extract_asr_segments asr_result in
  match asr, diar with
  | [], _ => []
  | _, [] => []
  | _, _ =>
      let words := _to_word_segments asr in
      let raw := _align_words_to_diarization words diar in
      let merged := _merge_blocks raw MAX_GAP in
      map (attach asr) merged
  end.

End Confidence.

(** [time_map[spk] = time_map.get(spk, 0) + dur] on a dictionary in
    insertion order. *)
Fixpoint time_add (spk : string) (dur : Q) (m : list (string * Q))
  : list (string * Q) :=
  match m with
  | [] => [(spk, 0 + dur)]
  | (k, v) :: tl =>
      if String.eqb k spk then (k, v + dur) :: tl
      else (k, v) :: time_add spk dur tl
  end.

(** One iteration of the first loop of [build_conversation]. *)
Definition time_step (m : list (string * Q)) (seg : SpeakerSeg)
  : list (string * Q) :=
  let dur := end_ seg - start seg in
  time_add (speaker seg) dur m.

(** The first loop of [build_conversation]. *)
Definition time_map (segments : list SpeakerSeg) : list (string * Q) :=
  fold_left time_step segments [].

(** [sorted(time_map.items(), key=lambda x: x[1], reverse=True)] *)
Definition speaker_order (segments : list SpeakerSeg) : list (string * Q) :=
  Py.sorted_desc snd (time_map segments).

(** The dictionary [roles]. With no speaker at all the source fails on
    [speaker_order[0]]; [build_conversation] has returned before. *)
Definition roles (order : list (string * Q)) : list (string * string) :=
  match order with
  | (customer, _) :: (agent, _) :: _ => [(customer, "CUSTOMER"); (agent, "AGENT")]
  | [(customer, _)] => [(customer, "CUSTOMER")]
  | [] => []
  end.

(** [roles.get(spk, spk)] *)
Fixpoint roles_get (r : list (string * string)) (spk : string) : string :=
  match r with
  | [] => spk
  | (k, v) :: tl => if String.eqb k spk then v else roles_get tl spk
  end.

(** One iteration of the second loop of [build_conversation]; the
    state is [(conv, current)]. *)
Definition turn_step (r : list (string * string))
  (st : list Turn * option Turn) (seg : SpeakerSeg) : list Turn * option Turn :=
  let (conv, current) := st in
  let spk := speaker seg in
  let role := roles_get r spk in
  let fresh := mkTurn (start seg) (end_ seg) role spk (text seg) in
  match current with
  | Some cur =>
      if String.eqb (t_speaker_raw cur) spk
         && Qle_bool (start seg - t_end cur) MAX_GAP
      then (conv, Some (mkTurn (t_start cur) (end_ seg) (t_role cur)
                          (t_speaker_raw cur) (t_text cur ++ " " ++ text seg)))
      else ((conv ++ [cur])%list, Some fresh)
  | None => (conv, Some fresh)
  end.

(** [build_conversation] from the aligned segments on. *)
Definition conversation_of (aligned : list SpeakerSeg) : list Turn :=
  match aligned with
  | [] => []
  | _ =>
      let segments := Py.sorted start aligned in
      let r := roles (speaker_order segments) in
      let (conv, current) := fold_left (turn_step r) segments ([], None) in
      match current with
      | Some cur => (conv ++ [cur])%list
      | None => conv
      end
  end.

(** [build_conversation] *)
Definition build_conversation (exp : Q -> Q)
  (asr_result : AsrResult) (diarization_result : list Diar) : list Turn :=
  conversation_of (align exp asr_result diarization_result).

(* ================================================================== *)
(** ** [metadata_service.py] *)
(* ================================================================== *)

(** A value of the dictionary [compute_speaker_stats] returns. *)
Record SpeakerStats : Type := mkSpeakerStats {
  total_speaking_time : Q;
  segment_count : nat;
  total_words : nat;
  longest_monologue : Q;
  first_spoke_at : option Q;
  last_spoke_at : option Q;
  avg_segment_length : Q;
  wpm : Q;
  speaking_ratio : Q;
  word_ratio : Q
}.

(** The non-empty dictionary [compute_conversation_stats] returns. *)
Record ConversationStats : Type := mkConversationStats {
  total_duration : Q;
  total_segments : nat;
  cs_total_words : nat;
  avg_turn_length : Q;
  speaker_count : nat;
  conversation_start : Q;
  conversation_end : Q
}.

(** The value the [defaultdict] creates for a new speaker; the four
    ratios are set after the loop. *)
Definition fresh_stats : SpeakerStats :=
  mkSpeakerStats 0 0 0 0 None None 0 0 0 0.

(** The updates of one segment on its speaker's entry. *)
Definition bump (seg : SpeakerSeg) (s : SpeakerStats) : SpeakerStats :=
  let duration := end_ seg - start seg in
  let word_count := List.length (Py.split (text seg)) in
  mkSpeakerStats
    (total_speaking_time s + duration)
    (segment_count s + 1)
    (total_words s + word_count)
    (Py.max (longest_monologue s) duration)
    (match first_spoke_at s with
     | None => Some (start seg)
     | Some f => Some (Py.min f (start seg))
     end)
    (match last_spoke_at s with
     | None => Some (end_ seg)
     | Some l => Some (Py.max l (end_ seg))
     end)
    (avg_segment_length s) (wpm s) (speaking_ratio s) (word_ratio s).

(** [stats[spk]] updated by [seg], the entry created when missing. *)
Fixpoint stats_update (seg : SpeakerSeg) (m : list (string * SpeakerStats))
  : list (string * SpeakerStats) :=
  match m with
  | [] => [(speaker seg, bump seg fresh_stats)]
  | (k, v) :: tl =>
      if String.eqb k (speaker seg) then (k, bump seg v) :: tl
      else (k, v) :: stats_update seg tl
  end.

(** The second loop of [compute_speaker_stats]. *)
Definition derive (total_audio_talk_time : Q) (total_audio_words : nat)
  (s : SpeakerStats) : SpeakerStats :=
  mkSpeakerStats
    (total_speaking_time s) (segment_count s) (total_words s)
    (longest_monologue s) (first_spoke_at s) (last_spoke_at s)
    (total_speaking_time s / of_nat (Nat.max (segment_count s) 1))
    (if Py.ltb 0 (total_speaking_time s)
     then of_nat (total_words s) / total_speaking_time s * 60
     else 0)
    (total_speaking_time s / Py.max total_audio_talk_time 1)
    (of_nat (total_words s) / Py.max (of_nat total_audio_words) 1).

(** [MetadataExtractor.compute_speaker_stats] *)
Definition compute_speaker_stats (speaker_segments : list SpeakerSeg)
  : list (string * SpeakerStats) :=
  match speaker_segments with
  | [] => []
  | _ =>
      let stats := fold_left (fun m seg => stats_update seg m) speaker_segments [] in
      let total_audio_talk_time :=
        fold_left (fun acc kv => acc + total_speaking_time (snd kv)) stats 0 in
      let total_audio_words :=
        fold_left (fun acc kv => (acc + total_words (snd kv))%nat) stats 0%nat in
      map (fun kv => (fst kv, derive total_audio_talk_time total_audio_words (snd kv)))
        stats
  end.

(** [MetadataExtractor.compute_conversation_stats]; [None] is the
    empty dictionary. *)
Definition compute_conversation_stats
  (speaker_segments : list SpeakerSeg) (diarization_segments : list Diar)
  : option ConversationStats :=
  match speaker_segments, diarization_segments with
  | [], _ => None
  | _, [] => None
  | _, d0 :: _ =>
      let start_time := d_start d0 in
      let end_time := d_end (last diarization_segments d0) in
      let duration := end_time - start_time in
      let words :=
        fold_left (fun acc seg => (acc + List.length (Py.split (text seg)))%nat)
          speaker_segments 0%nat in
      Some (mkConversationStats
              duration
              (List.length speaker_segments)
              words
              (duration / of_nat (Nat.max (List.length speaker_segments) 1))
              (List.length (nodup string_dec (map speaker speaker_segments)))
              start_time
              end_time)
  end.


(* ================================================================== *)
(** ** Specification vocabulary *)
(* ================================================================== *)

(** *** Texts *)

(** No white space at either end (the empty text included). *)
Definition trimmed (s : string) : Prop :=
  Py.lstrip s = s /\ Py.rstrip s = s.

(** A word as [split] yields it: not empty, no white space inside. *)
Fixpoint spaceless (s : string) : bool :=
  match s with
  | EmptyString => true
  | String c s' => negb (Py.is_space c) && spaceless s'
  end.

Definition token (s : string) : Prop := s <> "" /\ spaceless s = true.

(** *** Word intervals *)

(** Each interval ends where the next one starts. *)
Fixpoint chained (ws : list WordSeg) : Prop :=
  match ws with
  | a :: ((b :: _) as tl) => w_end a == w_start b /\ chained tl
  | _ => True
  end.

(** [ws] are [n] intervals laid end to end from [s] to [e]: the first
    starts at [s], the last ends at [e], each ends where the next
    starts, none is inverted and none leaves [[s, e]]. *)
Record tiles (s e : Q) (n : nat) (ws : list WordSeg) : Prop := mkTiles {
  tiles_count : List.length ws = n;
  tiles_first : exists a, hd_error ws = Some a /\ w_start a == s;
  tiles_last : exists a, nth_error ws (n - 1) = Some a /\ w_end a == e;
  tiles_chain : chained ws;
  tiles_proper : forall a, In a ws -> w_start a <= w_end a;
  tiles_within : forall a, In a ws -> s <= w_start a /\ w_end a <= e
}.

(** The slices before the last one end inside the segment: [N - 1]
    times the slice width is at most [end - start]. *)
Definition slices_fit (seg : AsrSeg) : Prop :=
  let n := List.length (Py.split (a_text seg)) in
  of_nat (n - 1) * (Py.max (a_end seg - a_start seg) EPS / of_nat n)
  <= a_end seg - a_start seg.

(** The [k]-th interval the inner loop emits for [n] words. *)
Definition slot (st en w_dur : Q) (n k : nat) (w : string) : WordSeg :=
  mkWordSeg (st + of_nat k * w_dur)
    (if (k =? n - 1)%nat then en else st + of_nat (k + 1) * w_dur) w.

(** *** Ordered lists *)

Section Ordered.
Context {A : Type}.
Variable key : A -> Q.

(** Keys never decrease from one entry to the next. *)
Fixpoint ascending (l : list A) : Prop :=
  match l with
  | a :: ((b :: _) as tl) => key a <= key b /\ ascending tl
  | _ => True
  end.

(** Keys increase from each entry to the next. *)
Fixpoint strictly_ascending (l : list A) : Prop :=
  match l with
  | a :: ((b :: _) as tl) => key a < key b /\ strictly_ascending tl
  | _ => True
  end.

End Ordered.

(** *** Blocks *)

(** A block as the speaker mapper emits it from proper diarization
    intervals and words: not inverted, with a trimmed text that is not
    empty. *)
Definition raw_block (b : Block) : Prop :=
  b_start b <= b_end b /\ trimmed (b_text b) /\ b_text b <> "".

(** The gap between two blocks, [seg["start"] - last["end"]]. *)
Definition gap (last seg : Block) : Q := b_start seg - b_end last.

(** No entry could be merged into the one before it. *)
Fixpoint settled (max_gap : Q) (l : list Block) : Prop :=
  match l with
  | a :: ((b :: _) as tl) =>
      ~ (b_speaker b = b_speaker a /\ 0 <= gap a b <= max_gap)
      /\ settled max_gap tl
  | _ => True
  end.

(** No two neighbours with one speaker and a gap of at most
    [max_gap], whatever its sign. *)
Fixpoint no_close_pair (max_gap : Q) (l : list Block) : Prop :=
  match l with
  | a :: ((b :: _) as tl) =>
      ~ (b_speaker b = b_speaker a /\ gap a b <= max_gap)
      /\ no_close_pair max_gap tl
  | _ => True
  end.

(** The loop of [_merge_blocks] as a recursion on the blocks still to
    come, [last] being [merged[-1]]. *)
Fixpoint merge_from (max_gap : Q) (last : Block) (rest : list Block)
  : list Block :=
  match rest with
  | [] => [last]
  | seg :: rest' =>
      if mergeable max_gap last seg
      then merge_from max_gap (absorb last seg) rest'
      else last :: merge_from max_gap seg rest'
  end.

(** The same loop, keeping for every kept block the input blocks that
    went into it. *)
Fixpoint groups_from (max_gap : Q) (last : Block) (grp : list Block)
  (rest : list Block) : list (list Block) :=
  match rest with
  | [] => [grp]
  | seg :: rest' =>
      if mergeable max_gap last seg
      then groups_from max_gap (absorb last seg) (grp ++ [seg])%list rest'
      else grp :: groups_from max_gap seg [seg] rest'
  end.

(** For each block [_merge_blocks] returns, in order, the input blocks
    merged into it. *)
Definition contributions (segments : list Block) (max_gap : Q)
  : list (list Block) :=
  match Py.sorted b_start segments with
  | [] => []
  | s0 :: rest => groups_from max_gap s0 [s0] rest
  end.

(** In a state of the merge loop, the input block [a] is the one read
    last: it closes the current group, and [merged[-1]] ends where it
    ends and has its speaker. *)
Definition read_last (last : Block) (grp : list Block) (a : Block) : Prop :=
  (exists x, grp = (x ++ [a])%list)
  /\ b_end last = b_end a /\ b_speaker last = b_speaker a.

(** The block a run of merges makes of a group of input blocks. *)
Definition fuse (grp : list Block) : option Block :=
  match grp with
  | [] => None
  | x :: tl => Some (fold_left absorb tl x)
  end.

(** *** The speaker mapper, from the specification's words *)

(** For every diarization interval in order of start: when at least
    one word interval overlaps it, one block with the interval's
    rounded bounds, its speaker, and the overlapping words in time
    order joined by single spaces; otherwise nothing. *)
Definition mapper_spec (ws : list WordSeg) (ds : list Diar) : list Block :=
  flat_map
    (fun d =>
       if existsb (overlaps d) ws
       then [ mkBlock (Py.round3 (d_start d)) (Py.round3 (d_end d)) (d_speaker d)
                (Py.join " "
                   (map word (filter (overlaps d) (Py.sorted w_start ws)))) ]
       else [])
    (Py.sorted d_start ds).

(** *** Confidence *)

(** The length of the time two intervals share. *)
Definition overlap_len (s e : Q) (x : AsrSeg) : Q :=
  Qmax 0 (Qmin e (a_end x) - Qmax s (a_start x)).

(** [b] is the entry of [asr] that shares the most time with
    [[s, e]], the earliest one among equals, and it shares some. *)
Definition first_best (s e : Q) (asr : list AsrSeg) (b : AsrSeg) : Prop :=
  exists pre post,
    asr = (pre ++ b :: post)%list
    /\ 0 < overlap_len s e b
    /\ (forall x, In x pre -> overlap_len s e x < overlap_len s e b)
    /\ (forall x, In x post -> overlap_len s e x <= overlap_len s e b).

(** What the scan of [_best_diar_for_asr] knows after the entries
    [seen], its state being [(best, best_overlap)]. *)
Definition scan_inv (s e : Q) (seen : list AsrSeg) (st : option AsrSeg * Q)
  : Prop :=
  match fst st with
  | None => snd st == 0 /\ forall x, In x seen -> overlap_len s e x <= 0
  | Some b => snd st == overlap_len s e b /\ first_best s e seen b
  end.

(** [1 / (1 + e^-x)] *)
Definition sigmoid (exp : Q -> Q) (x : Q) : Q := 1 / (1 + exp (- x)).

(** [clamp(c, 0, 1)] *)
Definition clamp01 (c : Q) : Q := Qmax 0 (Qmin 1 c).

(** *** Conversation roles *)

(** The labels the source gives the two roles the specification calls
    PRIMARY and SECONDARY. *)
Definition PRIMARY : string := "CUSTOMER".
Definition SECONDARY : string := "AGENT".

(** The total speaking time of [spk]: the sum of [end - start] over
    its segments. *)
Definition speaking_time (segs : list SpeakerSeg) (spk : string) : Q :=
  fold_right
    (fun seg acc =>
       if String.eqb (speaker seg) spk then (end_ seg - start seg) + acc else acc)
    0 segs.

(** [spk] is the speaker of some segment. *)
Definition speaks (segs : list SpeakerSeg) (spk : string) : Prop :=
  In spk (map speaker segs).

(** [k] speaks at least as long as everybody, but for [skip]. *)
Definition tops (segs : list SpeakerSeg) (skip : list string) (k : string) : Prop :=
  forall x, speaks segs x -> ~ In x skip ->
            speaking_time segs x <= speaking_time segs k.

(** The role of a speaker by rank: the one who speaks longest is
    PRIMARY, the one who speaks longest among the others is SECONDARY,
    and one with two speakers ranked before keeps the raw label. *)
Definition ranked_role (segs : list SpeakerSeg) (raw role : string) : Prop :=
  (role = PRIMARY /\ tops segs [] raw)
  \/ (role = SECONDARY
      /\ exists p, speaks segs p /\ p <> raw /\ tops segs [] p /\ tops segs [p] raw)
  \/ (role = raw
      /\ exists p s, speaks segs p /\ speaks segs s
                     /\ p <> s /\ p <> raw /\ s <> raw
                     /\ tops segs [] p /\ tops segs [p] s).

(** A turn has a raw speaker of [all] and the role [r] gives it. *)
Definition turn_ok (r : list (string * string)) (all : list SpeakerSeg)
  (t : Turn) : Prop :=
  t_role t = roles_get r (t_speaker_raw t) /\ speaks all (t_speaker_raw t).

(** All turns of a state [(conv, current)] of the second loop are. *)
Definition turns_ok (r : list (string * string)) (all : list SpeakerSeg)
  (st : list Turn * option Turn) : Prop :=
  Forall (turn_ok r all) (fst st) /\ forall c, snd st = Some c -> turn_ok r all c.

(** [dict.get] on a dictionary in insertion order. *)
Fixpoint lookup (m : list (string * Q)) (k : string) : option Q :=
  match m with
  | [] => None
  | (k', v) :: tl => if String.eqb k' k then Some v else lookup tl k
  end.

Section Descending.
Context {A : Type}.
Variable key : A -> Q.

(** Keys never increase from one entry to the next. *)
Fixpoint descending (l : list A) : Prop :=
  match l with
  | a :: ((b :: _) as tl) => key b <= key a /\ descending tl
  | _ => True
  end.

End Descending.

(* ================================================================== *)
(** ** Further vocabulary *)
(* ================================================================== *)

(** The words of a block, of a segment and of a turn. *)
Definition block_words (b : Block) : list string := Py.split (b_text b).
Definition seg_words (s : SpeakerSeg) : list string := Py.split (text s).
Definition turn_words (t : Turn) : list string := Py.split (t_text t).

(** The words whose intervals overlap [d], in order of start. *)
Definition words_in (ws : list WordSeg) (d : Diar) : list string :=
  map word (filter (overlaps d) (Py.sorted w_start ws)).

(** An interval that is not inverted. *)
Definition proper_block (b : Block) : Prop := b_start b <= b_end b.
Definition proper_diar (d : Diar) : Prop := d_start d <= d_end d.

(** The block [m] is the hull of the group [grp] of blocks: it starts
    with the first, ends with the last, and holds every one. *)
Definition hull_of (m : Block) (grp : list Block) : Prop :=
  grp <> []
  /\ b_start m = b_start (hd m grp)
  /\ b_end m = b_end (last grp m)
  /\ forall x, In x grp -> b_start m <= b_start x /\ b_end x <= b_end m.

(** A text as the pipeline hands it on: trimmed and not empty. *)
Definition text_ok (s : string) : Prop := trimmed s /\ s <> "".

(** *** Turns *)

(** The turn [build_conversation] opens for a segment. *)
Definition turn_of (r : list (string * string)) (seg : SpeakerSeg) : Turn :=
  mkTurn (start seg) (end_ seg) (roles_get r (speaker seg)) (speaker seg)
    (text seg).

(** The test of the second loop of [build_conversation] on an open
    turn: same raw speaker and a gap of at most [MAX_GAP]. *)
Definition extends (cur : Turn) (seg : SpeakerSeg) : bool :=
  String.eqb (t_speaker_raw cur) (speaker seg)
  && Qle_bool (start seg - t_end cur) MAX_GAP.

(** The open turn after a segment was added to it. *)
Definition extend (cur : Turn) (seg : SpeakerSeg) : Turn :=
  mkTurn (t_start cur) (end_ seg) (t_role cur) (t_speaker_raw cur)
    (t_text cur ++ " " ++ text seg).

(** The second loop of [build_conversation] as a recursion on the
    segments still to come, [cur] being the open turn. *)
Fixpoint turns_from (r : list (string * string)) (cur : Turn)
  (rest : list SpeakerSeg) : list Turn :=
  match rest with
  | [] => [cur]
  | seg :: rest' =>
      if extends cur seg then turns_from r (extend cur seg) rest'
      else cur :: turns_from r (turn_of r seg) rest'
  end.

(** A relation holds between every entry and the next one. *)
Fixpoint neighbours {A : Type} (R : A -> A -> Prop) (l : list A) : Prop :=
  match l with
  | a :: ((b :: _) as tl) => R a b /\ neighbours R tl
  | _ => True
  end.

(** *** Speaker statistics *)



(** [dict.get] on the dictionary of statistics. *)
Fixpoint lookup_stats (m : list (string * SpeakerStats)) (k : string)
  : option SpeakerStats :=
  match m with
  | [] => None
  | (k', v) :: tl => if String.eqb k' k then Some v else lookup_stats tl k
  end.

(** The entry of speaker [k] after the segments [segs], started from
    [init]: only the segments of [k] count. *)
Definition stats_of (segs : list SpeakerSeg) (k : string) (init : SpeakerStats)
  : SpeakerStats :=
  fold_left
    (fun s seg => if String.eqb (speaker seg) k then bump seg s else s)
    segs init.

(** The segments of speaker [k]. *)
Definition segments_of (segs : list SpeakerSeg) (k : string) : list SpeakerSeg :=
  filter (fun seg => String.eqb (speaker seg) k) segs.

(** The number of words of a list of segments. *)
Definition words_total (segs : list SpeakerSeg) : nat :=
  fold_right (fun seg acc => (List.length (Py.split (text seg)) + acc)%nat)
    0%nat segs.

(** The time a list of segments lasts in all. *)
Definition time_total (segs : list SpeakerSeg) : Q :=
  fold_right (fun seg acc => (end_ seg - start seg) + acc) 0 segs.

(** The sums [compute_speaker_stats] takes over the dictionary. *)
Definition sum_time (m : list (string * SpeakerStats)) : Q :=
  fold_left (fun acc kv => acc + total_speaking_time (snd kv)) m 0.

Definition sum_words (m : list (string * SpeakerStats)) : nat :=
  fold_left (fun acc kv => (acc + total_words (snd kv))%nat) m 0%nat.

Definition sum_count (m : list (string * SpeakerStats)) : nat :=
  fold_left (fun acc kv => (acc + segment_count (snd kv))%nat) m 0%nat.

(** The dictionary before the ratios are set: the first loop of
    [compute_speaker_stats]. *)
Definition raw_stats (segs : list SpeakerSeg) : list (string * SpeakerStats) :=
  fold_left (fun m seg => stats_update seg m) segs [].

(** The length of a segment. *)
Definition duration (seg : SpeakerSeg) : Q := end_ seg - start seg.

(** What an entry of the dictionary holds when [S] are the segments
    of its speaker read so far. *)
Definition stats_inv (S : list SpeakerSeg) (s : SpeakerStats) : Prop :=
  total_speaking_time s == time_total S
  /\ segment_count s = List.length S
  /\ total_words s = words_total S
  /\ (0 <= longest_monologue s
      /\ (forall x, In x S -> duration x <= longest_monologue s)
      /\ (longest_monologue s = 0
          \/ exists x, In x S /\ longest_monologue s = duration x))
  /\ match first_spoke_at s with
     | None => S = []
     | Some f => (forall x, In x S -> f <= start x)
                 /\ exists x, In x S /\ f = start x
     end
  /\ match last_spoke_at s with
     | None => S = []
     | Some l => (forall x, In x S -> end_ x <= l)
                 /\ exists x, In x S /\ l = end_ x
     end.

(* ================================================================== *)
(** ** [diarization_service.py]: smoothing *)
(* ================================================================== *)

(** A diarization segment as [diarize_audio] builds it:
    [{start, end, speaker, confidence}]. *)
Record DiarSeg : Type := mkDiarSeg {
  g_start : Q;
  g_end : Q;
  g_speaker : string;
  g_confidence : Q
}.

(** The defaults of [min_duration] and [max_gap_merge]. *)
Definition MIN_DURATION : Q := 4 # 5.
Definition MAX_GAP_MERGE : Q := 2 # 5.

(** The two assignments both merging branches of [_smooth_segments]
    make on [last]. *)
Definition widen (last seg : DiarSeg) : DiarSeg :=
  mkDiarSeg (g_start last) (Py.max (g_end last) (g_end seg)) (g_speaker last)
    ((g_confidence last + g_confidence seg) / 2).

(** One iteration of the loop of [_smooth_segments]; the list
    [smoothed] is held as the entries before the last one and the
    last one, when there is one. *)
Definition smooth_step (min_duration max_gap_merge : Q)
  (st : list DiarSeg * option DiarSeg) (seg : DiarSeg)
  : list DiarSeg * option DiarSeg :=
  let (kept, cur) := st in
  let duration := g_end seg - g_start seg in
  match cur with
  | Some last =>
      let gap := g_start seg - g_end last in
      if String.eqb (g_speaker seg) (g_speaker last)
         && Qle_bool gap max_gap_merge
      then (kept, Some (widen last seg))
      else if Py.ltb duration min_duration
           then (kept, Some (widen last seg))
           else ((kept ++ [last])%list, Some seg)
  | None => (kept, Some seg)
  end.

(** [_smooth_segments] *)
Definition _smooth_segments (segments : list DiarSeg)
  (min_duration max_gap_merge : Q) : list DiarSeg :=
  match segments with
  | [] => []
  | _ =>
      let segments' := Py.sorted g_start segments in
      let (kept, cur) :=
        fold_left (smooth_step min_duration max_gap_merge) segments' ([], None) in
      match cur with
      | Some last => (kept ++ [last])%list
      | None => kept
      end
  end.

(** What [align] reads of a diarization segment. *)
Definition to_diar (s : DiarSeg) : Diar :=
  mkDiar (g_start s) (g_end s) (g_speaker s).

(** The two tests of the loop taken together: the segment goes into
    [last]. *)
Definition absorbed (min_duration max_gap_merge : Q) (last seg : DiarSeg)
  : bool :=
  (String.eqb (g_speaker seg) (g_speaker last)
   && Qle_bool (g_start seg - g_end last) max_gap_merge)
  || Py.ltb (g_end seg - g_start seg) min_duration.

(** The loop of [_smooth_segments] as a recursion on the segments
    still to come. *)
Fixpoint smooth_from (md mg : Q) (last : DiarSeg) (rest : list DiarSeg)
  : list DiarSeg :=
  match rest with
  | [] => [last]
  | seg :: rest' =>
      if absorbed md mg last seg then smooth_from md mg (widen last seg) rest'
      else last :: smooth_from md mg seg rest'
  end.

(** The interval of [out] holds the interval of [x]. *)
Definition holds (out x : DiarSeg) : Prop :=
  g_start out <= g_start x /\ g_end x <= g_end out.

(* ================================================================== *)
(** ** Further vocabulary, continued *)
(* ================================================================== *)

(** A normalised recognition segment as a record of the recognition
    engine, all keys present. *)
Definition to_raw (seg : AsrSeg) : RawAsr :=
  mkRawAsr (Some (a_start seg)) (Some (a_end seg)) (Some (a_text seg))
    (Some (avg_logprob seg)) (Some (no_speech_prob seg)).

(* ================================================================== *)
(** ** Recognition records before [float()] *)
(* ================================================================== *)

(** What a record of the recognition engine may hold under ["start"]
    and ["end"]: a number or [None].  [RawAsr] above is the record
    whose two values are numbers. *)
Inductive PyValue : Type :=
| PyNumber (q : Q)
| PyNone.

Inductive Exception : Type :=
| TypeError.

(** A call returns a value or raises. *)
Inductive Result (A : Type) : Type :=
| Returns (a : A)
| Raises (e : Exception).

Arguments Returns {A} a.
Arguments Raises {A} e.

Definition bind {A B : Type} (m : Result A) (k : A -> Result B) : Result B :=
  match m with
  | Returns a => k a
  | Raises e => Raises e
  end.

Notation "x <- m ;; k" := (bind m (fun x => k))
  (at level 61, m at next level, right associativity).

(** [float(v)]: a [TypeError] on [None]. *)
Definition float (v : PyValue) : Result Q :=
  match v with
  | PyNumber q => Returns q
  | PyNone => Raises TypeError
  end.

(** A record as it arrives: every key may be absent, and ["start"]
    and ["end"] may hold [None]. *)
Record PyRecord : Type := mkPyRecord {
  p_start : option PyValue;
  p_end : option PyValue;
  p_text : option string;
  p_avg_logprob : option Q;
  p_no_speech_prob : option Q
}.

(** The accepted shapes of [asr_result], over such records. *)
Inductive PyAsrResult : Type :=
| PyDict (segments : option (list PyRecord)) (meta_segments : option (list PyRecord))
| PyList (segs : list PyRecord)
| PyOther.

(** The list [_extract_asr_segments] walks through, [[]] when it
    finds none. *)
Definition selected (asr_result : PyAsrResult) : list PyRecord :=
  match asr_result with
  | PyDict (Some l) _ => l
  | PyDict None (Some l) => l
  | PyDict None None => []
  | PyList l => l
  | PyOther => []
  end.

Module Raising.

(** The loop body of [_extract_asr_segments]: a record without
    ["start"] or ["end"] is skipped before [float] is called. *)
Definition normalise_one (s : PyRecord) : Result (list AsrSeg) :=
  match p_start s, p_end s with
  | Some vs, Some ve =>
      st <- float vs ;;
      en <- float ve ;;
      Returns [ mkAsrSeg st en
                  (Py.strip (or_default (p_text s) ""))
                  (or_default (p_avg_logprob s) (-1))
                  (or_default (p_no_speech_prob s) 0) ]
  | _, _ => Returns []
  end.

(** The loop of [_extract_asr_segments]. *)
Fixpoint normalise (segs : list PyRecord) : Result (list AsrSeg) :=
  match segs with
  | [] => Returns []
  | s :: tl =>
      one <- normalise_one s ;;
      rest <- normalise tl ;;
      Returns (one ++ rest)%list
  end.

(** [EnhancedAligner._extract_asr_segments] *)
Definition _extract_asr_segments (asr_result : PyAsrResult)
  : Result (list AsrSeg) :=
  normalise (selected asr_result).

(** [EnhancedAligner.align]: the recognition segments are normalised
    before the two lists are tested for emptiness, and
    [diarization_result] may be [None]. *)
Definition align (exp : Q -> Q) (asr_result : PyAsrResult)
  (diarization_result : option (list Diar)) : Result (list SpeakerSeg) :=
  let diar := or_default diarization_result [] in
  asr <- _extract_asr_segments asr_result ;;
  Returns
    match asr, diar with
    | [], _ => []
    | _, [] => []
    | _, _ =>
        let words := _to_word_segments asr in
        let raw := _align_words_to_diarization words diar in
        let merged := _merge_blocks raw MAX_GAP in
        map (attach exp asr) merged
    end.

(** [build_conversation] *)
Definition build_conversation (exp : Q -> Q) (asr_result : PyAsrResult)
  (diarization_result : option (list Diar)) : Result (list Turn) :=
  aligned <- align exp asr_result diarization_result ;;
  Returns (conversation_of aligned).

End Raising.

(** A record on which [float] does not raise. *)
Definition numeric (s : PyRecord) : Prop :=
  match p_start s, p_end s with
  | Some vs, Some ve => vs <> PyNone /\ ve <> PyNone
  | _, _ => True
  end.

(** A record with numbers as a record as it arrives. *)
Definition of_raw (s : RawAsr) : PyRecord :=
  mkPyRecord (option_map PyNumber (raw_start s)) (option_map PyNumber (raw_end s))
    (raw_text s) (raw_avg_logprob s) (raw_no_speech_prob s).

Definition of_typed (asr_result : AsrResult) : PyAsrResult :=
  match asr_result with
  | AsrDict l m => PyDict (option_map (map of_raw) l) (option_map (map of_raw) m)
  | AsrList l => PyList (map of_raw l)
  | AsrOther => PyOther
  end.

(* ================================================================== *)
(** ** Facts about the primitives *)
(* ================================================================== *)

Lemma Qle_bool_false (a b : Q) : Qle_bool a b = false -> b < a.
Proof.
  intro H. apply Qnot_le_lt. intro L.
  apply Qle_bool_iff in L. congruence.
Qed.

Lemma ltb_true (a b : Q) : Py.ltb a b = true <-> a < b.
Proof.
  unfold Py.ltb. split; intro H.
  - apply negb_true_iff in H. now apply Qle_bool_false.
  - apply negb_true_iff. destruct (Qle_bool b a) eqn:E; [|reflexivity].
    apply Qle_bool_iff in E. exfalso. apply (Qlt_not_le _ _ H E).
Qed.

Lemma ltb_false (a b : Q) : Py.ltb a b = false <-> b <= a.
Proof.
  unfold Py.ltb. rewrite negb_false_iff. apply Qle_bool_iff.
Qed.

Lemma max_ge_l (a b : Q) : a <= Py.max a b.
Proof.
  unfold Py.max. destruct (Qle_bool b a) eqn:E.
  - apply Qle_refl.
  - apply Qlt_le_weak. now apply Qle_bool_false.
Qed.

Lemma max_ge_r (a b : Q) : b <= Py.max a b.
Proof.
  unfold Py.max. destruct (Qle_bool b a) eqn:E.
  - now apply Qle_bool_iff.
  - apply Qle_refl.
Qed.

Lemma max_left (a b : Q) : b <= a -> Py.max a b = a.
Proof.
  intro H. unfold Py.max. apply Qle_bool_iff in H. now rewrite H.
Qed.

Lemma min_le_l (a b : Q) : Py.min a b <= a.
Proof.
  unfold Py.min. destruct (Qle_bool a b) eqn:E.
  - apply Qle_refl.
  - apply Qlt_le_weak. now apply Qle_bool_false.
Qed.

Lemma of_nat_nonneg (n : nat) : 0 <= of_nat n.
Proof.
  unfold of_nat. rewrite <- (Zle_Qle 0). apply Nat2Z.is_nonneg.
Qed.

Lemma of_nat_le (m n : nat) : (m <= n)%nat -> of_nat m <= of_nat n.
Proof.
  intro H. unfold of_nat. rewrite <- Zle_Qle. now apply Nat2Z.inj_le.
Qed.

Lemma of_nat_pos (n : nat) : (0 < n)%nat -> 0 < of_nat n.
Proof.
  intro H. unfold of_nat. rewrite <- (Zlt_Qlt 0). lia.
Qed.

Lemma of_nat_S (n : nat) : of_nat (S n) == of_nat n + 1.
Proof.
  unfold of_nat. rewrite Nat2Z.inj_succ. unfold Z.succ.
  now rewrite inject_Z_plus.
Qed.

(** A share [k/n] of a non-negative length is at most the length. *)
Lemma share_le (d : Q) (k n : nat) :
  0 <= d -> (k <= n)%nat -> (0 < n)%nat -> of_nat k * (d / of_nat n) <= d.
Proof.
  intros Hd Hk Hn.
  pose proof (of_nat_pos n Hn) as Hp.
  assert (Hq : 0 <= d / of_nat n).
  { apply Qle_shift_div_l; [exact Hp|]. now rewrite Qmult_0_l. }
  assert (E : d == of_nat n * (d / of_nat n)).
  { field. intro Z0. rewrite Z0 in Hp. now apply Qlt_irrefl in Hp. }
  rewrite E at 2.
  apply Qmult_le_compat_r; [now apply of_nat_le | exact Hq].
Qed.

Lemma share_nonneg (d : Q) (n : nat) :
  0 <= d -> (0 < n)%nat -> 0 <= d / of_nat n.
Proof.
  intros Hd Hn. apply Qle_shift_div_l; [now apply of_nat_pos|].
  now rewrite Qmult_0_l.
Qed.

(* ------------------------------------------------------------------ *)
(** *** White space *)

Lemma lstrip_head (s : string) (c : ascii) (r : string) :
  Py.lstrip s = String c r -> Py.is_space c = false.
Proof.
  induction s as [|a s IH]; simpl; [discriminate|].
  destruct (Py.is_space a) eqn:E; [exact IH|].
  intro H. injection H as -> _. exact E.
Qed.

Lemma rstrip_head (s : string) (c : ascii) (r : string) :
  Py.rstrip s = String c r -> exists s', s = String c s'.
Proof.
  destruct s as [|a s]; simpl; [discriminate|].
  destruct (Py.rstrip s); [destruct (Py.is_space a)|];
    intro H; try discriminate; injection H as -> _; eauto.
Qed.

Lemma strip_head (s : string) (c : ascii) (r : string) :
  Py.strip s = String c r -> Py.is_space c = false.
Proof.
  unfold Py.strip. intro H.
  destruct (rstrip_head _ _ _ H) as [s' Hs'].
  now apply lstrip_head in Hs'.
Qed.

Lemma split_head (c : ascii) (s : string) :
  Py.is_space c = false -> Py.split (String c s) <> [].
Proof.
  intro E. simpl. rewrite E.
  destruct s as [|c' s']; [discriminate|].
  destruct (Py.is_space c'); [discriminate|].
  destruct (Py.split (String c' s')); discriminate.
Qed.

(** A stripped text that is not empty has at least one word. *)
Lemma split_stripped (t : string) :
  Py.strip t <> "" -> Py.split (Py.strip t) <> [].
Proof.
  intro H. destruct (Py.strip t) as [|c r] eqn:E; [congruence|].
  apply split_head. exact (strip_head _ _ _ E).
Qed.

(* ================================================================== *)
(** ** Word slicing *)
(* ================================================================== *)

Lemma slice_words_length st en wd n i words :
  List.length (slice_words st en wd n i words) = List.length words.
Proof.
  revert i. induction words as [|w rest IH]; intro i; simpl; [reflexivity|].
  now rewrite IH.
Qed.

Lemma slice_words_nth st en wd n words : forall i k w,
  nth_error words k = Some w ->
  nth_error (slice_words st en wd n i words) k = Some (slot st en wd n (i + k) w).
Proof.
  induction words as [|w0 rest IH]; intros i k w H.
  - destruct k; discriminate.
  - destruct k as [|k]; simpl in *.
    + injection H as ->. now rewrite Nat.add_0_r.
    + rewrite (IH (S i) k w H). now rewrite Nat.add_succ_r.
Qed.

Lemma slice_words_In st en wd n words : forall i a,
  In a (slice_words st en wd n i words) ->
  exists k w, (i <= k < i + List.length words)%nat /\ a = slot st en wd n k w.
Proof.
  induction words as [|w0 rest IH]; intros i a H; simpl in H; [contradiction|].
  destruct H as [<- | H].
  - exists i, w0. split; [simpl; lia | reflexivity].
  - destruct (IH _ _ H) as (k & w & Hk & ->).
    exists k, w. split; [simpl; lia | reflexivity].
Qed.

Lemma slice_words_chained st en wd n words : forall i,
  n = (i + List.length words)%nat ->
  chained (slice_words st en wd n i words).
Proof.
  induction words as [|w0 rest IH]; intros i Hn; [exact I|].
  destruct rest as [|w1 rest]; [exact I|].
  change (slice_words st en wd n i (w0 :: w1 :: rest))
    with (slot st en wd n i w0 :: slice_words st en wd n (S i) (w1 :: rest)).
  change (slice_words st en wd n (S i) (w1 :: rest))
    with (slot st en wd n (S i) w1 :: slice_words st en wd n (S (S i)) rest) at 1.
  split.
  - simpl. simpl in Hn.
    replace (i =? n - 1)%nat with false by (symmetry; apply Nat.eqb_neq; lia).
    now rewrite Nat.add_1_r.
  - change (slot st en wd n (S i) w1 :: slice_words st en wd n (S (S i)) rest)
      with (slice_words st en wd n (S i) (w1 :: rest)).
    apply IH. simpl in *. lia.
Qed.

(* ------------------------------------------------------------------ *)
(** *** Trimmed texts and tokens *)

Lemma rstrip_idem (s : string) : Py.rstrip (Py.rstrip s) = Py.rstrip s.
Proof.
  induction s as [|c s IH]; [reflexivity|].
  simpl. destruct (Py.rstrip s) as [|a r] eqn:E.
  - destruct (Py.is_space c) eqn:Ec; [reflexivity|].
    simpl. now rewrite Ec.
  - change (Py.rstrip (String c (String a r)))
      with (match Py.rstrip (String a r) with
            | EmptyString =>
                if Py.is_space c then EmptyString else String c EmptyString
            | r0 => String c r0
            end).
    now rewrite IH.
Qed.

Lemma lstrip_fixed (c : ascii) (s : string) :
  Py.is_space c = false -> Py.lstrip (String c s) = String c s.
Proof. intro E. simpl. now rewrite E. Qed.

Lemma trimmed_strip (t : string) : trimmed (Py.strip t).
Proof.
  unfold trimmed, Py.strip. split; [|apply rstrip_idem].
  destruct (Py.rstrip (Py.lstrip t)) as [|c r] eqn:E; [reflexivity|].
  apply lstrip_fixed. exact (strip_head t c r E).
Qed.

Lemma strip_trimmed (s : string) : trimmed s -> Py.strip s = s.
Proof. intros [L R]. unfold Py.strip. now rewrite L. Qed.

Lemma trimmed_head (c : ascii) (s : string) :
  trimmed (String c s) -> Py.is_space c = false.
Proof. intros [L _]. exact (lstrip_head _ _ _ L). Qed.

Lemma app_empty (a b : string) : a ++ b = "" -> b = "".
Proof. destruct a; simpl; [auto | discriminate]. Qed.

Lemma rstrip_app (a b : string) :
  Py.rstrip b = b -> b <> "" -> Py.rstrip (a ++ b) = a ++ b.
Proof.
  intros Hb Hne. induction a as [|c a IH]; [exact Hb|].
  simpl. rewrite IH.
  destruct (a ++ b) eqn:E; [|reflexivity].
  apply app_empty in E. contradiction.
Qed.

Lemma lstrip_app (a b : string) :
  Py.lstrip a = a -> a <> "" -> Py.lstrip (a ++ b) = a ++ b.
Proof.
  intros Ha Hne. destruct a as [|c a]; [contradiction|].
  simpl. now rewrite (lstrip_head _ _ _ Ha).
Qed.

(** Two trimmed, non-empty texts stay trimmed around any separator. *)
Lemma trimmed_app (a m b : string) :
  trimmed a -> a <> "" -> trimmed b -> b <> "" -> trimmed (a ++ m ++ b).
Proof.
  intros [La _] Ha [_ Rb] Hb. split.
  - now apply lstrip_app.
  - rewrite (rstrip_app a (m ++ b)); [reflexivity | | ].
    + now apply rstrip_app.
    + intro E. apply app_empty in E. contradiction.
Qed.

Lemma app_nonempty (a b : string) : a <> "" -> a ++ b <> "".
Proof. destruct a; [contradiction | discriminate]. Qed.

Lemma spaceless_rstrip (s : string) : spaceless s = true -> Py.rstrip s = s.
Proof.
  induction s as [|c s IH]; [reflexivity|].
  simpl. intro H. apply andb_true_iff in H as [Hc Hs].
  rewrite (IH Hs). apply negb_true_iff in Hc. rewrite Hc.
  now destruct s.
Qed.

Lemma token_trimmed (w : string) : token w -> trimmed w.
Proof.
  intros [Hne Hs]. split; [|now apply spaceless_rstrip].
  destruct w as [|c w]; [contradiction|].
  simpl in Hs. apply andb_true_iff in Hs as [Hc _].
  apply negb_true_iff in Hc. now apply lstrip_fixed.
Qed.

(** Joining tokens with single spaces gives a trimmed text, empty only
    for no token at all. *)
Lemma join_tokens (ws : list string) :
  Forall token ws -> ws <> [] ->
  trimmed (Py.join " " ws) /\ Py.join " " ws <> "".
Proof.
  induction ws as [|w tl IH]; intros HF Hne; [contradiction|].
  inversion HF as [|? ? Hw Htl]; subst.
  destruct tl as [|w' tl'].
  - simpl. split; [now apply token_trimmed | exact (proj1 Hw)].
  - destruct IH as [IHt IHn]; [exact Htl | discriminate |].
    change (Py.join " " (w :: w' :: tl'))
      with (w ++ " " ++ Py.join " " (w' :: tl')).
    split.
    + apply trimmed_app; auto using token_trimmed. exact (proj1 Hw).
    + apply app_nonempty. exact (proj1 Hw).
Qed.

(** Every word [split] returns is a token. *)
Lemma split_tokens (s : string) : Forall token (Py.split s).
Proof.
  induction s as [|c s IH]; [constructor|].
  simpl. destruct (Py.is_space c) eqn:Ec; [exact IH|].
  assert (T1 : token (String c "")).
  { split; [discriminate|]. simpl. now rewrite Ec. }
  destruct s as [|c' s']; [now constructor|].
  destruct (Py.is_space c') eqn:Ec'; [now constructor|].
  destruct (Py.split (String c' s')) as [|w ws] eqn:E; [now constructor|].
  inversion IH as [|? ? [Hw1 Hw2] Hws]; subst.
  constructor; [|exact Hws].
  split; [discriminate|]. simpl. now rewrite Ec, Hw2.
Qed.

(** The texts [_extract_asr_segments] returns are trimmed. *)
Lemma extract_trimmed (asr_result : AsrResult) (seg : AsrSeg) :
  In seg (_extract_asr_segments asr_result) -> trimmed (a_text seg).
Proof.
  unfold _extract_asr_segments.
  assert (G : forall l, In seg (flat_map normalise_one l) -> trimmed (a_text seg)).
  { intros l H. apply in_flat_map in H as (r & _ & H).
    unfold normalise_one in H.
    destruct (raw_start r), (raw_end r); simpl in H; try contradiction.
    destruct H as [<- | []]. apply trimmed_strip. }
  destruct asr_result as [[l|] [m|] | l | ]; simpl;
    solve [apply G | contradiction].
Qed.

(** With a text that has words, [segment_words] is the inner loop run
    from index 0. *)
Lemma segment_words_eq (seg : AsrSeg) :
  Py.split (a_text seg) <> [] ->
  segment_words seg =
    let n := List.length (Py.split (a_text seg)) in
    slice_words (a_start seg) (a_end seg)
      (Py.max (a_end seg - a_start seg) EPS / of_nat n) n 0
      (Py.split (a_text seg)).
Proof.
  intro H. unfold segment_words.
  destruct (a_text seg) as [|c t] eqn:E; [now elim H|].
  simpl Py.is_empty. cbv iota.
  destruct (Py.split (String c t)) eqn:E2; [now elim H | reflexivity].
Qed.

Lemma trimmed_has_words (t : string) :
  trimmed t -> t <> "" -> Py.split t <> [].
Proof.
  intros Ht Hne. destruct t as [|c t]; [contradiction|].
  apply split_head. exact (trimmed_head _ _ Ht).
Qed.

Lemma slot_proper st en wd n k w :
  0 <= wd -> of_nat (n - 1) * wd <= en - st -> (k < n)%nat ->
  let a := slot st en wd n k w in
  w_start a <= w_end a /\ st <= w_start a /\ w_end a <= en.
Proof.
  intros Hw Hfit Hk. simpl.
  assert (Hk0 : 0 <= of_nat k * wd).
  { apply Qmult_le_0_compat; [apply of_nat_nonneg | exact Hw]. }
  assert (Hkn : of_nat k * wd <= of_nat (n - 1) * wd).
  { apply Qmult_le_compat_r; [apply of_nat_le; lia | exact Hw]. }
  destruct (k =? n - 1)%nat eqn:E.
  - repeat split; lra.
  - apply Nat.eqb_neq in E.
    assert (Hk1 : of_nat (k + 1) * wd <= of_nat (n - 1) * wd).
    { apply Qmult_le_compat_r; [apply of_nat_le; lia | exact Hw]. }
    assert (E1 : of_nat (k + 1) * wd == of_nat k * wd + wd).
    { rewrite Nat.add_1_r, of_nat_S. ring. }
    rewrite E1 in *. repeat split; lra.
Qed.

Lemma slice_nonneg (seg : AsrSeg) (n : nat) :
  (0 < n)%nat -> 0 <= Py.max (a_end seg - a_start seg) EPS / of_nat n.
Proof.
  intro Hn. apply share_nonneg; [|exact Hn].
  eapply Qle_trans; [|apply max_ge_r]. discriminate.
Qed.

(** A segment of at least [EPS] holds its slices. *)
Lemma long_segment_fits (seg : AsrSeg) :
  a_start seg + EPS <= a_end seg -> slices_fit seg.
Proof.
  intro H. unfold slices_fit.
  set (n := List.length (Py.split (a_text seg))).
  rewrite max_left by lra.
  destruct n as [|n].
  - change (of_nat (0 - 1)) with 0. rewrite Qmult_0_l. unfold EPS in H. lra.
  - apply share_le; [unfold EPS in H; lra | lia | lia].
Qed.

(** The layout of the word intervals of one segment. The number of
    intervals, the first start, the last end and the contiguity hold
    for every segment; the intervals are proper and stay inside the
    segment exactly when the slices before the last one fit. *)
Lemma segment_words_layout (seg : AsrSeg) :
  Py.split (a_text seg) <> [] ->
  let n := List.length (Py.split (a_text seg)) in
  let ws := segment_words seg in
  List.length ws = n
  /\ (exists a, hd_error ws = Some a /\ w_start a == a_start seg)
  /\ (exists a, nth_error ws (n - 1) = Some a /\ w_end a == a_end seg)
  /\ chained ws
  /\ (slices_fit seg <->
      forall a, In a ws ->
        w_start a <= w_end a /\ a_start seg <= w_start a /\ w_end a <= a_end seg).
Proof.
  intros Hw n ws. subst ws. unfold slices_fit.
  rewrite (segment_words_eq seg Hw). cbv zeta.
  fold n. set (wd := Py.max (a_end seg - a_start seg) EPS / of_nat n).
  assert (Hn : (0 < n)%nat).
  { subst n. destruct (Py.split (a_text seg)); [now elim Hw | simpl; lia]. }
  assert (Hlast : exists w,
             nth_error (slice_words (a_start seg) (a_end seg) wd n 0
                          (Py.split (a_text seg))) (n - 1)
             = Some (slot (a_start seg) (a_end seg) wd n (n - 1) w)).
  { destruct (nth_error (Py.split (a_text seg)) (n - 1)) as [w|] eqn:E.
    - exists w. now apply slice_words_nth.
    - apply nth_error_None in E. fold n in E. lia. }
  split; [apply slice_words_length|].
  split.
  { destruct (Py.split (a_text seg)) as [|w0 rest] eqn:E; [now elim Hw|].
    eexists. split; [reflexivity|]. simpl. unfold of_nat. simpl. ring. }
  split.
  { destruct Hlast as [w Hl]. eexists. split; [exact Hl|].
    simpl. now rewrite Nat.eqb_refl. }
  split; [now apply slice_words_chained|].
  split.
  - intros Hfit a Ha.
    apply slice_words_In in Ha as (k & w & Hk & ->). fold n in Hk.
    apply slot_proper; [now apply slice_nonneg | exact Hfit | lia].
  - intro Hall. destruct Hlast as [w Hl].
    apply nth_error_In in Hl. destruct (Hall _ Hl) as [Hp _].
    simpl in Hp. rewrite Nat.eqb_refl in Hp. lra.
Qed.

(** C1 (as amended). For every normalised recognition segment whose
    text is not empty, the word intervals emitted for it are exactly
    [N] intervals, [N >= 1] the number of white-space separated words of
    the text; the first starts at the segment's start, the last ends
    at the segment's end, and every interval ends where the next one
    starts.  The intervals are moreover proper ([start <= end]) and
    inside [[segment.start, segment.end]], so that they tile the
    segment, exactly when the [N - 1] slices before the last one fit
    into the segment; they do when the segment is at least [1e-6]
    long. *)
Theorem word_intervals_tile_segment (seg : AsrSeg) :
  trimmed (a_text seg) -> a_text seg <> "" ->
  let n := List.length (Py.split (a_text seg)) in
  let ws := segment_words seg in
  (1 <= n)%nat
  /\ List.length ws = n
  /\ (exists a, hd_error ws = Some a /\ w_start a == a_start seg)
  /\ (exists a, nth_error ws (n - 1) = Some a /\ w_end a == a_end seg)
  /\ chained ws
  /\ (tiles (a_start seg) (a_end seg) n ws <-> slices_fit seg)
  /\ (a_start seg + EPS <= a_end seg ->
      tiles (a_start seg) (a_end seg) n ws).
Proof.
  intros Ht Hne n ws.
  pose proof (trimmed_has_words _ Ht Hne) as Hw.
  destruct (segment_words_layout seg Hw) as (Hc & Hf & Hl & Hch & Hin).
  assert (T : slices_fit seg -> tiles (a_start seg) (a_end seg) n ws).
  { intro Hfit. pose proof (proj1 Hin Hfit) as Hall.
    constructor; try assumption; intros a Ha;
      now destruct (Hall a Ha) as (? & ? & ?). }
  split.
  { subst n. destruct (Py.split (a_text seg)); [now elim Hw | simpl; lia]. }
  repeat (split; [assumption|]).
  split; [split; [|exact T]|].
  - intros [_ _ _ _ Hp Hwi]. apply Hin. intros a Ha.
    destruct (Hwi a Ha). split; [now apply Hp | now split].
  - intro Hspan. apply T. now apply long_segment_fits.
Qed.

Lemma word_intervals_tile_segment_witness :
  tiles 0 (3 # 2) 2 (segment_words (mkAsrSeg 0 (3 # 2) "hello world" (-1) 0)).
Proof.
  destruct (word_intervals_tile_segment (mkAsrSeg 0 (3 # 2) "hello world" (-1) 0))
    as (_ & _ & _ & _ & _ & _ & T).
  - split; reflexivity.
  - discriminate.
  - apply T. vm_compute. discriminate.
Defined.

(** C1 as stated fails on a segment shorter than [1e-6]: for the
    zero-length segment with text ["a b"] the code lays out two slices
    of [5e-7] each, so the first interval ends after the segment's end
    and the second one starts after its own end. *)
Lemma word_intervals_short_segment_counterexample :
  let seg := mkAsrSeg 0 0 "a b" (-1) 0 in
  trimmed (a_text seg) /\ a_text seg <> "" /\ a_start seg <= a_end seg
  /\ segment_words seg
     = [mkWordSeg (0 # 2000000) (1 # 2000000) "a"; mkWordSeg (1 # 2000000) 0 "b"]
  /\ ~ tiles (a_start seg) (a_end seg)
         (List.length (Py.split (a_text seg))) (segment_words seg).
Proof.
  cbv zeta.
  assert (E : segment_words (mkAsrSeg 0 0 "a b" (-1) 0)
              = [mkWordSeg (0 # 2000000) (1 # 2000000) "a";
                 mkWordSeg (1 # 2000000) 0 "b"]) by (vm_compute; reflexivity).
  split; [split; reflexivity|].
  split; [discriminate|].
  split; [apply Qle_refl|].
  split; [exact E|].
  intro T. pose proof (tiles_within _ _ _ _ T) as W. rewrite E in W.
  destruct (W _ (or_introl eq_refl)) as [_ W1].
  vm_compute in W1. now apply W1.
Qed.

(* ------------------------------------------------------------------ *)
(** *** What a tiling gives *)

Lemma chained_tail (a : WordSeg) (l : list WordSeg) :
  chained (a :: l) -> chained l.
Proof. destruct l; [trivial | now intros [_ H]]. Qed.

Lemma chained_after (l : list WordSeg) :
  forall a,
    chained (a :: l) ->
    (forall x, In x l -> w_start x <= w_end x) ->
    forall b, In b l -> w_end a <= w_start b.
Proof.
  induction l as [|b0 l IH]; intros a Hc Hp b Hb; [contradiction|].
  destruct Hc as [E Hc]. destruct Hb as [<- | Hb].
  - rewrite E. apply Qle_refl.
  - rewrite E. eapply Qle_trans; [apply Hp; now left|].
    apply (IH b0); [exact Hc | | exact Hb].
    intros x Hx. apply Hp. now right.
Qed.

(** The intervals of a tiling do not overlap: an earlier one ends
    before a later one starts. *)
Lemma tiles_disjoint (s e : Q) (n : nat) (ws : list WordSeg) :
  tiles s e n ws ->
  forall i j a b, (i < j)%nat ->
    nth_error ws i = Some a -> nth_error ws j = Some b ->
    w_end a <= w_start b.
Proof.
  intros T. pose proof (tiles_chain _ _ _ _ T) as Hc.
  pose proof (tiles_proper _ _ _ _ T) as Hp. clear T.
  induction ws as [|x l IH]; intros i j a b Hij Ha Hb.
  - destruct i; discriminate.
  - destruct j as [|j]; [lia|]. simpl in Hb.
    destruct i as [|i]; simpl in Ha.
    + injection Ha as <-.
      apply (chained_after l x Hc); [|eapply nth_error_In; eassumption].
      intros y Hy. apply Hp. now right.
    + apply (IH (chained_tail _ _ Hc)) with (i := i) (j := j); auto; [|lia].
      intros y Hy. apply Hp. now right.
Qed.

Lemma chained_cover (l : list WordSeg) :
  forall a s e last_,
    chained (a :: l) -> w_start a == s ->
    nth_error (a :: l) (List.length l) = Some last_ -> w_end last_ == e ->
    forall t, s <= t <= e -> exists x, In x (a :: l) /\ w_start x <= t <= w_end x.
Proof.
  induction l as [|b l IH]; intros a s e last_ Hc Hs Hl He t [Ht1 Ht2].
  - simpl in Hl. injection Hl as <-. exists a. split; [now left|].
    rewrite Hs, He. now split.
  - destruct (Qlt_le_dec (w_end a) t) as [L | L].
    + destruct Hc as [E Hc].
      destruct (IH b (w_end a) e last_ Hc) with (t := t) as (x & Hx & Hin); auto.
      * now symmetry.
      * split; [now apply Qlt_le_weak | exact Ht2].
      * exists x. split; [now right | exact Hin].
    + exists a. split; [now left|]. rewrite Hs. now split.
Qed.

(** The intervals of a tiling leave no gap: every instant of the
    segment lies in one of them. *)
Lemma tiles_cover (s e : Q) (n : nat) (ws : list WordSeg) :
  tiles s e n ws ->
  forall t, s <= t <= e -> exists x, In x ws /\ w_start x <= t <= w_end x.
Proof.
  intros [Hn (a & Ha & Hs) (z & Hz & He) Hc _ _] t Ht.
  destruct ws as [|a' l]; [discriminate|].
  injection Ha as ->. subst n. simpl in Hz. rewrite Nat.sub_0_r in Hz.
  exact (chained_cover l a s e z Hc Hs Hz He t Ht).
Qed.

(* ================================================================== *)
(** ** Sorting *)
(* ================================================================== *)

Section SortedFacts.
Context {A : Type}.
Variable key : A -> Q.

Lemma ascending_cons (a b : A) (tl : list A) :
  ascending key (a :: b :: tl) <-> key a <= key b /\ ascending key (b :: tl).
Proof. reflexivity. Qed.

Lemma ascending_tail (a : A) (l : list A) :
  ascending key (a :: l) -> ascending key l.
Proof. destruct l; [trivial | now intros [_ H]]. Qed.

Lemma insert_cases (x : A) (l : list A) :
  exists h t, Py.insert key x l = h :: t
              /\ (h = x \/ exists t', l = h :: t').
Proof.
  destruct l as [|y tl]; simpl.
  - exists x, []. auto.
  - destruct (Qle_bool (key x) (key y)).
    + exists x, (y :: tl). auto.
    + exists y, (Py.insert key x tl). split; [reflexivity|]. right. now exists tl.
Qed.

Lemma insert_ascending (x : A) (l : list A) :
  ascending key l -> ascending key (Py.insert key x l).
Proof.
  induction l as [|y tl IH]; intro H; [exact I|].
  simpl. destruct (Qle_bool (key x) (key y)) eqn:E.
  - apply ascending_cons. split; [now apply Qle_bool_iff | exact H].
  - apply Qle_bool_false in E.
    specialize (IH (ascending_tail _ _ H)).
    destruct (insert_cases x tl) as (h & t & Ei & Hh).
    rewrite Ei in *. apply ascending_cons. split; [|exact IH].
    destruct Hh as [-> | [t' ->]].
    + now apply Qlt_le_weak.
    + now destruct H.
Qed.

Lemma sorted_ascending (l : list A) : ascending key (Py.sorted key l).
Proof.
  induction l as [|x tl IH]; [exact I|]. simpl. now apply insert_ascending.
Qed.

(** A stable sort leaves an ordered list as it is. *)
Lemma sorted_fixed (l : list A) : ascending key l -> Py.sorted key l = l.
Proof.
  induction l as [|x tl IH]; intro H; [reflexivity|].
  simpl. rewrite (IH (ascending_tail _ _ H)).
  destruct tl as [|y tl]; [reflexivity|].
  simpl. destruct H as [H _]. apply Qle_bool_iff in H. now rewrite H.
Qed.

Lemma insert_In (x y : A) (l : list A) :
  In y (Py.insert key x l) <-> y = x \/ In y l.
Proof.
  induction l as [|z tl IH]; simpl.
  - intuition.
  - destruct (Qle_bool (key x) (key z)); simpl; [intuition|].
    rewrite IH. intuition.
Qed.

Lemma sorted_In (y : A) (l : list A) : In y (Py.sorted key l) <-> In y l.
Proof.
  induction l as [|x tl IH]; simpl; [reflexivity|].
  rewrite insert_In, IH. intuition.
Qed.

Lemma sorted_idem (l : list A) :
  Py.sorted key (Py.sorted key l) = Py.sorted key l.
Proof. apply sorted_fixed, sorted_ascending. Qed.

End SortedFacts.

Lemma sorted_length {A : Type} (key : A -> Q) (l : list A) :
  List.length (Py.sorted key l) = List.length l.
Proof.
  induction l as [|x tl IH]; [reflexivity|]. simpl. rewrite <- IH.
  generalize (Py.sorted key tl). intro s.
  induction s as [|y s IHs]; [reflexivity|].
  simpl. destruct (Qle_bool (key x) (key y)); simpl; [reflexivity|].
  now rewrite IHs.
Qed.

(* ================================================================== *)
(** ** Merging blocks *)
(* ================================================================== *)

Lemma mergeable_spec (g : Q) (a b : Block) :
  mergeable g a b = true <-> b_speaker b = b_speaker a /\ 0 <= gap a b <= g.
Proof.
  unfold mergeable, gap.
  rewrite !andb_true_iff, String.eqb_eq, !Qle_bool_iff. tauto.
Qed.

Lemma mergeable_false (g : Q) (a b : Block) :
  mergeable g a b = false <-> ~ (b_speaker b = b_speaker a /\ 0 <= gap a b <= g).
Proof.
  rewrite <- mergeable_spec. destruct (mergeable g a b); intuition congruence.
Qed.

(** The loop over [segs[1:]] and the recursion agree. *)
Lemma fold_merge_from (g : Q) (rest : list Block) :
  forall kept last,
    (let (k, l) := fold_left (merge_step g) rest (kept, last) in (k ++ [l])%list)
    = (kept ++ merge_from g last rest)%list.
Proof.
  induction rest as [|seg rest IH]; intros kept last; [reflexivity|].
  simpl. destruct (mergeable g last seg).
  - apply IH.
  - rewrite IH. now rewrite <- app_assoc.
Qed.

Lemma merge_blocks_eq (segments : list Block) (g : Q) :
  _merge_blocks segments g =
    match Py.sorted b_start segments with
    | [] => []
    | s0 :: rest => merge_from g s0 rest
    end.
Proof.
  unfold _merge_blocks. destruct (Py.sorted b_start segments) as [|s0 rest];
    [reflexivity|].
  exact (fold_merge_from g rest [] s0).
Qed.

(** The first block kept starts where [last] starts and has its
    speaker. *)
Lemma merge_from_head (g : Q) (rest : list Block) :
  forall last, exists h t,
    merge_from g last rest = h :: t
    /\ b_start h = b_start last /\ b_speaker h = b_speaker last.
Proof.
  induction rest as [|seg rest IH]; intro last; simpl.
  - eauto.
  - destruct (mergeable g last seg).
    + destruct (IH (absorb last seg)) as (h & t & E & Hs & Hp). eauto.
    + eauto.
Qed.

Lemma merge_from_ascending (g : Q) (rest : list Block) :
  forall last,
    ascending b_start (last :: rest) ->
    ascending b_start (merge_from g last rest).
Proof.
  induction rest as [|seg rest IH]; intros last H; [exact I|].
  destruct H as [Hle H]. simpl. destruct (mergeable g last seg).
  - apply IH. destruct rest as [|s2 rest]; [exact I|].
    destruct H as [Hle2 H]. split; [|exact H].
    simpl. eapply Qle_trans; eassumption.
  - specialize (IH seg H).
    destruct (merge_from_head g rest seg) as (h & t & E & Hs & _).
    rewrite E in *. split; [now rewrite Hs | exact IH].
Qed.

Lemma merge_from_settled (g : Q) (rest : list Block) :
  forall last, settled g (merge_from g last rest).
Proof.
  induction rest as [|seg rest IH]; intro last; [exact I|].
  simpl. destruct (mergeable g last seg) eqn:E; [apply IH|].
  specialize (IH seg).
  destruct (merge_from_head g rest seg) as (h & t & Eh & Hs & Hp).
  rewrite Eh in *. split; [|exact IH].
  apply mergeable_false in E. unfold gap in *. now rewrite Hs, Hp.
Qed.

(** On blocks already ordered and settled the loop changes nothing. *)
Lemma merge_from_fixed (g : Q) (rest : list Block) :
  forall last, settled g (last :: rest) -> merge_from g last rest = last :: rest.
Proof.
  induction rest as [|seg rest IH]; intros last H; [reflexivity|].
  destruct H as [Hn H]. simpl.
  apply mergeable_false in Hn. rewrite Hn. now rewrite IH.
Qed.

Lemma groups_from_spec (g : Q) (rest : list Block) :
  forall last grp,
    fuse grp = Some last ->
    (forall x, In x grp -> b_speaker x = b_speaker last) ->
    List.concat (groups_from g last grp rest) = (grp ++ rest)%list
    /\ Forall2 (fun m gr => fuse gr = Some m
                            /\ forall x, In x gr -> b_speaker x = b_speaker m)
         (merge_from g last rest) (groups_from g last grp rest).
Proof.
  induction rest as [|seg rest IH]; intros last grp Hf Hs; simpl.
  - split; [now rewrite app_nil_r | now repeat constructor].
  - destruct (mergeable g last seg) eqn:E.
    + apply mergeable_spec in E as [Esp _].
      destruct (IH (absorb last seg) (grp ++ [seg])%list) as [Hc HF].
      * destruct grp as [|x tl]; [discriminate|].
        simpl in *. rewrite fold_left_app. simpl. now injection Hf as ->.
      * intros x Hx. apply in_app_or in Hx as [Hx | [<- | []]]; simpl; auto.
      * split; [|exact HF]. now rewrite Hc, <- app_assoc.
    + destruct (IH seg [seg]) as [Hc HF]; [reflexivity | |].
      * now intros x [<- | []].
      * split; [simpl; now rewrite Hc | constructor; auto].
Qed.

(** C4. [_merge_blocks] never merges blocks of different speakers. The
    blocks that went into each returned block are recorded by
    [contributions]: each returned block is the fusion of its group,
    the groups laid end to end are the sorted input (every input block
    goes into exactly one returned block), and all blocks of a group
    carry the speaker of the block they were merged into, whatever
    the gaps between them and whatever [max_gap]. *)
Theorem merge_never_mixes_speakers (segments : list Block) (max_gap : Q) :
  List.concat (contributions segments max_gap) = Py.sorted b_start segments
  /\ Forall2 (fun m gr => fuse gr = Some m
                          /\ forall x, In x gr -> b_speaker x = b_speaker m)
       (_merge_blocks segments max_gap) (contributions segments max_gap).
Proof.
  rewrite merge_blocks_eq. unfold contributions.
  destruct (Py.sorted b_start segments) as [|s0 rest]; [split; constructor|].
  apply (groups_from_spec max_gap rest s0 [s0]); [reflexivity|].
  now intros x [<- | []].
Qed.

Lemma merge_blocks_ascending (segments : list Block) (max_gap : Q) :
  ascending b_start (_merge_blocks segments max_gap).
Proof.
  rewrite merge_blocks_eq.
  pose proof (sorted_ascending b_start segments) as H.
  destruct (Py.sorted b_start segments) as [|s0 rest]; [exact I|].
  now apply merge_from_ascending.
Qed.

Lemma merge_blocks_settled (segments : list Block) (max_gap : Q) :
  settled max_gap (_merge_blocks segments max_gap).
Proof.
  rewrite merge_blocks_eq.
  destruct (Py.sorted b_start segments) as [|s0 rest]; [exact I|].
  apply merge_from_settled.
Qed.

Lemma merge_blocks_fixed (l : list Block) (max_gap : Q) :
  ascending b_start l -> settled max_gap l -> _merge_blocks l max_gap = l.
Proof.
  intros Ha Hs. rewrite merge_blocks_eq, (sorted_fixed _ _ Ha).
  destruct l as [|s0 rest]; [reflexivity | now apply merge_from_fixed].
Qed.

(** C6 (as amended). Every sequence [_merge_blocks] returns is ordered
    by start, two neighbours possibly starting at the same time, and
    has no two neighbours with the same speaker and a gap within
    [[0, max_gap]] ([max_gap] is 0.75 by default). *)
Theorem merged_blocks_ordered_settled (segments : list Block) (max_gap : Q) :
  ascending b_start (_merge_blocks segments max_gap)
  /\ settled max_gap (_merge_blocks segments max_gap).
Proof.
  split.
  - (* the kept blocks start in the order of the sorted input *)
    apply merge_blocks_ascending.
  - (* a block is kept apart only when the test of the loop fails *)
    apply merge_blocks_settled.
Qed.

(** C6 as stated fails twice. Two blocks of different speakers that
    start together are both kept, so the result is not strictly
    ordered by start; and a block that starts before the end of the
    previous block of the same speaker has a negative gap, which the
    test [0 <= gap] keeps from merging although the gap is below
    0.75. *)
Lemma merged_blocks_counterexample :
  ~ strictly_ascending b_start
      (_merge_blocks [mkBlock 0 2 "SPEAKER_00" "hi"; mkBlock 0 2 "SPEAKER_01" "yes"]
         MAX_GAP)
  /\ ~ no_close_pair MAX_GAP
         (_merge_blocks [mkBlock 0 5 "SPEAKER_00" "hello bye";
                         mkBlock 3 4 "SPEAKER_00" "bye"] MAX_GAP).
Proof.
  split.
  - vm_compute. intros [H _]. discriminate H.
  - assert (E : _merge_blocks [mkBlock 0 5 "SPEAKER_00" "hello bye";
                               mkBlock 3 4 "SPEAKER_00" "bye"] MAX_GAP
                = [mkBlock 0 5 "SPEAKER_00" "hello bye";
                   mkBlock 3 4 "SPEAKER_00" "bye"]) by (vm_compute; reflexivity).
    rewrite E. intros [H _]. apply H. split; [reflexivity|].
    vm_compute. discriminate.
Qed.

(** C7 (as amended). [_merge_blocks] returns unchanged every sequence
    that is ordered by start and has no two neighbours with the same
    speaker and a gap within [[0, max_gap]]; and running it twice on
    any input gives what running it once gives. *)
Theorem merge_blocks_idempotent (segments : list Block) (max_gap : Q) :
  (ascending b_start segments -> settled max_gap segments ->
   _merge_blocks segments max_gap = segments)
  /\ _merge_blocks (_merge_blocks segments max_gap) max_gap
     = _merge_blocks segments max_gap.
Proof.
  split; [apply merge_blocks_fixed|].
  apply merge_blocks_fixed;
    [apply merge_blocks_ascending | apply merge_blocks_settled].
Qed.

Lemma merge_blocks_idempotent_witness :
  _merge_blocks [mkBlock 0 (3 # 2) "SPEAKER_00" "hello world";
                 mkBlock (8 # 5) (7 # 2) "SPEAKER_01" "how are you"] MAX_GAP
  = [mkBlock 0 (3 # 2) "SPEAKER_00" "hello world";
     mkBlock (8 # 5) (7 # 2) "SPEAKER_01" "how are you"].
Proof.
  apply (proj1 (merge_blocks_idempotent _ MAX_GAP)).
  - simpl. split; [vm_compute; discriminate | exact I].
  - simpl. split; [|exact I]. intros [H _]. discriminate H.
Defined.

(** C7 as stated fails on a sequence that is not ordered by start: it
    has no two neighbours that could merge, and [_merge_blocks]
    returns it in another order. *)
Lemma merge_blocks_unordered_counterexample :
  let l := [mkBlock 5 6 "SPEAKER_01" "fine"; mkBlock 0 1 "SPEAKER_00" "hello"] in
  settled MAX_GAP l
  /\ _merge_blocks l MAX_GAP
     = [mkBlock 0 1 "SPEAKER_00" "hello"; mkBlock 5 6 "SPEAKER_01" "fine"]
  /\ _merge_blocks l MAX_GAP <> l.
Proof.
  cbv zeta. split; [|split].
  - simpl. split; [|exact I]. intros [H _]. discriminate H.
  - vm_compute. reflexivity.
  - vm_compute. discriminate.
Qed.

(** *** Neighbours that merge, anywhere in the input *)

(** After the loop has read [a], whatever the state before. *)
Lemma groups_from_step (g : Q) (last : Block) (grp : list Block) (a : Block)
  (rest : list Block) :
  exists closed last' grp',
    groups_from g last grp (a :: rest)
    = (closed ++ groups_from g last' grp' rest)%list
    /\ read_last last' grp' a.
Proof.
  simpl. destruct (mergeable g last a) eqn:E.
  - exists [], (absorb last a), (grp ++ [a])%list.
    split; [reflexivity|]. apply mergeable_spec in E as [Es _].
    split; [now exists grp | split; [reflexivity | now symmetry]].
  - exists [grp], a, [a].
    split; [reflexivity|]. split; [now exists [] | split; reflexivity].
Qed.

Lemma groups_from_reach (g : Q) (pre : list Block) :
  forall last0 grp0 a rest,
  exists closed last grp,
    groups_from g last0 grp0 (pre ++ a :: rest)
    = (closed ++ groups_from g last grp rest)%list
    /\ read_last last grp a.
Proof.
  induction pre as [|x pre IH]; intros last0 grp0 a rest.
  - apply groups_from_step.
  - destruct (groups_from_step g last0 grp0 x (pre ++ a :: rest))
      as (c1 & l1 & g1 & E1 & _).
    destruct (IH l1 g1 a rest) as (c2 & l2 & g2 & E2 & R).
    exists (c1 ++ c2)%list, l2, g2. split; [|exact R].
    change ((x :: pre) ++ a :: rest)%list with (x :: (pre ++ a :: rest))%list.
    now rewrite E1, E2, app_assoc.
Qed.

(** The current group comes out, possibly longer. *)
Lemma groups_from_current (g : Q) (rest : list Block) :
  forall last grp,
  exists tail, In (grp ++ tail)%list (groups_from g last grp rest).
Proof.
  induction rest as [|seg rest IH]; intros last grp; simpl.
  - exists []. left. symmetry. apply app_nil_r.
  - destruct (mergeable g last seg).
    + destruct (IH (absorb last seg) (grp ++ [seg])%list) as [tail H].
      exists (seg :: tail). now rewrite <- app_assoc in H.
    + exists []. left. symmetry. apply app_nil_r.
Qed.

(** Two neighbours of the sorted input with one speaker and no gap
    between them go into the same returned block. *)
Lemma neighbours_share_group (segments pre post : list Block) (a b : Block) :
  b_speaker a = b_speaker b -> gap a b == 0 ->
  Py.sorted b_start segments = (pre ++ a :: b :: post)%list ->
  exists x y, In (x ++ a :: b :: y)%list (contributions segments MAX_GAP).
Proof.
  intros Hsp Hgap Hs. unfold contributions. rewrite Hs.
  assert (G : exists closed last grp,
             match (pre ++ a :: b :: post)%list with
             | [] => []
             | s0 :: rest => groups_from MAX_GAP s0 [s0] rest
             end = (closed ++ groups_from MAX_GAP last grp (b :: post))%list
             /\ read_last last grp a).
  { destruct pre as [|s0 pre]; simpl.
    - exists [], a, [a]. split; [reflexivity|].
      split; [now exists [] | split; reflexivity].
    - apply groups_from_reach. }
  destruct G as (closed & last & grp & -> & (x & ->) & He & Hp).
  assert (M : mergeable MAX_GAP last b = true).
  { apply mergeable_spec. unfold gap in *. rewrite He, Hp.
    split; [now symmetry | unfold MAX_GAP; lra]. }
  simpl. rewrite M.
  destruct (groups_from_current MAX_GAP post (absorb last b)
              ((x ++ [a]) ++ [b])%list) as [tail H].
  exists x, tail. apply in_or_app. right.
  replace (x ++ a :: b :: tail)%list with (((x ++ [a]) ++ [b]) ++ tail)%list
    by (now rewrite <- !app_assoc).
  exact H.
Qed.

(* ================================================================== *)
(** ** Mapping words to speakers *)
(* ================================================================== *)

Lemma overlaps_spec (d : Diar) (w : WordSeg) :
  overlaps d w = true <-> ~ (w_end w <= d_start d \/ d_end d <= w_start w).
Proof.
  unfold overlaps. rewrite negb_true_iff, orb_false_iff.
  split.
  - intros [H1 H2] [H | H]; apply Qle_bool_iff in H; congruence.
  - intro H. split.
    + destruct (Qle_bool (w_end w) (d_start d)) eqn:E; [|reflexivity].
      apply Qle_bool_iff in E. tauto.
    + destruct (Qle_bool (d_end d) (w_start w)) eqn:E; [|reflexivity].
      apply Qle_bool_iff in E. tauto.
Qed.

(** Sorting the words does not change whether one of them overlaps. *)
Lemma filter_sorted_nil (d : Diar) (ws : list WordSeg) :
  filter (overlaps d) (Py.sorted w_start ws) = [] <->
  existsb (overlaps d) ws = false.
Proof.
  split; intro H.
  - destruct (existsb (overlaps d) ws) eqn:E; [|reflexivity].
    apply existsb_exists in E as (w & Hw & Ho).
    assert (Hin : In w (filter (overlaps d) (Py.sorted w_start ws))).
    { apply filter_In. split; [now apply sorted_In | exact Ho]. }
    rewrite H in Hin. destruct Hin.
  - destruct (filter (overlaps d) (Py.sorted w_start ws)) as [|w l] eqn:E;
      [reflexivity|].
    assert (Hin : In w (filter (overlaps d) (Py.sorted w_start ws)))
      by (rewrite E; now left).
    apply filter_In in Hin as [Hin Ho]. apply sorted_In in Hin.
    assert (existsb (overlaps d) ws = true)
      by (apply existsb_exists; eauto).
    congruence.
Qed.

Lemma selected_tokens (d : Diar) (ws : list WordSeg) :
  Forall (fun w => token (word w)) ws ->
  Forall token (map word (filter (overlaps d) (Py.sorted w_start ws))).
Proof.
  intro H. apply Forall_forall. intros s Hs.
  apply in_map_iff in Hs as (w & <- & Hw).
  apply filter_In in Hw as [Hw _]. apply sorted_In in Hw.
  rewrite Forall_forall in H. now apply H.
Qed.

(** What the loop body emits for one interval, the words being
    tokens. *)
Lemma map_one_spec (ws : list WordSeg) (d : Diar) :
  Forall (fun w => token (word w)) ws ->
  map_one (Py.sorted w_start ws) d =
    if existsb (overlaps d) ws
    then [ mkBlock (Py.round3 (d_start d)) (Py.round3 (d_end d)) (d_speaker d)
             (Py.join " "
                (map word (filter (overlaps d) (Py.sorted w_start ws)))) ]
    else [].
Proof.
  intro HT. unfold map_one.
  pose proof (filter_sorted_nil d ws) as Hnil.
  pose proof (selected_tokens d ws HT) as Htok.
  destruct (filter (overlaps d) (Py.sorted w_start ws)) as [|w l] eqn:E.
  - destruct Hnil as [Hnil _]. now rewrite (Hnil eq_refl).
  - destruct (existsb (overlaps d) ws) eqn:Ex.
    + destruct (join_tokens _ Htok) as [Ht _]; [discriminate|].
      now rewrite (strip_trimmed _ Ht).
    + destruct Hnil as [_ Hnil]. discriminate (Hnil eq_refl).
Qed.

Lemma mapper_eq_spec (ws : list WordSeg) (ds : list Diar) :
  Forall (fun w => token (word w)) ws ->
  _align_words_to_diarization ws ds = mapper_spec ws ds.
Proof.
  intro HT. unfold _align_words_to_diarization, mapper_spec.
  destruct ws as [|w0 ws'].
  - induction (Py.sorted d_start ds) as [|d l IH]; [reflexivity|].
    simpl. exact IH.
  - destruct ds as [|d0 ds']; [reflexivity|].
    apply flat_map_ext. intro d. now apply map_one_spec.
Qed.

(** C2. With word intervals whose words are tokens (as the word
    estimator yields them), [_align_words_to_diarization] does what
    the specification says: going through the diarization intervals
    in order of start, it emits a block for an interval exactly when
    some word interval [w] overlaps it, that is when not
    ([w.end <= d.start] or [w.start >= d.end]); the block carries the
    interval's speaker, its start and end rounded to three decimals,
    and the overlapping words in order of start joined by single
    spaces; an interval no word overlaps yields nothing. *)
Theorem speaker_mapper_meets_spec (ws : list WordSeg) (ds : list Diar) :
  Forall (fun w => token (word w)) ws ->
  _align_words_to_diarization ws ds = mapper_spec ws ds
  /\ (forall d w, overlaps d w = true <->
                  ~ (w_end w <= d_start d \/ d_end d <= w_start w))
  /\ ascending d_start (Py.sorted d_start ds)
  /\ ascending w_start (Py.sorted w_start ws).
Proof.
  intro HT. split; [now apply mapper_eq_spec|].
  split; [exact overlaps_spec | split; apply sorted_ascending].
Qed.

Lemma speaker_mapper_meets_spec_witness :
  _align_words_to_diarization
    [mkWordSeg (3 # 4) (3 # 2) "world"; mkWordSeg 0 (3 # 4) "hello";
     mkWordSeg 4 5 "bye"]
    [mkDiar 2 3 "SPEAKER_01"; mkDiar 0 (3 # 2) "SPEAKER_00"]
  = [mkBlock (0 / 1000) (1500 / 1000) "SPEAKER_00" "hello world"].
Proof.
  refine (eq_trans (proj1 (speaker_mapper_meets_spec _ _ _)) _).
  - repeat constructor; discriminate.
  - vm_compute. reflexivity.
Defined.

(* ------------------------------------------------------------------ *)
(** *** Rounding keeps the order *)

Lemma round_half_even_bounds (x : Q) :
  (Qfloor x <= Py.round_half_even x <= Qfloor x + 1)%Z.
Proof.
  unfold Py.round_half_even.
  destruct (Py.ltb _ _); [lia|].
  destruct (Py.ltb _ _); [lia|].
  destruct (Z.even _); lia.
Qed.

Lemma round_half_even_mono (x y : Q) :
  x <= y -> (Py.round_half_even x <= Py.round_half_even y)%Z.
Proof.
  intro H.
  pose proof (Qfloor_resp_le x y H) as Hf.
  pose proof (round_half_even_bounds x) as Bx.
  pose proof (round_half_even_bounds y) as By.
  destruct (Z.eq_dec (Qfloor x) (Qfloor y)) as [E | NE]; [|lia].
  clear Bx By Hf. unfold Py.round_half_even. rewrite <- E.
  set (f := Qfloor x).
  destruct (Py.ltb (x - inject_Z f) (1 # 2)) eqn:X1.
  { destruct (Py.ltb (y - inject_Z f) (1 # 2)); [lia|].
    destruct (Py.ltb (1 # 2) (y - inject_Z f)); [lia|].
    destruct (Z.even f); lia. }
  apply ltb_false in X1.
  assert (Y1 : Py.ltb (y - inject_Z f) (1 # 2) = false) by (apply ltb_false; lra).
  rewrite Y1.
  destruct (Py.ltb (1 # 2) (x - inject_Z f)) eqn:X2.
  { apply ltb_true in X2.
    assert (Y2 : Py.ltb (1 # 2) (y - inject_Z f) = true) by (apply ltb_true; lra).
    rewrite Y2. lia. }
  destruct (Py.ltb (1 # 2) (y - inject_Z f)); [destruct (Z.even f); lia|].
  destruct (Z.even f); lia.
Qed.

Lemma round3_mono (x y : Q) : x <= y -> Py.round3 x <= Py.round3 y.
Proof.
  intro H. unfold Py.round3.
  assert (Hm : x * 1000 <= y * 1000) by lra.
  apply round_half_even_mono in Hm. rewrite Zle_Qle in Hm.
  unfold Qdiv. apply Qmult_le_compat_r; [exact Hm | discriminate].
Qed.

(** *** What the mapper emits are raw blocks *)

Lemma slice_words_word st en wd n (l : list string) : forall i w,
  In w (slice_words st en wd n i l) -> In (word w) l.
Proof.
  induction l as [|x l IH]; intros i w Hi; simpl in Hi; [contradiction|].
  destruct Hi as [<- | Hi]; [now left | right; eauto].
Qed.

Lemma to_word_segments_tokens (asr_segments : list AsrSeg) :
  Forall (fun w => token (word w)) (_to_word_segments asr_segments).
Proof.
  apply Forall_forall. intros w Hw.
  apply in_flat_map in Hw as (seg & _ & Hw).
  unfold segment_words in Hw.
  destruct (Py.is_empty (a_text seg)); [contradiction|].
  pose proof (split_tokens (a_text seg)) as HT.
  destruct (Py.split (a_text seg)) as [|w0 rest] eqn:E; [contradiction|].
  apply slice_words_word in Hw. rewrite Forall_forall in HT. now apply HT.
Qed.

Lemma mapper_emits_raw_blocks (ws : list WordSeg) (ds : list Diar) :
  Forall (fun w => token (word w)) ws ->
  Forall (fun d => d_start d <= d_end d) ds ->
  Forall raw_block (_align_words_to_diarization ws ds).
Proof.
  intros HT HD.
  rewrite (mapper_eq_spec ws ds HT).
  unfold mapper_spec. apply Forall_forall. intros b Hb.
  apply in_flat_map in Hb as (d & Hd & Hb).
  apply sorted_In in Hd. rewrite Forall_forall in HD. specialize (HD d Hd).
  destruct (existsb (overlaps d) ws) eqn:Ex; [|contradiction].
  destruct Hb as [<- | []].
  destruct (join_tokens _ (selected_tokens d ws HT)) as [Ht Hn].
  { intro E. apply map_eq_nil in E.
    apply (filter_sorted_nil d ws) in E. congruence. }
  split; [now apply round3_mono | split; assumption].
Qed.

(* ================================================================== *)
(** ** Confidence *)
(* ================================================================== *)

Lemma py_max_Qmax (a b : Q) : Py.max a b == Qmax a b.
Proof.
  unfold Py.max. destruct (Qle_bool b a) eqn:E.
  - apply Qle_bool_iff in E. symmetry. now apply Q.max_l.
  - apply Qle_bool_false in E. symmetry. apply Q.max_r. now apply Qlt_le_weak.
Qed.

Lemma py_min_Qmin (a b : Q) : Py.min a b == Qmin a b.
Proof.
  unfold Py.min. destruct (Qle_bool a b) eqn:E.
  - apply Qle_bool_iff in E. symmetry. now apply Q.min_l.
  - apply Qle_bool_false in E. symmetry. apply Q.min_r. now apply Qlt_le_weak.
Qed.

Lemma overlap_is_len (s e : Q) (x : AsrSeg) :
  _overlap s e (a_start x) (a_end x) == overlap_len s e x.
Proof.
  unfold _overlap, overlap_len.
  rewrite py_max_Qmax, py_min_Qmin, py_max_Qmax. reflexivity.
Qed.

Lemma overlap_len_nonneg (s e : Q) (x : AsrSeg) : 0 <= overlap_len s e x.
Proof. unfold overlap_len. apply Q.le_max_l. Qed.

Lemma best_step_inv (s e : Q) (seen : list AsrSeg) (st : option AsrSeg * Q)
  (d : AsrSeg) :
  scan_inv s e seen st ->
  scan_inv s e (seen ++ [d]) (best_step s e st d).
Proof.
  destruct st as [best bo]. unfold scan_inv, best_step. simpl fst. simpl snd.
  pose proof (overlap_is_len s e d) as Ed. intro H.
  destruct (Py.ltb bo (_overlap s e (a_start d) (a_end d))) eqn:L.
  - apply ltb_true in L. rewrite Ed in L. simpl.
    split; [exact Ed|].
    exists seen, []. split; [reflexivity|].
    destruct best as [b|].
    + destruct H as [Hbo (pre & post & -> & Hpos & Hpre & Hpost)].
      rewrite Hbo in L.
      split; [eapply Qlt_trans; eassumption|].
      split; [|intros x []].
      intros x Hx. apply in_app_or in Hx as [Hx | [<- | Hx]].
      * eapply Qlt_trans; [now apply Hpre | exact L].
      * exact L.
      * eapply Qle_lt_trans; [now apply Hpost | exact L].
    + destruct H as [Hbo Hall]. rewrite Hbo in L.
      split; [exact L|]. split; [|intros x []].
      intros x Hx. eapply Qle_lt_trans; [now apply Hall | exact L].
  - apply ltb_false in L. rewrite Ed in L.
    destruct best as [b|]; simpl.
    + destruct H as [Hbo (pre & post & -> & Hpos & Hpre & Hpost)].
      split; [exact Hbo|].
      exists pre, (post ++ [d])%list.
      split; [now rewrite <- app_assoc|].
      split; [exact Hpos|]. split; [exact Hpre|].
      intros x Hx. apply in_app_or in Hx as [Hx | [<- | []]];
        [now apply Hpost | now rewrite <- Hbo].
    + destruct H as [Hbo Hall]. split; [exact Hbo|].
      intros x Hx. apply in_app_or in Hx as [Hx | [<- | []]];
        [now apply Hall | now rewrite <- Hbo].
Qed.

Lemma best_scan_inv (s e : Q) (rest : list AsrSeg) :
  forall seen st,
    scan_inv s e seen st ->
    scan_inv s e (seen ++ rest) (fold_left (best_step s e) rest st).
Proof.
  induction rest as [|d rest IH]; intros seen st H; simpl.
  - now rewrite app_nil_r.
  - replace (seen ++ d :: rest)%list with ((seen ++ [d]) ++ rest)%list
      by now rewrite <- app_assoc.
    apply IH. now apply best_step_inv.
Qed.

(** [_best_diar_for_asr] finds the first entry with the largest
    overlap, or nothing when no entry shares time with the span. *)
Lemma best_diar_for_asr_spec (s e : Q) (asr : list AsrSeg) :
  match _best_diar_for_asr s e asr with
  | None => forall x, In x asr -> ~ 0 < overlap_len s e x
  | Some b => first_best s e asr b
  end.
Proof.
  unfold _best_diar_for_asr.
  pose proof (best_scan_inv s e asr [] (None, 0)) as H.
  simpl app in H. unfold scan_inv in H at 2.
  destruct (fst (fold_left (best_step s e) asr (None, 0))) as [b|].
  - apply H. simpl. split; [reflexivity | intros x []].
  - intros x Hx L. destruct H as [_ H].
    + simpl. split; [reflexivity | intros y []].
    + apply (Qlt_not_le _ _ L). now apply H.
Qed.

Lemma confidence_bounds (exp : Q -> Q) (b : AsrSeg) :
  0 <= _confidence_from_whisper exp b <= 1.
Proof.
  unfold _confidence_from_whisper. split; [apply max_ge_l|].
  set (c := 1 / (1 + exp (- avg_logprob b)) * (1 - no_speech_prob b)).
  unfold Py.max. destruct (Qle_bool (Py.min 1 c) 0); [discriminate|].
  apply min_le_l.
Qed.

Lemma confidence_formula (exp : Q -> Q) (b : AsrSeg) :
  _confidence_from_whisper exp b
  == clamp01 (sigmoid exp (avg_logprob b) * (1 - no_speech_prob b)).
Proof.
  unfold _confidence_from_whisper, clamp01, sigmoid.
  rewrite py_max_Qmax, py_min_Qmin. reflexivity.
Qed.

(* ------------------------------------------------------------------ *)
(** *** Merging keeps blocks proper *)

Lemma merge_from_proper (g : Q) (rest : list Block) :
  forall last,
    b_start last <= b_end last ->
    Forall (fun b => b_start b <= b_end b) rest ->
    Forall (fun b => b_start b <= b_end b) (merge_from g last rest).
Proof.
  induction rest as [|seg rest IH]; intros last Hl Hr; simpl.
  - now constructor.
  - inversion Hr as [|? ? Hseg Hrest]; subst.
    destruct (mergeable g last seg) eqn:E.
    + apply IH; [|exact Hrest].
      apply mergeable_spec in E as [_ [Hg _]]. unfold gap in Hg. simpl. lra.
    + constructor; [exact Hl | now apply IH].
Qed.

Lemma merge_blocks_proper (segments : list Block) (g : Q) :
  Forall (fun b => b_start b <= b_end b) segments ->
  Forall (fun b => b_start b <= b_end b) (_merge_blocks segments g).
Proof.
  intro H. rewrite merge_blocks_eq.
  assert (Hs : Forall (fun b => b_start b <= b_end b) (Py.sorted b_start segments)).
  { apply Forall_forall. intros b Hb. apply sorted_In in Hb.
    rewrite Forall_forall in H. now apply H. }
  destruct (Py.sorted b_start segments) as [|s0 rest]; [constructor|].
  inversion Hs; subst. now apply merge_from_proper.
Qed.

(** Every entry [align] returns is a merged block with its confidence
    attached. *)
Lemma align_In (exp : Q -> Q) (asr_result : AsrResult) (diar : list Diar)
  (seg : SpeakerSeg) :
  In seg (align exp asr_result diar) ->
  exists blk,
    In blk (_merge_blocks
              (_align_words_to_diarization
                 (_to_word_segments (_extract_asr_segments asr_result)) diar)
              MAX_GAP)
    /\ seg = attach exp (_extract_asr_segments asr_result) blk.
Proof.
  unfold align. intro H.
  destruct (_extract_asr_segments asr_result) as [|a0 asr]; [contradiction|].
  destruct diar as [|d0 diar]; [contradiction|].
  apply in_map_iff in H as (blk & <- & Hb). eauto.
Qed.

(** C5. For every segment [align] returns: the confidence is 0.5 when
    no normalised recognition segment shares time with the segment's
    span, and otherwise it is
    [clamp(sigmoid(avg_logprob) * (1 - no_speech_prob), 0, 1)] of the
    recognition segment sharing the most time, the first one among
    equals; in both cases the confidence lies in [[0, 1]]; and the
    segment has [start <= end], the diarization intervals being proper
    as the data model has every interval. *)
Theorem aligned_confidence (exp : Q -> Q) (asr_result : AsrResult)
  (diar : list Diar) (seg : SpeakerSeg) :
  In seg (align exp asr_result diar) ->
  let asr := _extract_asr_segments asr_result in
  (((forall x, In x asr -> ~ 0 < overlap_len (start seg) (end_ seg) x)
    /\ confidence seg = 1 # 2)
   \/ (exists b,
         first_best (start seg) (end_ seg) asr b
         /\ confidence seg
            == clamp01 (sigmoid exp (avg_logprob b) * (1 - no_speech_prob b))))
  /\ 0 <= confidence seg <= 1
  /\ (Forall (fun d => d_start d <= d_end d) diar -> start seg <= end_ seg).
Proof.
  intros Hin asr.
  destruct (align_In _ _ _ _ Hin) as (blk & Hblk & ->). fold asr.
  unfold attach. simpl.
  pose proof (best_diar_for_asr_spec (b_start blk) (b_end blk) asr) as Hbest.
  split; [|split].
  - destruct (_best_diar_for_asr (b_start blk) (b_end blk) asr) as [b|].
    + right. exists b. split; [exact Hbest | apply confidence_formula].
    + left. split; [exact Hbest | reflexivity].
  - destruct (_best_diar_for_asr (b_start blk) (b_end blk) asr) as [b|].
    + apply confidence_bounds.
    + split; discriminate.
  - intro HD.
    pose proof (mapper_emits_raw_blocks _ diar
                  (to_word_segments_tokens asr) HD) as Hraw.
    assert (Hp : Forall (fun b => b_start b <= b_end b)
                   (_align_words_to_diarization (_to_word_segments asr) diar)).
    { eapply Forall_impl; [|exact Hraw]. now intros b [H _]. }
    apply (merge_blocks_proper _ MAX_GAP) in Hp.
    rewrite Forall_forall in Hp. now apply Hp.
Qed.

Lemma aligned_confidence_witness :
  let seg := mkSpeakerSeg (0 / 1000) (1500 / 1000) "SPEAKER_00" "hello world" (1 # 2) in
  0 <= confidence seg <= 1 /\ start seg <= end_ seg.
Proof.
  cbv zeta.
  assert (Hin : In (mkSpeakerSeg (0 / 1000) (1500 / 1000) "SPEAKER_00"
                      "hello world" (1 # 2))
                  (align (fun _ => 1)
                     (AsrList
                        [mkRawAsr (Some 0) (Some (3 # 2)) (Some "hello world")
                           None None;
                         mkRawAsr (Some (8 # 5)) (Some (7 # 2))
                           (Some "how are you") None None])
                     [mkDiar 0 (3 # 2) "SPEAKER_00";
                      mkDiar (8 # 5) (7 # 2) "SPEAKER_01"])).
  { vm_compute. left. reflexivity. }
  destruct (proj2 (aligned_confidence _ _ _ _ Hin)) as [Hc Hs].
  split; [exact Hc|]. apply Hs.
  repeat constructor; vm_compute; discriminate.
Defined.

(** C5 as stated fails on a diarization interval that ends before it
    starts and that a word spans: nothing in [align] tests or repairs
    the bounds of an interval, they are rounded and handed on, and the
    segment returned has its end before its start. *)
Lemma aligned_segment_inverted_counterexample :
  exists seg,
    In seg (align (fun _ => 1)
              (AsrList [mkRawAsr (Some 0) (Some 10) (Some "well") None None])
              [mkDiar 5 3 "SPEAKER_00"])
    /\ 0 <= confidence seg <= 1
    /\ ~ start seg <= end_ seg.
Proof.
  eexists. split; [vm_compute; left; reflexivity|].
  split; [split; discriminate|].
  intro H. apply (Qle_not_lt _ _ H). reflexivity.
Qed.

(* ================================================================== *)
(** ** Conversation roles *)
(* ================================================================== *)

(** *** The dictionary of speaking times *)

Lemma lookup_time_add (spk k : string) (dur : Q) (m : list (string * Q)) :
  lookup (time_add spk dur m) k =
    if String.eqb spk k
    then Some (match lookup m k with Some v => v + dur | None => 0 + dur end)
    else lookup m k.
Proof.
  induction m as [|[k' v] tl IH]; simpl.
  - reflexivity.
  - destruct (String.eqb k' spk) eqn:E1; simpl.
    + apply String.eqb_eq in E1. subst k'.
      now destruct (String.eqb spk k).
    + destruct (String.eqb k' k) eqn:E2.
      * apply String.eqb_eq in E2. subst k'.
        rewrite String.eqb_sym, E1. reflexivity.
      * exact IH.
Qed.

Lemma time_add_keys (spk : string) (dur : Q) (m : list (string * Q)) :
  map fst (time_add spk dur m) =
    if existsb (String.eqb spk) (map fst m) then map fst m
    else (map fst m ++ [spk])%list.
Proof.
  induction m as [|[k' v] tl IH]; simpl; [reflexivity|].
  rewrite (String.eqb_sym spk k').
  destruct (String.eqb k' spk); simpl; [reflexivity|].
  rewrite IH. now destruct (existsb (String.eqb spk) (map fst tl)).
Qed.

Lemma time_add_NoDup (spk : string) (dur : Q) (m : list (string * Q)) :
  NoDup (map fst m) -> NoDup (map fst (time_add spk dur m)).
Proof.
  intro H. rewrite time_add_keys.
  destruct (existsb (String.eqb spk) (map fst m)) eqn:E; [exact H|].
  apply NoDup_app; [exact H | repeat constructor; intros [] |].
  intros x Hx [-> | []].
  assert (existsb (String.eqb x) (map fst m) = true).
  { apply existsb_exists. exists x. split; [exact Hx | apply String.eqb_refl]. }
  congruence.
Qed.

Lemma lookup_In (m : list (string * Q)) (k : string) (v : Q) :
  NoDup (map fst m) -> (In (k, v) m <-> lookup m k = Some v).
Proof.
  induction m as [|[k' v'] tl IH]; simpl; intro H.
  - split; [contradiction | discriminate].
  - inversion H as [|? ? Hnot Htl]; subst. specialize (IH Htl).
    destruct (String.eqb k' k) eqn:E.
    + apply String.eqb_eq in E. subst k'. split.
      * intros [Heq | Hin]; [now injection Heq as -> |].
        exfalso. apply Hnot. apply in_map_iff. now exists (k, v).
      * intro Heq. injection Heq as ->. now left.
    + apply String.eqb_neq in E. rewrite <- IH. split.
      * intros [Heq | Hin]; [injection Heq; congruence | exact Hin].
      * now right.
Qed.

Lemma time_fold_NoDup (segs : list SpeakerSeg) :
  forall m, NoDup (map fst m) -> NoDup (map fst (fold_left time_step segs m)).
Proof.
  induction segs as [|seg rest IH]; intros m H; simpl; [exact H|].
  apply IH. now apply time_add_NoDup.
Qed.

Lemma lookup_time_step (m : list (string * Q)) (seg : SpeakerSeg) (k : string) :
  lookup (time_step m seg) k =
    if String.eqb (speaker seg) k
    then Some (match lookup m k with
               | Some v => v + (end_ seg - start seg)
               | None => 0 + (end_ seg - start seg)
               end)
    else lookup m k.
Proof. apply lookup_time_add. Qed.

Lemma speaks_cons (seg : SpeakerSeg) (rest : list SpeakerSeg) (k : string) :
  speaks (seg :: rest) k <-> speaker seg = k \/ speaks rest k.
Proof. reflexivity. Qed.

(** What the first loop has stored under [k] after [segs], started
    from the dictionary [m]. *)
Lemma time_fold_lookup (segs : list SpeakerSeg) (k : string) :
  forall m,
    match lookup (fold_left time_step segs m) k with
    | Some v =>
        v == match lookup m k with Some v0 => v0 | None => 0 end
             + speaking_time segs k
        /\ (lookup m k <> None \/ speaks segs k)
    | None => lookup m k = None /\ ~ speaks segs k
    end.
Proof.
  induction segs as [|seg rest IH]; intro m.
  - simpl. destruct (lookup m k) as [v0|].
    + split; [ring | left; discriminate].
    + split; [reflexivity | intros []].
  - simpl fold_left. specialize (IH (time_step m seg)).
    rewrite lookup_time_step in IH.
    destruct (lookup (fold_left time_step rest (time_step m seg)) k) as [v|];
      simpl speaking_time; destruct (String.eqb (speaker seg) k) eqn:E.
    + apply String.eqb_eq in E. destruct IH as [Hv _].
      split; [|right; now left].
      rewrite Hv. destruct (lookup m k); ring.
    + apply String.eqb_neq in E. destruct IH as [Hv Hs].
      split; [exact Hv|].
      destruct Hs as [Hs | Hs]; [now left | right; now right].
    + destruct IH as [IH _]. discriminate.
    + apply String.eqb_neq in E. destruct IH as [Hn Hs].
      split; [exact Hn|]. intros [Hk | Hk]; tauto.
Qed.

Lemma time_map_fold (segs : list SpeakerSeg) :
  time_map segs = fold_left time_step segs [].
Proof. reflexivity. Qed.

(** The dictionary of speaking times has one entry per speaker, holding
    that speaker's total speaking time. *)
Lemma time_map_spec (segs : list SpeakerSeg) :
  NoDup (map fst (time_map segs))
  /\ (forall k v, In (k, v) (time_map segs) ->
                  speaks segs k /\ v == speaking_time segs k)
  /\ (forall k, speaks segs k -> exists v, In (k, v) (time_map segs)).
Proof.
  rewrite time_map_fold.
  assert (ND : NoDup (map fst (fold_left time_step segs [])))
    by (apply time_fold_NoDup; constructor).
  split; [exact ND|]. split.
  - intros k v H. apply (lookup_In _ _ _ ND) in H.
    pose proof (time_fold_lookup segs k []) as L. rewrite H in L.
    simpl in L. destruct L as [Hv [Hc | Hs]]; [congruence|].
    split; [exact Hs|]. rewrite Hv. ring.
  - intros k Hk.
    pose proof (time_fold_lookup segs k []) as L.
    destruct (lookup (fold_left time_step segs []) k) as [v|] eqn:E.
    + exists v. now apply (lookup_In _ _ _ ND).
    + destruct L as [_ L]. contradiction.
Qed.

(** *** Ranking by speaking time *)

Section SortedDescFacts.
Context {A : Type}.
Variable key : A -> Q.

Lemma insert_desc_perm (x : A) (l : list A) :
  Permutation (Py.insert_desc key x l) (x :: l).
Proof.
  induction l as [|y tl IH]; simpl; [reflexivity|].
  destruct (Qle_bool (key y) (key x)); [reflexivity|].
  rewrite IH. apply perm_swap.
Qed.

Lemma sorted_desc_perm (l : list A) : Permutation (Py.sorted_desc key l) l.
Proof.
  induction l as [|x tl IH]; simpl; [reflexivity|].
  rewrite insert_desc_perm. now constructor.
Qed.

Lemma descending_tail (a : A) (l : list A) :
  descending key (a :: l) -> descending key l.
Proof. destruct l; [trivial | now intros [_ H]]. Qed.

Lemma insert_desc_descending (x : A) (l : list A) :
  descending key l -> descending key (Py.insert_desc key x l).
Proof.
  induction l as [|y tl IH]; intro H; [exact I|].
  simpl. destruct (Qle_bool (key y) (key x)) eqn:E.
  - split; [now apply Qle_bool_iff | exact H].
  - apply Qle_bool_false in E.
    specialize (IH (descending_tail _ _ H)).
    destruct tl as [|z tl]; simpl in *.
    + split; [now apply Qlt_le_weak | exact I].
    + destruct (Qle_bool (key z) (key x)).
      * split; [now apply Qlt_le_weak | exact IH].
      * split; [now destruct H | exact IH].
Qed.

Lemma sorted_desc_descending (l : list A) : descending key (Py.sorted_desc key l).
Proof.
  induction l as [|x tl IH]; [exact I|].
  simpl. now apply insert_desc_descending.
Qed.

(** The head of a descending list has the largest key. *)
Lemma descending_head (a : A) (l : list A) :
  descending key (a :: l) -> forall x, In x l -> key x <= key a.
Proof.
  revert a. induction l as [|b tl IH]; intros a H x Hx; [contradiction|].
  destruct H as [Hba H]. destruct Hx as [<- | Hx]; [exact Hba|].
  eapply Qle_trans; [now apply (IH b) | exact Hba].
Qed.

End SortedDescFacts.

Lemma speaking_time_insert (x : SpeakerSeg) (l : list SpeakerSeg) (k : string) :
  speaking_time (Py.insert start x l) k == speaking_time (x :: l) k.
Proof.
  induction l as [|y tl IH]; simpl; [reflexivity|].
  destruct (Qle_bool (start x) (start y)); simpl; [reflexivity|].
  simpl in IH.
  destruct (String.eqb (speaker y) k), (String.eqb (speaker x) k);
    rewrite IH; ring.
Qed.

(** Sorting the segments changes nobody's speaking time. *)
Lemma speaking_time_sorted (l : list SpeakerSeg) (k : string) :
  speaking_time (Py.sorted start l) k == speaking_time l k.
Proof.
  induction l as [|x tl IH]; simpl; [reflexivity|].
  rewrite speaking_time_insert. simpl.
  destruct (String.eqb (speaker x) k); rewrite IH; reflexivity.
Qed.

Lemma speaks_sorted (l : list SpeakerSeg) (k : string) :
  speaks (Py.sorted start l) k <-> speaks l k.
Proof.
  unfold speaks. rewrite !in_map_iff.
  split; intros (s & Hs & Hin); exists s; (split; [exact Hs|]);
    now apply (sorted_In start).
Qed.

(** *** The turns carry the role of their raw speaker *)

Section Turns.
Variable r : list (string * string).
Variable all : list SpeakerSeg.

Lemma turn_step_good (st : list Turn * option Turn) (seg : SpeakerSeg) :
  turns_ok r all st -> In seg all -> turns_ok r all (turn_step r st seg).
Proof.
  destruct st as [conv cur]. intros [Hc Hcur] Hin.
  assert (Hfresh : turn_ok r all (mkTurn (start seg) (end_ seg)
                           (roles_get r (speaker seg)) (speaker seg) (text seg))).
  { split; [reflexivity|]. simpl. apply in_map_iff. now exists seg. }
  unfold turn_step. simpl in Hc, Hcur.
  destruct cur as [c|].
  - specialize (Hcur c eq_refl).
    destruct (String.eqb (t_speaker_raw c) (speaker seg)
              && Qle_bool (start seg - t_end c) MAX_GAP).
    + split; [exact Hc|]. simpl. intros c' Hc'. injection Hc' as <-.
      exact Hcur.
    + split; simpl.
      * apply Forall_app. split; [exact Hc | now constructor].
      * intros c' Hc'. now injection Hc' as <-.
  - split; [exact Hc|]. simpl. intros c' Hc'. now injection Hc' as <-.
Qed.

Lemma turn_fold_good (segs : list SpeakerSeg) :
  forall st,
    turns_ok r all st -> (forall seg, In seg segs -> In seg all) ->
    turns_ok r all (fold_left (turn_step r) segs st).
Proof.
  induction segs as [|seg rest IH]; intros st H Hall; [exact H|].
  simpl. apply IH.
  - apply turn_step_good; [exact H | apply Hall; now left].
  - intros s Hs. apply Hall. now right.
Qed.

Lemma turns_good (t : Turn) :
  In t (let (conv, current) := fold_left (turn_step r) all ([], None) in
        match current with
        | Some cur => (conv ++ [cur])%list
        | None => conv
        end) ->
  t_role t = roles_get r (t_speaker_raw t) /\ speaks all (t_speaker_raw t).
Proof.
  pose proof (turn_fold_good all ([], None)) as H.
  destruct (fold_left (turn_step r) all ([], None)) as [conv cur].
  destruct H as [Hc Hcur].
  - split; [constructor | discriminate].
  - auto.
  - simpl in Hc, Hcur. rewrite Forall_forall in Hc.
    destruct cur as [c|]; intro Hin.
    + apply in_app_or in Hin as [Hin | [<- | []]]; [now apply Hc | now apply Hcur].
    + now apply Hc.
Qed.

End Turns.

(** Every turn of the conversation has a raw speaker of the input and
    the role the dictionary [roles] gives that speaker. *)
Lemma conversation_turn_role (aligned : list SpeakerSeg) (t : Turn) :
  In t (conversation_of aligned) ->
  t_role t = roles_get (roles (speaker_order (Py.sorted start aligned)))
               (t_speaker_raw t)
  /\ speaks aligned (t_speaker_raw t).
Proof.
  unfold conversation_of. destruct aligned as [|s0 rest]; [contradiction|].
  intro H. apply turns_good in H. destruct H as [H1 H2].
  split; [exact H1 | now apply speaks_sorted].
Qed.

(** *** Roles by rank *)

Lemma speaker_order_spec (segs : list SpeakerSeg) :
  let order := speaker_order segs in
  NoDup (map fst order)
  /\ descending snd order
  /\ (forall k v, In (k, v) order ->
                  speaks segs k /\ v == speaking_time segs k)
  /\ (forall k, speaks segs k -> exists v, In (k, v) order).
Proof.
  cbv zeta. unfold speaker_order.
  destruct (time_map_spec segs) as (ND & Hin & Hex).
  pose proof (sorted_desc_perm snd (time_map segs)) as P.
  split; [|split; [|split]].
  - eapply Permutation_NoDup; [|exact ND].
    apply Permutation_map. now symmetry.
  - apply sorted_desc_descending.
  - intros k v H. apply Hin. eapply Permutation_in; eassumption.
  - intros k Hk. destruct (Hex k Hk) as [v Hv]. exists v.
    eapply Permutation_in; [symmetry; exact P | exact Hv].
Qed.

(** The role [roles] gives a speaker is the role of the speaker's
    rank by speaking time. *)
Lemma roles_ranked (segs : list SpeakerSeg) (k : string) :
  speaks segs k ->
  ranked_role segs k (roles_get (roles (speaker_order segs)) k).
Proof.
  intro Hk.
  destruct (speaker_order_spec segs) as (ND & Hdesc & Hin & Hex).
  destruct (Hex k Hk) as [vk Hvk].
  assert (Hval : forall x vx, In (x, vx) (speaker_order segs) ->
                              vx == speaking_time segs x)
    by (intros x vx H; now apply Hin).
  destruct (speaker_order segs) as [|[p vp] [|[s vs] rest]].
  - contradiction.
  - left. destruct Hvk as [E | []]. injection E as -> ->.
    simpl. rewrite String.eqb_refl. split; [reflexivity|].
    intros x Hx _. destruct (Hex x Hx) as [vx [E | []]].
    injection E as -> ->. apply Qle_refl.
  - assert (Hp : speaks segs p) by (apply (Hin p vp); now left).
    assert (Hs : speaks segs s) by (apply (Hin s vs); right; now left).
    assert (Hps : p <> s).
    { inversion ND as [|? ? Hnot _]. intros ->. apply Hnot. now left. }
    assert (Tp : tops segs [] p).
    { intros x Hx _. destruct (Hex x Hx) as [vx Hvx].
      rewrite <- (Hval x vx Hvx), <- (Hval p vp) by now left.
      destruct Hvx as [E | Hvx]; [injection E as -> ->; apply Qle_refl|].
      exact (descending_head snd _ _ Hdesc (x, vx) Hvx). }
    assert (Ts : tops segs [p] s).
    { intros x Hx Hnp. destruct (Hex x Hx) as [vx Hvx].
      rewrite <- (Hval x vx Hvx), <- (Hval s vs) by (right; now left).
      destruct Hvx as [E | [E | Hvx]].
      - injection E as -> ->. exfalso. apply Hnp. now left.
      - injection E as -> ->. apply Qle_refl.
      - exact (descending_head snd _ _ (descending_tail snd _ _ Hdesc)
                 (x, vx) Hvx). }
    simpl roles. simpl roles_get.
    destruct (String.eqb p k) eqn:Epk.
    + apply String.eqb_eq in Epk. subst k. left. now split.
    + apply String.eqb_neq in Epk.
      destruct (String.eqb s k) eqn:Esk.
      * apply String.eqb_eq in Esk. subst k.
        right. left. split; [reflexivity|]. exists p. auto.
      * apply String.eqb_neq in Esk.
        right. right. split; [reflexivity|]. exists p, s.
        repeat (split; [assumption|]). assumption.
Qed.

(** Ranks are the same on the segments as given and as sorted. *)
Lemma ranked_role_sorted (segs : list SpeakerSeg) (raw role : string) :
  ranked_role (Py.sorted start segs) raw role -> ranked_role segs raw role.
Proof.
  assert (T : forall skip k, tops (Py.sorted start segs) skip k -> tops segs skip k).
  { intros skip k H x Hx Hn.
    rewrite <- (speaking_time_sorted segs x), <- (speaking_time_sorted segs k).
    apply H; [now apply speaks_sorted | exact Hn]. }
  intros [[Hr Ht] | [(Hr & p & Hp & Hn & Tp & Tk) | (Hr & p & s & H)]].
  - left. split; [exact Hr | now apply T].
  - right. left. split; [exact Hr|]. exists p.
    split; [now apply speaks_sorted|]. split; [exact Hn|]. split; now apply T.
  - destruct H as (Hp & Hs & Hps & Hpk & Hsk & Tp & Ts).
    right. right. split; [exact Hr|]. exists p, s.
    split; [now apply speaks_sorted|]. split; [now apply speaks_sorted|].
    repeat (split; [assumption|]). split; now apply T.
Qed.

(** Every turn has the role of its raw speaker's rank. *)
Lemma turn_ranked (aligned : list SpeakerSeg) (t : Turn) :
  In t (conversation_of aligned) ->
  speaks aligned (t_speaker_raw t)
  /\ ranked_role aligned (t_speaker_raw t) (t_role t).
Proof.
  intro H. destruct (conversation_turn_role aligned t H) as [Hr Hs].
  split; [exact Hs|]. rewrite Hr.
  apply ranked_role_sorted, roles_ranked. now apply speaks_sorted.
Qed.

Lemma speaking_time_silent (segs : list SpeakerSeg) (k : string) :
  ~ speaks segs k -> speaking_time segs k = 0.
Proof.
  induction segs as [|seg rest IH]; intro H; [reflexivity|].
  simpl. destruct (String.eqb (speaker seg) k) eqn:E.
  - apply String.eqb_eq in E. exfalso. apply H. now left.
  - apply IH. intro Hs. apply H. now right.
Qed.

Lemma speaks_of_time (segs : list SpeakerSeg) (k : string) :
  0 < speaking_time segs k -> speaks segs k.
Proof.
  intro H. destruct (in_dec string_dec k (map speaker segs)) as [Hs | Hn];
    [exact Hs|].
  rewrite (speaking_time_silent segs k Hn) in H.
  now apply Qlt_irrefl in H.
Qed.

Lemma not_in_one (x p : string) : x <> p -> ~ In x [p].
Proof. intros H [E | []]. now apply H. Qed.

(** Three speakers with 40, 25 and 10 seconds: the ranks leave one
    role to each. *)
Lemma three_speaker_roles (segs : list SpeakerSeg) (a b c raw role : string) :
  (forall x, speaks segs x -> x = a \/ x = b \/ x = c) ->
  speaking_time segs a == 40 ->
  speaking_time segs b == 25 ->
  speaking_time segs c == 10 ->
  ranked_role segs raw role ->
  (raw = a -> role = PRIMARY)
  /\ (raw = b -> role = SECONDARY)
  /\ (raw = c -> role = c).
Proof.
  intros Hall Ta Tb Tc R.
  assert (Ha : speaks segs a) by (apply speaks_of_time; lra).
  assert (Hb : speaks segs b) by (apply speaks_of_time; lra).
  assert (Hc : speaks segs c) by (apply speaks_of_time; lra).
  assert (Hab : a <> b) by (intros ->; lra).
  assert (Hac : a <> c) by (intros ->; lra).
  assert (Hbc : b <> c) by (intros ->; lra).
  assert (Top : forall p, speaks segs p -> tops segs [] p -> p = a).
  { intros p Hp Tp. pose proof (Tp a Ha (fun f => f)) as L.
    destruct (Hall p Hp) as [-> | [-> | ->]]; [reflexivity | lra | lra]. }
  assert (Second : forall s, speaks segs s -> s <> a -> tops segs [a] s -> s = b).
  { intros s Hs Hn Ts. pose proof (Ts b Hb (not_in_one b a (not_eq_sym Hab))) as L.
    destruct (Hall s Hs) as [-> | [-> | ->]]; [congruence | reflexivity | lra]. }
  destruct R as [[Hr Ht] | [(Hr & p & Hp & Hn & Tp & Tk) | (Hr & p & s & H)]].
  - (* raw is ranked first *)
    assert (Hraw : speaks segs raw -> raw = a) by (intro Hs; now apply Top).
    repeat split; intros ->; auto; exfalso;
      [apply Hab | apply Hac]; symmetry; now apply Hraw.
  - (* raw is ranked second *)
    pose proof (Top p Hp Tp) as ->.
    repeat split; intros ->; auto; try congruence.
    exfalso. apply Hbc. symmetry. apply Second; auto.
  - (* two speakers are ranked before raw *)
    destruct H as (Hp & Hs & Hps & Hpk & Hsk & Tp & Ts).
    pose proof (Top p Hp Tp) as ->.
    pose proof (Second s Hs (not_eq_sym Hps) Ts) as ->.
    repeat split; intros ->; auto; congruence.
Qed.

(** *** Every speaker gets a turn *)

Lemma turn_step_eq (r : list (string * string)) (conv : list Turn)
  (cur : Turn) (seg : SpeakerSeg) :
  turn_step r (conv, Some cur) seg
  = if extends cur seg then (conv, Some (extend cur seg))
    else ((conv ++ [cur])%list, Some (turn_of r seg)).
Proof. reflexivity. Qed.

(** The loop over the segments and the recursion agree. *)
Lemma fold_turns_from (r : list (string * string)) (rest : list SpeakerSeg) :
  forall conv cur,
    (let (c, current) := fold_left (turn_step r) rest (conv, Some cur) in
     match current with
     | Some x => (c ++ [x])%list
     | None => c
     end)
    = (conv ++ turns_from r cur rest)%list.
Proof.
  induction rest as [|seg rest IH]; intros conv cur; [reflexivity|].
  cbn [fold_left turns_from]. rewrite turn_step_eq.
  destruct (extends cur seg).
  - apply IH.
  - rewrite IH. now rewrite <- app_assoc.
Qed.

Lemma conversation_unfold (aligned : list SpeakerSeg) :
  conversation_of aligned
  = match Py.sorted start aligned with
    | [] => []
    | s0 :: rest =>
        let r := roles (speaker_order (Py.sorted start aligned)) in
        turns_from r (turn_of r s0) rest
    end.
Proof.
  unfold conversation_of. destruct aligned as [|a l]; [reflexivity|].
  set (r := roles (speaker_order (Py.sorted start (a :: l)))).
  destruct (Py.sorted start (a :: l)) as [|s0 rest] eqn:E.
  - pose proof (sorted_length start (a :: l)) as L. rewrite E in L. discriminate.
  - cbv zeta. cbn [fold_left].
    exact (fold_turns_from r rest [] (turn_of r s0)).
Qed.

Lemma extends_spec (cur : Turn) (seg : SpeakerSeg) :
  extends cur seg = true <->
  t_speaker_raw cur = speaker seg /\ start seg - t_end cur <= MAX_GAP.
Proof.
  unfold extends. now rewrite andb_true_iff, String.eqb_eq, Qle_bool_iff.
Qed.

Lemma turns_from_speakers (r : list (string * string)) (rest : list SpeakerSeg) :
  forall cur k,
    t_speaker_raw cur = k \/ In k (map speaker rest) ->
    exists t, In t (turns_from r cur rest) /\ t_speaker_raw t = k.
Proof.
  induction rest as [|seg rest IH]; intros cur k H.
  - destruct H as [H | []]. exists cur. split; [now left | exact H].
  - cbn [turns_from]. destruct (extends cur seg) eqn:E.
    + apply extends_spec in E as [Er _].
      apply IH. simpl in H. destruct H as [H | [H | H]]; auto.
      left. simpl. congruence.
    + destruct H as [H | [H | H]].
      * exists cur. split; [now left | exact H].
      * destruct (IH (turn_of r seg) k (or_introl H)) as (t & Ht & Hk).
        exists t. split; [now right | exact Hk].
      * destruct (IH (turn_of r seg) k (or_intror H)) as (t & Ht & Hk).
        exists t. split; [now right | exact Hk].
Qed.

(** No speaker is left without a turn. *)
Lemma conversation_speakers (aligned : list SpeakerSeg) (k : string) :
  speaks aligned k ->
  exists t, In t (conversation_of aligned) /\ t_speaker_raw t = k.
Proof.
  intro H. apply speaks_sorted in H. rewrite conversation_unfold.
  unfold speaks in H.
  destruct (Py.sorted start aligned) as [|s0 rest]; [contradiction|].
  cbv zeta. apply turns_from_speakers.
  destruct H as [H | H]; [now left | now right].
Qed.

Lemma tops_sorted (segs : list SpeakerSeg) (skip : list string) (k : string) :
  tops (Py.sorted start segs) skip k -> tops segs skip k.
Proof.
  intros H x Hx Hn.
  rewrite <- (speaking_time_sorted segs x), <- (speaking_time_sorted segs k).
  apply H; [now apply speaks_sorted | exact Hn].
Qed.

(** The first two entries of [speaker_order] and what [roles] gives
    them. *)
Lemma order_first (segs : list SpeakerSeg) (p : string) (vp : Q)
  (rest : list (string * Q)) :
  speaker_order segs = (p, vp) :: rest ->
  speaks segs p /\ tops segs [] p
  /\ roles_get (roles (speaker_order segs)) p = PRIMARY.
Proof.
  intro E.
  destruct (speaker_order_spec segs) as (ND & Hdesc & Hin & Hex).
  rewrite E in *.
  split; [apply (Hin p vp); now left|]. split.
  - intros x Hx _. destruct (Hex x Hx) as [vx Hvx].
    destruct (Hin x vx Hvx) as [_ Ex]. destruct (Hin p vp) as [_ Ep]; [now left|].
    rewrite <- Ex, <- Ep.
    destruct Hvx as [Eq | Hvx]; [injection Eq as -> ->; apply Qle_refl|].
    exact (descending_head snd _ _ Hdesc (x, vx) Hvx).
  - destruct rest as [|[s vs] rest]; simpl; now rewrite String.eqb_refl.
Qed.

Lemma order_second (segs : list SpeakerSeg) (p s : string) (vp vs : Q)
  (rest : list (string * Q)) :
  speaker_order segs = (p, vp) :: (s, vs) :: rest ->
  speaks segs s /\ p <> s /\ tops segs [p] s
  /\ roles_get (roles (speaker_order segs)) s = SECONDARY.
Proof.
  intro E.
  destruct (speaker_order_spec segs) as (ND & Hdesc & Hin & Hex).
  rewrite E in *.
  assert (Hps : p <> s).
  { inversion ND as [|? ? Hnot _]. intros ->. apply Hnot. now left. }
  split; [apply (Hin s vs); right; now left|]. split; [exact Hps|]. split.
  - intros x Hx Hnp. destruct (Hex x Hx) as [vx Hvx].
    destruct (Hin x vx Hvx) as [_ Ex].
    destruct (Hin s vs) as [_ Es]; [right; now left|].
    rewrite <- Ex, <- Es.
    destruct Hvx as [Eq | [Eq | Hvx]].
    + injection Eq as -> ->. exfalso. apply Hnp. now left.
    + injection Eq as -> ->. apply Qle_refl.
    + exact (descending_head snd _ _ (descending_tail snd _ _ Hdesc)
               (x, vx) Hvx).
  - simpl. apply String.eqb_neq in Hps. now rewrite Hps, String.eqb_refl.
Qed.

(** With any segment there is a PRIMARY turn, of a speaker who speaks
    at least as long as everybody. *)
Lemma primary_turn (aligned : list SpeakerSeg) :
  aligned <> [] ->
  exists t, In t (conversation_of aligned)
            /\ t_role t = PRIMARY /\ tops aligned [] (t_speaker_raw t).
Proof.
  intro Hne. set (segs := Py.sorted start aligned).
  destruct (speaker_order segs) as [|[p vp] rest] eqn:E.
  - exfalso. destruct aligned as [|s0 l]; [now apply Hne|].
    destruct (speaker_order_spec segs) as (_ & _ & _ & Hex).
    destruct (Hex (speaker s0)) as [v Hv]; [|rewrite E in Hv; exact Hv].
    apply (proj2 (speaks_sorted (s0 :: l) (speaker s0))). now left.
  - destruct (order_first segs p vp rest E) as (Hp & Tp & Hr).
    destruct (conversation_speakers aligned p) as (t & Ht & Hk);
      [exact (proj1 (speaks_sorted aligned p) Hp)|].
    exists t. split; [exact Ht|].
    destruct (conversation_turn_role aligned t Ht) as [Hrole _].
    fold segs in Hrole. rewrite Hrole, Hk.
    split; [exact Hr | now apply tops_sorted].
Qed.

(** With two speakers there is a SECONDARY turn, of a speaker who
    speaks at least as long as everybody but one who tops all. *)
Lemma secondary_turn (aligned : list SpeakerSeg) (k1 k2 : string) :
  speaks aligned k1 -> speaks aligned k2 -> k1 <> k2 ->
  exists t p, In t (conversation_of aligned)
              /\ t_role t = SECONDARY
              /\ speaks aligned p /\ p <> t_speaker_raw t
              /\ tops aligned [] p /\ tops aligned [p] (t_speaker_raw t).
Proof.
  intros H1 H2 Hne. set (segs := Py.sorted start aligned).
  destruct (speaker_order_spec segs) as (_ & _ & _ & Hex).
  destruct (Hex k1) as [v1 Hv1]; [exact (proj2 (speaks_sorted aligned k1) H1)|].
  destruct (Hex k2) as [v2 Hv2]; [exact (proj2 (speaks_sorted aligned k2) H2)|].
  destruct (speaker_order segs) as [|[p vp] [|[s vs] rest]] eqn:E.
  - contradiction.
  - exfalso. destruct Hv1 as [E1 | []], Hv2 as [E2 | []]. congruence.
  - destruct (order_first segs p vp _ E) as (Hp & Tp & _).
    destruct (order_second segs p s vp vs rest E) as (Hs & Hps & Ts & Hr).
    destruct (conversation_speakers aligned s) as (t & Ht & Hk);
      [exact (proj1 (speaks_sorted aligned s) Hs)|].
    exists t, p. split; [exact Ht|].
    destruct (conversation_turn_role aligned t Ht) as [Hrole _].
    fold segs in Hrole. rewrite Hrole, Hk.
    split; [exact Hr|]. split; [exact (proj1 (speaks_sorted aligned p) Hp)|].
    split; [exact Hps|]. split; now apply tops_sorted.
Qed.

(** C8. [build_conversation] gives every speaker of the aligned
    segments a turn, and every turn carries a raw speaker of these
    segments and the role of that speaker's rank by total speaking
    time: the speaker with the most speaking time is PRIMARY
    (["CUSTOMER"] in the source), the one with the most among the
    others is SECONDARY (["AGENT"]), and a speaker with two others
    ranked before keeps the raw label as role.  With any segment
    there is a PRIMARY turn, with two speakers there is a SECONDARY
    turn, and with a single speaker every turn is PRIMARY.  With three
    speakers of 40, 25 and 10 seconds each has a turn, and the turns
    of the first are PRIMARY, those of the second SECONDARY and those
    of the third keep the raw label. *)
Theorem roles_follow_speaking_time (aligned : list SpeakerSeg) :
  (forall k, speaks aligned k ->
     exists t, In t (conversation_of aligned) /\ t_speaker_raw t = k)
  /\ (forall t, In t (conversation_of aligned) ->
        speaks aligned (t_speaker_raw t)
        /\ ranked_role aligned (t_speaker_raw t) (t_role t)
        /\ ((forall x, speaks aligned x -> x = t_speaker_raw t) ->
            t_role t = PRIMARY))
  /\ (aligned <> [] ->
      exists t, In t (conversation_of aligned)
                /\ t_role t = PRIMARY /\ tops aligned [] (t_speaker_raw t))
  /\ (forall k1 k2, speaks aligned k1 -> speaks aligned k2 -> k1 <> k2 ->
      exists t p, In t (conversation_of aligned)
                  /\ t_role t = SECONDARY
                  /\ speaks aligned p /\ p <> t_speaker_raw t
                  /\ tops aligned [] p /\ tops aligned [p] (t_speaker_raw t))
  /\ (forall a b c,
        (forall x, speaks aligned x -> x = a \/ x = b \/ x = c) ->
        speaking_time aligned a == 40 ->
        speaking_time aligned b == 25 ->
        speaking_time aligned c == 10 ->
        (exists t, In t (conversation_of aligned)
                   /\ t_speaker_raw t = a /\ t_role t = PRIMARY)
        /\ (exists t, In t (conversation_of aligned)
                      /\ t_speaker_raw t = b /\ t_role t = SECONDARY)
        /\ (exists t, In t (conversation_of aligned)
                      /\ t_speaker_raw t = c /\ t_role t = c)
        /\ forall t, In t (conversation_of aligned) ->
             (t_speaker_raw t = a -> t_role t = PRIMARY)
             /\ (t_speaker_raw t = b -> t_role t = SECONDARY)
             /\ (t_speaker_raw t = c -> t_role t = c)).
Proof.
  split; [intros k; apply conversation_speakers|].
  split.
  { intros t H. destruct (turn_ranked aligned t H) as [Hs R].
    split; [exact Hs|]. split; [exact R|]. intro Hone.
    destruct R as [[Hr _] | [(_ & p & Hp & Hn & _) | (_ & p & s & Hp & _ & _ & Hn & _)]];
      [exact Hr | |]; exfalso; apply Hn; now apply Hone. }
  split; [apply primary_turn|].
  split; [apply secondary_turn|].
  intros a b c Hall Ta Tb Tc.
  assert (Each : forall t, In t (conversation_of aligned) ->
             (t_speaker_raw t = a -> t_role t = PRIMARY)
             /\ (t_speaker_raw t = b -> t_role t = SECONDARY)
             /\ (t_speaker_raw t = c -> t_role t = c)).
  { intros t H. destruct (turn_ranked aligned t H) as [_ R].
    exact (three_speaker_roles aligned a b c _ _ Hall Ta Tb Tc R). }
  assert (Turn : forall k, 0 < speaking_time aligned k ->
             exists t, In t (conversation_of aligned) /\ t_speaker_raw t = k).
  { intros k Hk. apply conversation_speakers. now apply speaks_of_time. }
  destruct (Turn a) as (ta & Ha & Ea); [rewrite Ta; reflexivity|].
  destruct (Turn b) as (tb & Hb & Eb); [rewrite Tb; reflexivity|].
  destruct (Turn c) as (tc & Hc & Ec); [rewrite Tc; reflexivity|].
  split; [exists ta; split; [exact Ha|]; split; [exact Ea|];
          now apply (Each ta Ha)|].
  split; [exists tb; split; [exact Hb|]; split; [exact Eb|];
          now apply (Each tb Hb)|].
  split; [exists tc; split; [exact Hc|]; split; [exact Ec|];
          now apply (Each tc Hc)|].
  exact Each.
Qed.

Lemma roles_follow_speaking_time_witness :
  let segs := [mkSpeakerSeg 0 40 "SPEAKER_00" "first" (1 # 2);
               mkSpeakerSeg 40 65 "SPEAKER_01" "second" (1 # 2);
               mkSpeakerSeg 65 75 "SPEAKER_02" "third" (1 # 2)] in
  (exists t, In t (conversation_of segs)
             /\ t_speaker_raw t = "SPEAKER_00" /\ t_role t = PRIMARY)
  /\ (exists t, In t (conversation_of segs)
                /\ t_speaker_raw t = "SPEAKER_01" /\ t_role t = SECONDARY)
  /\ (exists t, In t (conversation_of segs)
                /\ t_speaker_raw t = "SPEAKER_02" /\ t_role t = "SPEAKER_02").
Proof.
  intro segs.
  destruct (proj2 (proj2 (proj2 (proj2 (roles_follow_speaking_time segs))))
              "SPEAKER_00" "SPEAKER_01" "SPEAKER_02") as (Ha & Hb & Hc & _).
  - intros x [<- | [<- | [<- | []]]]; auto.
  - reflexivity.
  - reflexivity.
  - reflexivity.
  - auto.
Defined.

(* ================================================================== *)
(** ** Empty inputs and conversation statistics *)
(* ================================================================== *)

(** *** What [float] raises *)

Lemma numeric_dec (s : PyRecord) : {numeric s} + {~ numeric s}.
Proof.
  unfold numeric. destruct (p_start s) as [[q|]|], (p_end s) as [[q'|]|];
    try (left; try split; (exact I || discriminate));
    right; intros [H1 H2]; congruence.
Qed.

Lemma normalise_one_returns (s : PyRecord) :
  numeric s -> exists l, Raising.normalise_one s = Returns l.
Proof.
  unfold numeric, Raising.normalise_one.
  destruct (p_start s) as [[q|]|], (p_end s) as [[q'|]|]; simpl;
    intro H; try (eexists; reflexivity); destruct H; congruence.
Qed.

Lemma normalise_one_raises (s : PyRecord) :
  ~ numeric s -> Raising.normalise_one s = Raises TypeError.
Proof.
  unfold numeric, Raising.normalise_one.
  destruct (p_start s) as [[q|]|], (p_end s) as [[q'|]|]; simpl;
    intro H; try reflexivity; exfalso; apply H;
    try exact I; split; discriminate.
Qed.

Lemma normalise_returns (l : list PyRecord) :
  Forall numeric l -> exists asr, Raising.normalise l = Returns asr.
Proof.
  induction 1 as [|s l Hs _ [rest IH]]; [now exists []|].
  destruct (normalise_one_returns s Hs) as [one H1].
  exists (one ++ rest)%list. simpl. now rewrite H1, IH.
Qed.

Lemma normalise_raises (l : list PyRecord) :
  ~ Forall numeric l -> Raising.normalise l = Raises TypeError.
Proof.
  induction l as [|s l IH]; intro H; [exfalso; apply H; constructor|].
  simpl. destruct (numeric_dec s) as [Hs | Hs].
  - destruct (normalise_one_returns s Hs) as [one ->]. simpl.
    rewrite IH; [reflexivity|]. intro F. apply H. now constructor.
  - now rewrite (normalise_one_raises s Hs).
Qed.

(** On records that hold numbers, the raising functions return what
    the functions on [RawAsr] return. *)
Lemma normalise_of_raw (l : list RawAsr) :
  Raising.normalise (map of_raw l) = Returns (flat_map normalise_one l).
Proof.
  induction l as [|s l IH]; [reflexivity|].
  cbn [map Raising.normalise flat_map]. rewrite IH.
  unfold Raising.normalise_one, normalise_one, of_raw. simpl.
  destruct (raw_start s), (raw_end s); reflexivity.
Qed.

Lemma extract_of_typed (asr_result : AsrResult) :
  Raising._extract_asr_segments (of_typed asr_result)
  = Returns (_extract_asr_segments asr_result).
Proof.
  unfold Raising._extract_asr_segments, _extract_asr_segments.
  destruct asr_result as [[l|] [m|] | l | ]; simpl;
    try apply normalise_of_raw; reflexivity.
Qed.

Lemma align_of_typed (exp : Q -> Q) (asr_result : AsrResult) (diar : list Diar) :
  Raising.align exp (of_typed asr_result) (Some diar)
  = Returns (align exp asr_result diar).
Proof.
  unfold Raising.align. rewrite extract_of_typed. reflexivity.
Qed.

(** C9. [align] normalises the recognition records before it tests
    the two lists for emptiness.  When every record it walks through
    that has both ["start"] and ["end"] holds numbers there,
    normalisation returns, and if then the diarization list is empty
    or [None], or no recognition segment is left, [align] returns the
    empty list, [build_conversation] no turn, and on what [align]
    returned [compute_speaker_stats] and [compute_conversation_stats]
    give the empty dictionary.  When a record holds [None] under one
    of the two keys and has the other, [align] and
    [build_conversation] raise [TypeError], whatever the diarization
    list is. *)
Theorem empty_input_gives_empty_results (exp : Q -> Q)
  (asr_result : PyAsrResult) (diar : option (list Diar)) :
  (Forall numeric (selected asr_result) ->
   exists asr,
     Raising._extract_asr_segments asr_result = Returns asr
     /\ (or_default diar [] = [] \/ asr = [] ->
         Raising.align exp asr_result diar = Returns []
         /\ Raising.build_conversation exp asr_result diar = Returns []
         /\ forall out,
              Raising.align exp asr_result diar = Returns out ->
              compute_speaker_stats out = []
              /\ forall ds, compute_conversation_stats out ds = None))
  /\ (~ Forall numeric (selected asr_result) ->
      Raising.align exp asr_result diar = Raises TypeError
      /\ Raising.build_conversation exp asr_result diar = Raises TypeError).
Proof.
  split.
  - intro H. destruct (normalise_returns _ H) as [asr E].
    exists asr. split; [exact E|]. intro Hempty.
    assert (A : Raising.align exp asr_result diar = Returns []).
    { unfold Raising.align. unfold Raising._extract_asr_segments. rewrite E.
      simpl. destruct Hempty as [-> | ->]; [|reflexivity].
      now destruct asr. }
    split; [exact A|]. unfold Raising.build_conversation. rewrite A.
    split; [reflexivity|]. intros out Hout. injection Hout as <-.
    split; reflexivity.
  - intro H. apply normalise_raises in H.
    unfold Raising.build_conversation, Raising.align,
      Raising._extract_asr_segments.
    rewrite H. split; reflexivity.
Qed.

Lemma empty_input_gives_empty_results_witness :
  let asr := PyList [mkPyRecord (Some (PyNumber 0)) (Some (PyNumber (3 # 2)))
                       (Some "hello world") None None;
                     mkPyRecord None (Some PyNone) (Some "skipped") None None] in
  Raising.align (fun _ => 1) asr None = Returns []
  /\ Raising.build_conversation (fun _ => 1) asr None = Returns [].
Proof.
  intro asr.
  destruct (proj1 (empty_input_gives_empty_results (fun _ => 1) asr None))
    as (out & _ & H).
  - repeat constructor; discriminate.
  - destruct (H (or_introl eq_refl)) as (A & B & _). split; [exact A | exact B].
Defined.

(** C9 as stated fails on a record that has both keys and [None]
    under ["start"]: with an empty diarization list [align] raises
    [TypeError] in [float], before the test for emptiness is
    reached. *)
Lemma align_raises_counterexample :
  Raising.align (fun _ => 1)
    (PyList [mkPyRecord (Some PyNone) (Some (PyNumber 1)) (Some "hi") None None])
    (Some [])
  = Raises TypeError
  /\ Raising.align (fun _ => 1)
       (PyList [mkPyRecord (Some PyNone) (Some (PyNumber 1)) (Some "hi") None None])
       (Some [])
     <> Returns [].
Proof. split; [reflexivity | discriminate]. Qed.

(** C10. With speaker segments and diarization intervals both
    present, [compute_conversation_stats] takes [conversation_start]
    from the first diarization entry by position and
    [conversation_end] from the last one by position, without sorting
    and without taking a minimum or maximum, and [total_duration] is
    their difference; so a diarization list that is not in time order
    can give a negative [total_duration], as the one below does. *)
Theorem conversation_bounds_are_positional
  (segs : list SpeakerSeg) (ds pre tl : list Diar) (d0 dl : Diar) :
  segs <> [] -> ds = d0 :: tl -> ds = (pre ++ [dl])%list ->
  (exists st,
      compute_conversation_stats segs ds = Some st
      /\ conversation_start st = d_start d0
      /\ conversation_end st = d_end dl
      /\ total_duration st = d_end dl - d_start d0)
  /\ (exists st,
         compute_conversation_stats
           [mkSpeakerSeg 0 1 "SPEAKER_00" "hi" (1 # 2)]
           [mkDiar 5 6 "SPEAKER_01"; mkDiar 0 1 "SPEAKER_00"] = Some st
         /\ total_duration st < 0).
Proof.
  intros Hs Hd Hl. split.
  - destruct segs as [|s0 segs]; [contradiction|].
    subst ds. unfold compute_conversation_stats.
    eexists. split; [reflexivity|].
    cbn [conversation_start conversation_end total_duration].
    rewrite Hl, last_last. repeat split.
  - eexists. split; [reflexivity|]. vm_compute. reflexivity.
Qed.

Lemma conversation_bounds_are_positional_witness :
  exists st,
    compute_conversation_stats
      [mkSpeakerSeg 0 1 "SPEAKER_00" "hi" (1 # 2)]
      [mkDiar 5 6 "SPEAKER_01"; mkDiar 2 3 "SPEAKER_00"; mkDiar 0 1 "SPEAKER_00"]
    = Some st
    /\ conversation_start st = 5
    /\ conversation_end st = 1
    /\ total_duration st = 1 - 5.
Proof.
  refine (proj1 (conversation_bounds_are_positional
                   [mkSpeakerSeg 0 1 "SPEAKER_00" "hi" (1 # 2)]
                   [mkDiar 5 6 "SPEAKER_01"; mkDiar 2 3 "SPEAKER_00";
                    mkDiar 0 1 "SPEAKER_00"]
                   [mkDiar 5 6 "SPEAKER_01"; mkDiar 2 3 "SPEAKER_00"]
                   [mkDiar 2 3 "SPEAKER_00"; mkDiar 0 1 "SPEAKER_00"]
                   (mkDiar 5 6 "SPEAKER_01") (mkDiar 0 1 "SPEAKER_00") _ _ _)).
  - discriminate.
  - reflexivity.
  - reflexivity.
Defined.

(* ================================================================== *)
(** ** The pipeline on concrete inputs *)
(* ================================================================== *)

(** The scenario of the test suite: two recognition segments, two
    speakers, no merge. *)
Example scenario_two_speakers :
  align (fun _ => 1)
    (AsrDict
       (Some [mkRawAsr (Some 0) (Some (3 # 2)) (Some "hello world") None None;
              mkRawAsr (Some (8 # 5)) (Some (7 # 2)) (Some "how are you") None None])
       None)
    [mkDiar 0 (3 # 2) "SPEAKER_00"; mkDiar (8 # 5) (7 # 2) "SPEAKER_01"]
  = [mkSpeakerSeg (0 / 1000) (1500 / 1000) "SPEAKER_00" "hello world" (1 # 2);
     mkSpeakerSeg (1600 / 1000) (3500 / 1000) "SPEAKER_01" "how are you" (1 # 2)].
Proof. vm_compute. reflexivity. Qed.

(** A negative gap reaches [_merge_blocks] through the pipeline: the
    interval of the second speaker holds no word and is skipped, which
    makes two overlapping intervals of the first speaker neighbours;
    they are not merged. *)
Example scenario_negative_gap :
  map (fun s => (start s, end_ s, speaker s, text s))
    (align (fun _ => 1)
       (AsrList [mkRawAsr (Some 0) (Some 1) (Some "hello") None None;
                 mkRawAsr (Some 3) (Some 4) (Some "bye") None None])
       [mkDiar 0 5 "SPEAKER_00"; mkDiar 1 2 "SPEAKER_01"; mkDiar 3 4 "SPEAKER_00"])
  = [(0 / 1000, 5000 / 1000, "SPEAKER_00", "hello bye");
     (3000 / 1000, 4000 / 1000, "SPEAKER_00", "bye")].
Proof. vm_compute. reflexivity. Qed.

(** Of two recognition segments that share the same time with a block,
    the scan keeps the first. *)
Example scenario_tie_keeps_first :
  _best_diar_for_asr 0 4
    [mkAsrSeg 5 6 "none" (-1) 0; mkAsrSeg 0 2 "first" (-1) 0;
     mkAsrSeg 2 4 "second" (-2) 0; mkAsrSeg 1 2 "short" (-3) 0]
  = Some (mkAsrSeg 0 2 "first" (-1) 0).
Proof. vm_compute. reflexivity. Qed.

(** The statistics scenario: a diarization span of [[0, 10]] and two
    speaker segments of six words. *)
Example scenario_conversation_stats :
  option_map (fun st => (total_duration st, speaker_count st, cs_total_words st))
    (compute_conversation_stats
       [mkSpeakerSeg 0 4 "SPEAKER_00" "one two three" (1 # 2);
        mkSpeakerSeg 5 10 "SPEAKER_01" "four five six" (1 # 2)]
       [mkDiar 0 4 "SPEAKER_00"; mkDiar 5 10 "SPEAKER_01"])
  = Some (10 - 0, 2%nat, 6%nat).
Proof. vm_compute. reflexivity. Qed.

(** An inverted diarization interval that one word spans is emitted
    as it is: the data model's [start <= end] is needed on the
    input. *)
Example scenario_inverted_diarization :
  map (fun s => (start s, end_ s, speaker s, text s))
    (align (fun _ => 1)
       (AsrList [mkRawAsr (Some 0) (Some 10) (Some "well") None None])
       [mkDiar 5 3 "SPEAKER_00"])
  = [(5000 / 1000, 3000 / 1000, "SPEAKER_00", "well")].
Proof. vm_compute. reflexivity. Qed.

(* ================================================================== *)
(** ** Words are kept *)
(* ================================================================== *)

(** *** [split] against [strip], [join] and concatenation *)

Lemma split_nonspace (c : ascii) (s : string) :
  Py.is_space c = false ->
  exists w ws, Py.split (String c s) = String c w :: ws.
Proof.
  intro E. simpl. rewrite E.
  destruct s as [|c' s']; [now exists "", []|].
  destruct (Py.is_space c'); [now exists "", (Py.split (String c' s'))|].
  destruct (Py.split (String c' s')) as [|w ws]; [now exists "", []|].
  now exists w, ws.
Qed.

(** A space between two texts separates their words. *)
Lemma split_app_space (a b : string) :
  Py.split (a ++ " " ++ b) = (Py.split a ++ Py.split b)%list.
Proof.
  induction a as [|c a IH]; [reflexivity|].
  change (String c a ++ " " ++ b) with (String c (a ++ " " ++ b)).
  destruct (Py.is_space c) eqn:Ec.
  - simpl. rewrite Ec. exact IH.
  - destruct a as [|c' a'].
    + simpl. rewrite Ec. reflexivity.
    + change (Py.split (String c (String c' a' ++ " " ++ b)))
        with (if Py.is_space c then Py.split (String c' a' ++ " " ++ b)
              else if Py.is_space c'
                   then String c "" :: Py.split (String c' a' ++ " " ++ b)
                   else match Py.split (String c' a' ++ " " ++ b) with
                        | w :: ws => String c w :: ws
                        | [] => [String c ""]
                        end).
      change (Py.split (String c (String c' a')))
        with (if Py.is_space c then Py.split (String c' a')
              else if Py.is_space c'
                   then String c "" :: Py.split (String c' a')
                   else match Py.split (String c' a') with
                        | w :: ws => String c w :: ws
                        | [] => [String c ""]
                        end).
      rewrite Ec, IH.
      destruct (Py.is_space c') eqn:Ec'; [reflexivity|].
      destruct (split_nonspace c' a' Ec') as (w & ws & ->). reflexivity.
Qed.

Lemma split_lstrip (s : string) : Py.split (Py.lstrip s) = Py.split s.
Proof.
  induction s as [|c s IH]; [reflexivity|].
  simpl Py.lstrip. destruct (Py.is_space c) eqn:E; [|reflexivity].
  simpl. now rewrite E.
Qed.

Lemma rstrip_empty (c : ascii) (s : string) :
  Py.rstrip (String c s) = "" -> Py.is_space c = true /\ Py.rstrip s = "".
Proof.
  simpl. destruct (Py.rstrip s); [|discriminate].
  destruct (Py.is_space c); [auto | discriminate].
Qed.

Lemma split_rstrip (s : string) : Py.split (Py.rstrip s) = Py.split s.
Proof.
  induction s as [|c s IH]; [reflexivity|].
  destruct (Py.rstrip s) as [|a r] eqn:Er.
  - (* only white space after [c] *)
    assert (Hs : Py.split s = []) by (now rewrite <- IH).
    simpl Py.rstrip. rewrite Er.
    destruct (Py.is_space c) eqn:Ec.
    + simpl. now rewrite Ec.
    + simpl. rewrite Ec. destruct s as [|c' s']; [reflexivity|].
      destruct (rstrip_empty _ _ Er) as [Ec' _]. rewrite Ec'.
      now rewrite Hs.
  - destruct (rstrip_head _ _ _ Er) as [s' ->].
    change (Py.rstrip (String c (String a s')))
      with (match Py.rstrip (String a s') with
            | EmptyString =>
                if Py.is_space c then EmptyString else String c EmptyString
            | r0 => String c r0
            end).
    rewrite Er.
    change (Py.split (String c (String a r)))
      with (if Py.is_space c then Py.split (String a r)
            else if Py.is_space a
                 then String c "" :: Py.split (String a r)
                 else match Py.split (String a r) with
                      | w :: ws => String c w :: ws
                      | [] => [String c ""]
                      end).
    change (Py.split (String c (String a s')))
      with (if Py.is_space c then Py.split (String a s')
            else if Py.is_space a
                 then String c "" :: Py.split (String a s')
                 else match Py.split (String a s') with
                      | w :: ws => String c w :: ws
                      | [] => [String c ""]
                      end).
    now rewrite IH.
Qed.

(** Stripping a text does not change its words. *)
Lemma split_strip (s : string) : Py.split (Py.strip s) = Py.split s.
Proof. unfold Py.strip. now rewrite split_rstrip, split_lstrip. Qed.

Lemma split_token (w : string) : token w -> Py.split w = [w].
Proof.
  intros [Hne Hs]. induction w as [|c w IH]; [contradiction|].
  simpl in Hs. apply andb_true_iff in Hs as [Hc Hs].
  apply negb_true_iff in Hc.
  destruct w as [|c' w']; [simpl; now rewrite Hc|].
  change (Py.split (String c (String c' w')))
    with (if Py.is_space c then Py.split (String c' w')
          else if Py.is_space c'
               then String c "" :: Py.split (String c' w')
               else match Py.split (String c' w') with
                    | x :: xs => String c x :: xs
                    | [] => [String c ""]
                    end).
  rewrite Hc, IH by (discriminate || exact Hs).
  simpl in Hs. apply andb_true_iff in Hs as [Hc' _].
  apply negb_true_iff in Hc'. now rewrite Hc'.
Qed.

(** Splitting what was joined gives the tokens back. *)
Lemma split_join_tokens (ws : list string) :
  Forall token ws -> Py.split (Py.join " " ws) = ws.
Proof.
  induction ws as [|w tl IH]; intro H; [reflexivity|].
  inversion H as [|? ? Hw Htl]; subst.
  destruct tl as [|w' tl'].
  - simpl. now apply split_token.
  - change (Py.join " " (w :: w' :: tl'))
      with (w ++ " " ++ Py.join " " (w' :: tl')).
    rewrite split_app_space, (split_token w Hw), (IH Htl). reflexivity.
Qed.

(** *** The word estimator *)

Lemma slice_words_map st en wd n (l : list string) : forall i,
  map word (slice_words st en wd n i l) = l.
Proof.
  induction l as [|w l IH]; intro i; [reflexivity|].
  simpl. now rewrite IH.
Qed.

Lemma segment_words_map (seg : AsrSeg) :
  map word (segment_words seg) = Py.split (a_text seg).
Proof.
  unfold segment_words. destruct (a_text seg) as [|c t] eqn:E; [reflexivity|].
  simpl Py.is_empty. cbv iota.
  destruct (Py.split (String c t)) as [|w0 rest] eqn:E2; [reflexivity|].
  apply slice_words_map.
Qed.

(** X1. [_to_word_segments] keeps every word: the words of the
    intervals it returns are the white-space separated words of the
    segments' texts, segment after segment and in reading order,
    whatever the time stamps are. *)
Theorem word_segments_keep_words (asr_segments : list AsrSeg) :
  map word (_to_word_segments asr_segments)
  = flat_map (fun seg => Py.split (a_text seg)) asr_segments.
Proof.
  unfold _to_word_segments.
  induction asr_segments as [|seg rest IH]; [reflexivity|].
  simpl. now rewrite map_app, segment_words_map, IH.
Qed.

(** *** The speaker mapper *)

Section AscendingFacts.
Context {A : Type}.
Variable key : A -> Q.

Lemma ascending_head_le (a : A) (l : list A) :
  ascending key (a :: l) -> forall x, In x l -> key a <= key x.
Proof.
  revert a. induction l as [|b tl IH]; intros a H x Hx; [contradiction|].
  destruct H as [Hab H]. destruct Hx as [<- | Hx]; [exact Hab|].
  eapply Qle_trans; [exact Hab | now apply (IH b)].
Qed.

Lemma ascending_intro (a : A) (l : list A) :
  ascending key l -> (forall x, In x l -> key a <= key x) ->
  ascending key (a :: l).
Proof.
  intros H Hle. destruct l as [|b tl]; [exact I|].
  split; [apply Hle; now left | exact H].
Qed.

End AscendingFacts.

Lemma map_one_cases (ws : list WordSeg) (d : Diar) :
  map_one ws d = []
  \/ exists txt, map_one ws d
                 = [mkBlock (Py.round3 (d_start d)) (Py.round3 (d_end d))
                      (d_speaker d) txt]
                 /\ exists w, In w ws /\ overlaps d w = true.
Proof.
  unfold map_one. destruct (filter (overlaps d) ws) as [|w l] eqn:E; [now left|].
  right. eexists. split; [reflexivity|].
  exists w. apply filter_In. rewrite E. now left.
Qed.

Lemma mapper_unfold (ws : list WordSeg) (ds : list Diar) :
  _align_words_to_diarization ws ds
  = flat_map (map_one (Py.sorted w_start ws)) (Py.sorted d_start ds).
Proof.
  unfold _align_words_to_diarization.
  destruct ws as [|w0 ws']; [|destruct ds; reflexivity].
  induction (Py.sorted d_start ds) as [|d l IH]; [reflexivity|].
  simpl. destruct ds; exact IH.
Qed.

Lemma flat_map_one_ascending (ws : list WordSeg) (l : list Diar) :
  ascending d_start l ->
  ascending b_start (flat_map (map_one ws) l)
  /\ forall b, In b (flat_map (map_one ws) l) ->
               exists d, In d l /\ b_start b = Py.round3 (d_start d).
Proof.
  induction l as [|d l IH]; intro H; [split; [exact I | intros b []]|].
  pose proof (ascending_head_le d_start d l H) as Hhead.
  destruct (IH (ascending_tail _ _ _ H)) as [IHa IHb].
  simpl. destruct (map_one_cases ws d) as [-> | (txt & -> & _)].
  - split; [exact IHa|]. intros b Hb.
    destruct (IHb b Hb) as (d' & Hd' & E). exists d'. split; [now right | exact E].
  - split.
    + apply ascending_intro; [exact IHa|]. intros x Hx.
      destruct (IHb x Hx) as (d' & Hd' & ->). simpl.
      apply round3_mono. now apply Hhead.
    + intros b [<- | Hb]; [exists d; split; [now left | reflexivity]|].
      destruct (IHb b Hb) as (d' & Hd' & E). exists d'. split; [now right | exact E].
Qed.

Lemma mapper_ascending (ws : list WordSeg) (ds : list Diar) :
  ascending b_start (_align_words_to_diarization ws ds).
Proof.
  rewrite mapper_unfold.
  apply flat_map_one_ascending, sorted_ascending.
Qed.

Lemma flat_map_one_length (ws : list WordSeg) (l : list Diar) :
  (List.length (flat_map (map_one ws) l) <= List.length l)%nat.
Proof.
  induction l as [|d l IH]; [simpl; lia|].
  simpl. rewrite length_app.
  destruct (map_one_cases ws d) as [-> | (txt & -> & _)]; simpl; lia.
Qed.

Lemma mapper_provenance (ws : list WordSeg) (ds : list Diar) (b : Block) :
  In b (_align_words_to_diarization ws ds) ->
  exists d w,
    In d ds /\ In w ws /\ overlaps d w = true
    /\ b_start b = Py.round3 (d_start d)
    /\ b_end b = Py.round3 (d_end d)
    /\ b_speaker b = d_speaker d.
Proof.
  rewrite mapper_unfold. intro H.
  apply in_flat_map in H as (d & Hd & Hb). apply sorted_In in Hd.
  destruct (map_one_cases (Py.sorted w_start ws) d)
    as [E | (txt & E & w & Hw & Ho)]; rewrite E in Hb; [contradiction|].
  destruct Hb as [<- | []]. apply sorted_In in Hw.
  exists d, w. repeat split; assumption.
Qed.

(** X2. What [_align_words_to_diarization] returns comes from the
    diarization: every block has the speaker and the rounded start
    and end of one diarization interval that some word interval
    overlaps; there are at most as many blocks as intervals; and the
    blocks are in order of start. *)
Theorem mapper_blocks_come_from_diarization
  (ws : list WordSeg) (ds : list Diar) :
  (forall b, In b (_align_words_to_diarization ws ds) ->
     exists d w,
       In d ds /\ In w ws /\ overlaps d w = true
       /\ b_start b = Py.round3 (d_start d)
       /\ b_end b = Py.round3 (d_end d)
       /\ b_speaker b = d_speaker d)
  /\ (List.length (_align_words_to_diarization ws ds) <= List.length ds)%nat
  /\ ascending b_start (_align_words_to_diarization ws ds).
Proof.
  split; [intros b; apply mapper_provenance|].
  split; [|apply mapper_ascending].
  rewrite mapper_unfold, <- (sorted_length d_start ds).
  apply flat_map_one_length.
Qed.

Lemma mapper_blocks_come_from_diarization_witness :
  let ws := [mkWordSeg 0 1 "hello"; mkWordSeg 1 2 "there"] in
  let ds := [mkDiar 0 (3 # 2) "SPEAKER_00"] in
  let b := hd (mkBlock 0 0 "" "") (_align_words_to_diarization ws ds) in
  exists d w,
    In d ds /\ In w ws /\ overlaps d w = true
    /\ b_start b = Py.round3 (d_start d)
    /\ b_end b = Py.round3 (d_end d)
    /\ b_speaker b = d_speaker d.
Proof.
  intros ws ds b.
  refine (proj1 (mapper_blocks_come_from_diarization ws ds) b _).
  vm_compute. left. reflexivity.
Defined.

Lemma spec_block_words (ws : list WordSeg) (d : Diar) :
  Forall (fun w => token (word w)) ws ->
  flat_map block_words
    (if existsb (overlaps d) ws
     then [mkBlock (Py.round3 (d_start d)) (Py.round3 (d_end d)) (d_speaker d)
             (Py.join " " (words_in ws d))]
     else [])
  = words_in ws d.
Proof.
  intro HT. destruct (existsb (overlaps d) ws) eqn:E.
  - simpl. rewrite app_nil_r. unfold block_words. simpl.
    apply split_join_tokens. now apply selected_tokens.
  - apply filter_sorted_nil in E. unfold words_in. now rewrite E.
Qed.

Lemma mapper_words (ws : list WordSeg) (ds : list Diar) :
  Forall (fun w => token (word w)) ws ->
  flat_map block_words (_align_words_to_diarization ws ds)
  = flat_map (words_in ws) (Py.sorted d_start ds).
Proof.
  intro HT. rewrite (mapper_eq_spec ws ds HT). unfold mapper_spec.
  induction (Py.sorted d_start ds) as [|d l IH]; [reflexivity|].
  simpl. rewrite flat_map_app, IH. f_equal.
  exact (spec_block_words ws d HT).
Qed.

(** X3. [_align_words_to_diarization] loses no word that it should
    keep: the words being tokens, a diarization interval that a word
    interval overlaps gets a block whose words are exactly the words
    overlapping the interval, in order of start, that word among
    them; and the words of all blocks, read in order, are the
    overlapping words of the intervals taken in order of start. *)
Theorem mapper_keeps_overlapping_words
  (ws : list WordSeg) (ds : list Diar) :
  Forall (fun w => token (word w)) ws ->
  (forall d w, In d ds -> In w ws -> overlaps d w = true ->
     exists b,
       In b (_align_words_to_diarization ws ds)
       /\ b_speaker b = d_speaker d
       /\ b_start b = Py.round3 (d_start d)
       /\ b_end b = Py.round3 (d_end d)
       /\ block_words b = words_in ws d
       /\ In (word w) (block_words b))
  /\ flat_map block_words (_align_words_to_diarization ws ds)
     = flat_map (words_in ws) (Py.sorted d_start ds).
Proof.
  intro HT. split; [|now apply mapper_words].
  intros d w Hd Hw Ho.
  rewrite (mapper_eq_spec ws ds HT). unfold mapper_spec.
  assert (Ex : existsb (overlaps d) ws = true)
    by (apply existsb_exists; eauto).
  exists (mkBlock (Py.round3 (d_start d)) (Py.round3 (d_end d)) (d_speaker d)
            (Py.join " " (words_in ws d))).
  assert (Hbw : block_words
                  (mkBlock (Py.round3 (d_start d)) (Py.round3 (d_end d))
                     (d_speaker d) (Py.join " " (words_in ws d)))
                = words_in ws d).
  { unfold block_words. simpl. apply split_join_tokens.
    now apply selected_tokens. }
  split.
  - apply in_flat_map. exists d. split; [now apply sorted_In|].
    rewrite Ex. now left.
  - repeat (split; [reflexivity|]). split; [exact Hbw|].
    rewrite Hbw. unfold words_in. apply in_map.
    apply filter_In. split; [now apply sorted_In | exact Ho].
Qed.

Lemma mapper_keeps_overlapping_words_witness :
  flat_map block_words
    (_align_words_to_diarization
       [mkWordSeg (3 # 4) (3 # 2) "world"; mkWordSeg 0 (3 # 4) "hello";
        mkWordSeg 4 5 "bye"]
       [mkDiar 4 6 "SPEAKER_01"; mkDiar 0 (3 # 2) "SPEAKER_00"])
  = ["hello"; "world"; "bye"].
Proof.
  refine (eq_trans (proj2 (mapper_keeps_overlapping_words _ _ _)) _).
  - repeat constructor; discriminate.
  - vm_compute. reflexivity.
Defined.

(** *** Merging *)

Lemma absorb_words (last seg : Block) :
  block_words (absorb last seg) = (block_words last ++ block_words seg)%list.
Proof.
  unfold block_words, absorb. cbn [b_text]. rewrite split_strip.
  exact (split_app_space (b_text last) (b_text seg)).
Qed.

Lemma merge_from_words (g : Q) (rest : list Block) :
  forall last,
    flat_map block_words (merge_from g last rest)
    = (block_words last ++ flat_map block_words rest)%list.
Proof.
  induction rest as [|seg rest IH]; intro last.
  - reflexivity.
  - cbn [merge_from]. destruct (mergeable g last seg).
    + rewrite IH, absorb_words, <- app_assoc. reflexivity.
    + cbn [flat_map]. rewrite IH. reflexivity.
Qed.

Lemma merge_from_length (g : Q) (rest : list Block) :
  forall last,
    (1 <= List.length (merge_from g last rest) <= S (List.length rest))%nat.
Proof.
  induction rest as [|seg rest IH]; intro last; simpl; [lia|].
  destruct (mergeable g last seg).
  - specialize (IH (absorb last seg)). lia.
  - specialize (IH seg). simpl. lia.
Qed.

Lemma merge_blocks_words (segments : list Block) (g : Q) :
  flat_map block_words (_merge_blocks segments g)
  = flat_map block_words (Py.sorted b_start segments).
Proof.
  rewrite merge_blocks_eq.
  destruct (Py.sorted b_start segments) as [|s0 rest]; [reflexivity|].
  apply merge_from_words.
Qed.

Lemma merge_blocks_length (segments : list Block) (g : Q) :
  (List.length (_merge_blocks segments g) <= List.length segments)%nat
  /\ (segments <> [] -> _merge_blocks segments g <> []).
Proof.
  rewrite merge_blocks_eq, <- (sorted_length b_start segments).
  destruct (Py.sorted b_start segments) as [|s0 rest] eqn:E.
  - split; [simpl; lia|]. intro H.
    destruct segments as [|x l]; [contradiction|].
    pose proof (sorted_length b_start (x :: l)) as L. rewrite E in L.
    discriminate.
  - pose proof (merge_from_length g rest s0) as L.
    split; [simpl; lia|]. intros _ F. rewrite F in L. simpl in L. lia.
Qed.

(** X4. [_merge_blocks] neither loses, adds nor reorders a word: the
    words of the blocks it returns, read in order, are the words of
    the input blocks read in order of start, for every gap
    threshold.  It returns at most as many blocks as it is given,
    and at least one when it is given any. *)
Theorem merge_keeps_words (segments : list Block) (max_gap : Q) :
  flat_map block_words (_merge_blocks segments max_gap)
  = flat_map block_words (Py.sorted b_start segments)
  /\ (List.length (_merge_blocks segments max_gap) <= List.length segments)%nat
  /\ (segments <> [] -> _merge_blocks segments max_gap <> []).
Proof.
  split; [apply merge_blocks_words | apply merge_blocks_length].
Qed.

Lemma merge_keeps_words_witness :
  _merge_blocks [mkBlock 0 1 "SPEAKER_00" "hello";
                 mkBlock 1 2 "SPEAKER_00" "there"] MAX_GAP <> [].
Proof.
  refine (proj2 (proj2 (merge_keeps_words
                          [mkBlock 0 1 "SPEAKER_00" "hello";
                           mkBlock 1 2 "SPEAKER_00" "there"] MAX_GAP)) _).
  discriminate.
Defined.

Lemma groups_from_hull (g : Q) (rest : list Block) :
  forall last grp,
    b_start last <= b_end last -> hull_of last grp ->
    Forall proper_block rest ->
    Forall2 hull_of (merge_from g last rest) (groups_from g last grp rest)
    /\ Forall proper_block (merge_from g last rest).
Proof.
  induction rest as [|seg rest IH]; intros last grp Hl Hh Hr; simpl.
  - split; [constructor; [exact Hh | constructor]|].
    constructor; [exact Hl | constructor].
  - inversion Hr as [|? ? Hseg Hrest]; subst. unfold proper_block in Hseg.
    destruct (mergeable g last seg) eqn:E.
    + apply mergeable_spec in E as [_ [Hg _]]. unfold gap in Hg.
      destruct Hh as (Hne & Hs & He & Hin).
      apply IH; [simpl; lra | | exact Hrest].
      split; [now destruct grp|]. split; [|split].
      * simpl b_start. rewrite Hs. now destruct grp.
      * now rewrite last_last.
      * intros x Hx. simpl.
        apply in_app_or in Hx as [Hx | [<- | []]]; [|lra].
        destruct (Hin x Hx). lra.
    + destruct (IH seg [seg] Hseg) as [F2 Fp]; [|exact Hrest|].
      * split; [discriminate|]. split; [reflexivity|]. split; [reflexivity|].
        intros x [<- | []]. split; apply Qle_refl.
      * split; constructor; assumption.
Qed.

(** X5. Merging proper blocks gives proper blocks, each the hull of
    the input blocks that went into it: the returned block starts
    where the first of them starts, ends where the last of them ends,
    and every one of them lies inside it. *)
Theorem merged_block_is_hull (segments : list Block) (max_gap : Q) :
  Forall proper_block segments ->
  Forall2 hull_of (_merge_blocks segments max_gap)
    (contributions segments max_gap)
  /\ Forall proper_block (_merge_blocks segments max_gap).
Proof.
  intro H. rewrite merge_blocks_eq. unfold contributions.
  assert (Hs : Forall proper_block (Py.sorted b_start segments)).
  { apply Forall_forall. intros b Hb. apply sorted_In in Hb.
    rewrite Forall_forall in H. now apply H. }
  destruct (Py.sorted b_start segments) as [|s0 rest]; [split; constructor|].
  inversion Hs as [|? ? H0 Hrest]; subst.
  apply groups_from_hull; [exact H0 | | exact Hrest].
  split; [discriminate|]. split; [reflexivity|]. split; [reflexivity|].
  intros x [<- | []]. split; apply Qle_refl.
Qed.

Lemma merged_block_is_hull_witness :
  Forall2 hull_of
    (_merge_blocks [mkBlock 1 2 "SPEAKER_00" "there"; mkBlock 0 1 "SPEAKER_00" "hello";
                    mkBlock 4 5 "SPEAKER_01" "yes"] MAX_GAP)
    (contributions [mkBlock 1 2 "SPEAKER_00" "there"; mkBlock 0 1 "SPEAKER_00" "hello";
                    mkBlock 4 5 "SPEAKER_01" "yes"] MAX_GAP).
Proof.
  refine (proj1 (merged_block_is_hull _ MAX_GAP _)).
  repeat constructor; vm_compute; discriminate.
Defined.

(* ================================================================== *)
(** ** What [align] hands on *)
(* ================================================================== *)

Lemma fold_absorb_ends (tl : list Block) :
  forall x,
    b_start (fold_left absorb tl x) = b_start x
    /\ b_speaker (fold_left absorb tl x) = b_speaker x
    /\ exists l, In l (x :: tl) /\ b_end (fold_left absorb tl x) = b_end l.
Proof.
  induction tl as [|y tl IH]; intro x; simpl.
  - repeat split. exists x. auto.
  - destruct (IH (absorb x y)) as (Hs & Hp & l & Hl & He).
    split; [exact Hs|]. split; [exact Hp|].
    destruct Hl as [<- | Hl].
    + exists y. simpl in He. auto.
    + exists l. auto.
Qed.

Lemma fuse_ends (grp : list Block) (m : Block) :
  fuse grp = Some m ->
  exists f l, In f grp /\ In l grp
              /\ b_start m = b_start f /\ b_speaker m = b_speaker f
              /\ b_end m = b_end l.
Proof.
  destruct grp as [|x tl]; [discriminate|]. simpl. intro H.
  injection H as <-.
  destruct (fold_absorb_ends tl x) as (Hs & Hp & l & Hl & He).
  exists x, l. split; [now left|]. repeat split; auto.
Qed.

Lemma in_group_in_input (segments : list Block) (g : Q) (gr : list Block)
  (x : Block) :
  In gr (contributions segments g) -> In x gr -> In x segments.
Proof.
  intros Hg Hx. apply (sorted_In b_start).
  unfold contributions in *.
  destruct (Py.sorted b_start segments) as [|s0 rest]; [contradiction|].
  assert (Hone : forall y, In y [s0] -> b_speaker y = b_speaker s0)
    by now intros y [<- | []].
  destruct (groups_from_spec g rest s0 [s0] eq_refl Hone) as [Hc _].
  change (s0 :: rest) with ([s0] ++ rest)%list. rewrite <- Hc.
  apply in_concat. eauto.
Qed.

(** Every merged block has the start and the speaker of one input
    block and the end of an input block of the same speaker. *)
Lemma merged_block_ends (segments : list Block) (g : Q) (m : Block) :
  In m (_merge_blocks segments g) ->
  exists f l, In f segments /\ In l segments
              /\ b_start m = b_start f /\ b_end m = b_end l
              /\ b_speaker f = b_speaker m /\ b_speaker l = b_speaker m.
Proof.
  intro Hm.
  assert (F : Forall2 (fun m gr => fuse gr = Some m
                          /\ forall x, In x gr -> b_speaker x = b_speaker m)
                (_merge_blocks segments g) (contributions segments g)).
  { rewrite merge_blocks_eq. unfold contributions.
    destruct (Py.sorted b_start segments) as [|s0 rest]; [constructor|].
    apply (groups_from_spec g rest s0 [s0]); [reflexivity|].
    now intros x [<- | []]. }
  assert (G : exists gr, In gr (contributions segments g)
                         /\ fuse gr = Some m
                         /\ forall x, In x gr -> b_speaker x = b_speaker m).
  { induction F as [|m0 gr0 ms grs [Hf Hsp] F IH]; [contradiction|].
    destruct Hm as [-> | Hm].
    - exists gr0. split; [now left | auto].
    - destruct (IH Hm) as (gr & Hin & H). exists gr. split; [now right | exact H]. }
  destruct G as (gr & Hgr & Hf & Hsp).
  destruct (fuse_ends gr m Hf) as (f & l & Hfi & Hli & Hs & _ & He).
  exists f, l.
  split; [eapply in_group_in_input; eassumption|].
  split; [eapply in_group_in_input; eassumption|].
  repeat split; auto.
Qed.

Lemma absorb_text_ok (last seg : Block) :
  text_ok (b_text last) -> text_ok (b_text seg) ->
  text_ok (b_text (absorb last seg)).
Proof.
  intros [Hta Hna] [Htb Hnb]. unfold absorb. cbn [b_text].
  pose proof (trimmed_app (b_text last) " " (b_text seg) Hta Hna Htb Hnb) as T.
  rewrite (strip_trimmed _ T). split; [exact T|].
  now apply app_nonempty.
Qed.

Lemma merge_from_text_ok (g : Q) (rest : list Block) :
  forall last,
    text_ok (b_text last) ->
    Forall (fun b => text_ok (b_text b)) rest ->
    Forall (fun b => text_ok (b_text b)) (merge_from g last rest).
Proof.
  induction rest as [|seg rest IH]; intros last Hl Hr; simpl.
  - now constructor.
  - inversion Hr as [|? ? Hseg Hrest]; subst.
    destruct (mergeable g last seg).
    + apply IH; [now apply absorb_text_ok | exact Hrest].
    + constructor; [exact Hl | now apply IH].
Qed.

Lemma merge_blocks_text_ok (segments : list Block) (g : Q) :
  Forall (fun b => text_ok (b_text b)) segments ->
  Forall (fun b => text_ok (b_text b)) (_merge_blocks segments g).
Proof.
  intro H. rewrite merge_blocks_eq.
  assert (Hs : Forall (fun b => text_ok (b_text b)) (Py.sorted b_start segments)).
  { apply Forall_forall. intros b Hb. apply sorted_In in Hb.
    rewrite Forall_forall in H. now apply H. }
  destruct (Py.sorted b_start segments) as [|s0 rest]; [constructor|].
  inversion Hs; subst. now apply merge_from_text_ok.
Qed.

Lemma mapper_text_ok (asr : list AsrSeg) (diar : list Diar) :
  Forall (fun b => text_ok (b_text b))
    (_align_words_to_diarization (_to_word_segments asr) diar).
Proof.
  pose proof (to_word_segments_tokens asr) as HT.
  rewrite (mapper_eq_spec _ diar HT). unfold mapper_spec.
  apply Forall_forall. intros b Hb.
  apply in_flat_map in Hb as (d & _ & Hb).
  destruct (existsb (overlaps d) (_to_word_segments asr)) eqn:Ex; [|contradiction].
  destruct Hb as [<- | []]. simpl.
  apply join_tokens; [now apply selected_tokens|].
  intro E. apply map_eq_nil in E. apply filter_sorted_nil in E. congruence.
Qed.

Lemma align_length (exp : Q -> Q) (asr_result : AsrResult) (diar : list Diar) :
  (List.length (align exp asr_result diar) <= List.length diar)%nat.
Proof.
  unfold align.
  destruct (_extract_asr_segments asr_result) as [|a0 asr] eqn:E; [simpl; lia|].
  destruct diar as [|d0 diar]; [simpl; lia|].
  rewrite length_map.
  eapply Nat.le_trans; [apply merge_blocks_length|].
  rewrite mapper_unfold, <- (sorted_length d_start (d0 :: diar)).
  apply flat_map_one_length.
Qed.

Lemma neighbours_map {A B : Type} (R : A -> A -> Prop) (S : B -> B -> Prop)
  (f : A -> B) (l : list A) :
  (forall a b, R a b -> S (f a) (f b)) ->
  neighbours R l -> neighbours S (map f l).
Proof.
  intro H. induction l as [|x l IH]; [trivial|].
  destruct l as [|y l]; [trivial|]. intros [Hxy Hn].
  split; [now apply H | now apply IH].
Qed.

Lemma ascending_neighbours {A : Type} (key : A -> Q) (l : list A) :
  ascending key l <-> neighbours (fun a b => key a <= key b) l.
Proof.
  induction l as [|x l IH]; [reflexivity|].
  destruct l as [|y l]; [reflexivity|].
  split; intros [H1 H2]; (split; [exact H1 | now apply IH]).
Qed.

Lemma settled_neighbours (g : Q) (l : list Block) :
  settled g l <->
  neighbours (fun a b => ~ (b_speaker b = b_speaker a /\ 0 <= gap a b <= g)) l.
Proof.
  induction l as [|x l IH]; [reflexivity|].
  destruct l as [|y l]; [reflexivity|].
  split; intros [H1 H2]; (split; [exact H1 | now apply IH]).
Qed.

Lemma align_ascending (exp : Q -> Q) (asr_result : AsrResult)
  (diar : list Diar) :
  ascending start (align exp asr_result diar).
Proof.
  unfold align.
  destruct (_extract_asr_segments asr_result) as [|a0 asr]; [exact I|].
  destruct diar as [|d0 diar]; [exact I|].
  apply ascending_neighbours.
  eapply neighbours_map; [|apply ascending_neighbours, merge_blocks_ascending].
  intros a b H. exact H.
Qed.

(** Two neighbouring segments of [align] with one speaker are not
    within [MAX_GAP] after one another. *)
Lemma align_settled (exp : Q -> Q) (asr_result : AsrResult)
  (diar : list Diar) :
  neighbours
    (fun a b => ~ (speaker b = speaker a
                   /\ 0 <= start b - end_ a <= MAX_GAP))
    (align exp asr_result diar).
Proof.
  unfold align.
  destruct (_extract_asr_segments asr_result) as [|a0 asr]; [exact I|].
  destruct diar as [|d0 diar]; [exact I|].
  eapply neighbours_map; [|apply settled_neighbours, merge_blocks_settled].
  intros a b H. exact H.
Qed.

(** X6. [align] invents neither speakers nor time stamps nor empty
    entries: every segment it returns has the speaker of two
    diarization intervals, the rounded start of the one and the
    rounded end of the other, and a trimmed text that is not empty;
    it returns at most as many segments as there are diarization
    intervals, in order of start. *)
Theorem align_output_comes_from_diarization (exp : Q -> Q)
  (asr_result : AsrResult) (diar : list Diar) :
  (forall seg, In seg (align exp asr_result diar) ->
     (exists d1 d2,
        In d1 diar /\ In d2 diar
        /\ d_speaker d1 = speaker seg /\ d_speaker d2 = speaker seg
        /\ start seg = Py.round3 (d_start d1)
        /\ end_ seg = Py.round3 (d_end d2))
     /\ text_ok (text seg))
  /\ (List.length (align exp asr_result diar) <= List.length diar)%nat
  /\ ascending start (align exp asr_result diar).
Proof.
  split; [|split; [apply align_length|]].
  - intros seg Hin. destruct (align_In _ _ _ _ Hin) as (blk & Hblk & ->).
    unfold attach. simpl. split.
    + destruct (merged_block_ends _ _ _ Hblk)
        as (f & l & Hf & Hl & Hs & He & Hpf & Hpl).
      destruct (mapper_provenance _ _ _ Hf) as (d1 & _ & Hd1 & _ & _ & S1 & _ & P1).
      destruct (mapper_provenance _ _ _ Hl) as (d2 & _ & Hd2 & _ & _ & _ & E2 & P2).
      exists d1, d2. repeat split; congruence.
    + pose proof (merge_blocks_text_ok _ MAX_GAP
                    (mapper_text_ok (_extract_asr_segments asr_result) diar)) as T.
      rewrite Forall_forall in T. now apply T.
  - apply align_ascending.
Qed.

Lemma align_output_comes_from_diarization_witness :
  let asr := AsrList [mkRawAsr (Some 0) (Some 2) (Some "hello there") None None] in
  let diar := [mkDiar 0 (3 # 2) "SPEAKER_00"] in
  let seg := hd (mkSpeakerSeg 0 0 "" "" 0) (align (fun _ => 1) asr diar) in
  (exists d1 d2,
     In d1 diar /\ In d2 diar
     /\ d_speaker d1 = speaker seg /\ d_speaker d2 = speaker seg
     /\ start seg = Py.round3 (d_start d1)
     /\ end_ seg = Py.round3 (d_end d2))
  /\ text_ok (text seg).
Proof.
  intros asr diar seg.
  refine (proj1 (align_output_comes_from_diarization (fun _ => 1) asr diar) seg _).
  vm_compute. left. reflexivity.
Defined.

Lemma flat_map_attach (exp : Q -> Q) (asr : list AsrSeg) (l : list Block) :
  flat_map seg_words (map (attach exp asr) l) = flat_map block_words l.
Proof.
  induction l as [|b l IH]; [reflexivity|].
  simpl. now rewrite IH.
Qed.

(** X7. [align] keeps the words the diarization covers, and only
    those: the words of the segments it returns, read in order, are,
    for the diarization intervals taken in order of start, the words
    of the recognition segments whose estimated intervals overlap the
    interval. *)
Theorem align_keeps_overlapping_words (exp : Q -> Q)
  (asr_result : AsrResult) (diar : list Diar) :
  flat_map seg_words (align exp asr_result diar)
  = flat_map
      (words_in (_to_word_segments (_extract_asr_segments asr_result)))
      (Py.sorted d_start diar).
Proof.
  unfold align.
  destruct (_extract_asr_segments asr_result) as [|a0 asr] eqn:E.
  - simpl. induction (Py.sorted d_start diar) as [|d l IH]; [reflexivity|].
    exact IH.
  - destruct diar as [|d0 diar]; [reflexivity|].
    rewrite flat_map_attach, merge_blocks_words.
    rewrite (sorted_fixed b_start) by apply mapper_ascending.
    apply mapper_words, to_word_segments_tokens.
Qed.

(* ================================================================== *)
(** ** Conversation turns *)
(* ================================================================== *)

Lemma turns_from_head (r : list (string * string)) (rest : list SpeakerSeg) :
  forall cur, exists h t,
    turns_from r cur rest = h :: t
    /\ t_start h = t_start cur /\ t_speaker_raw h = t_speaker_raw cur.
Proof.
  induction rest as [|seg rest IH]; intro cur; simpl.
  - now exists cur, [].
  - destruct (extends cur seg).
    + destruct (IH (extend cur seg)) as (h & t & E & Hs & Hp).
      now exists h, t.
    + now exists cur, (turns_from r (turn_of r seg) rest).
Qed.

Lemma turns_from_ascending (r : list (string * string)) (rest : list SpeakerSeg) :
  forall cur,
    (forall s, In s rest -> t_start cur <= start s) ->
    ascending start rest ->
    ascending t_start (turns_from r cur rest).
Proof.
  induction rest as [|seg rest IH]; intros cur Hcur Hasc; [exact I|].
  simpl. destruct (extends cur seg).
  - apply IH; [|now apply ascending_tail in Hasc].
    intros s Hs. apply Hcur. now right.
  - assert (IH' : ascending t_start (turns_from r (turn_of r seg) rest)).
    { apply IH; [|now apply ascending_tail in Hasc].
      intros s Hs. simpl. now apply (ascending_head_le start seg rest). }
    destruct (turns_from_head r rest (turn_of r seg)) as (h & t & E & Hs & _).
    rewrite E in *. split; [|exact IH'].
    rewrite Hs. simpl. apply Hcur. now left.
Qed.

Lemma turns_from_separated (r : list (string * string)) (rest : list SpeakerSeg) :
  forall cur,
    neighbours
      (fun a b => ~ (t_speaker_raw a = t_speaker_raw b
                     /\ t_start b - t_end a <= MAX_GAP))
      (turns_from r cur rest).
Proof.
  induction rest as [|seg rest IH]; intro cur; [exact I|].
  simpl. destruct (extends cur seg) eqn:E; [apply IH|].
  specialize (IH (turn_of r seg)).
  destruct (turns_from_head r rest (turn_of r seg)) as (h & t & Eh & Hs & Hp).
  rewrite Eh in *. split; [|exact IH].
  rewrite Hs, Hp. simpl. intro H. apply extends_spec in H. congruence.
Qed.

Lemma turns_from_length (r : list (string * string)) (rest : list SpeakerSeg) :
  forall cur,
    (1 <= List.length (turns_from r cur rest) <= S (List.length rest))%nat.
Proof.
  induction rest as [|seg rest IH]; intro cur; simpl; [lia|].
  destruct (extends cur seg).
  - specialize (IH (extend cur seg)). lia.
  - specialize (IH (turn_of r seg)). simpl. lia.
Qed.

(** X8. The turns [build_conversation] makes of aligned segments are
    in order of start, and no turn could have taken the next one in:
    two neighbouring turns never have the same raw speaker and a gap
    of at most 0.75, whatever the sign of the gap.  There are at most
    as many turns as segments, and at least one when there is a
    segment. *)
Theorem conversation_turns_are_separated (aligned : list SpeakerSeg) :
  ascending t_start (conversation_of aligned)
  /\ neighbours
       (fun a b => ~ (t_speaker_raw a = t_speaker_raw b
                      /\ t_start b - t_end a <= MAX_GAP))
       (conversation_of aligned)
  /\ (List.length (conversation_of aligned) <= List.length aligned)%nat
  /\ (aligned <> [] -> conversation_of aligned <> []).
Proof.
  rewrite conversation_unfold.
  pose proof (sorted_ascending start aligned) as Hasc.
  pose proof (sorted_length start aligned) as Hlen.
  destruct (Py.sorted start aligned) as [|s0 rest].
  - repeat split; simpl; try lia.
    destruct aligned; [contradiction | discriminate].
  - cbv zeta. set (r := roles (speaker_order (s0 :: rest))).
    pose proof (turns_from_length r rest (turn_of r s0)) as L.
    split; [|split; [|split]].
    + apply turns_from_ascending; [|now apply ascending_tail in Hasc].
      intros s Hs. simpl. now apply (ascending_head_le start s0 rest).
    + apply turns_from_separated.
    + simpl in Hlen. lia.
    + intros _ F. rewrite F in L. simpl in L. lia.
Qed.

Lemma conversation_turns_are_separated_witness :
  conversation_of [mkSpeakerSeg 0 1 "SPEAKER_00" "hello" (1 # 2);
                   mkSpeakerSeg 3 4 "SPEAKER_00" "there" (1 # 2)] <> [].
Proof.
  refine (proj2 (proj2 (proj2 (conversation_turns_are_separated
                                 [mkSpeakerSeg 0 1 "SPEAKER_00" "hello" (1 # 2);
                                  mkSpeakerSeg 3 4 "SPEAKER_00" "there" (1 # 2)]))) _).
  discriminate.
Defined.

(** *** The text of the conversation *)

Lemma append_assoc (a b c : string) : (a ++ b) ++ c = a ++ (b ++ c).
Proof. induction a as [|x a IH]; simpl; [reflexivity | now rewrite IH]. Qed.

Lemma concat_snoc (sep : string) (l : list string) (x : string) :
  l <> [] -> String.concat sep (l ++ [x]) = String.concat sep l ++ sep ++ x.
Proof.
  induction l as [|a l IH]; intro H; [contradiction|].
  destruct l as [|b l].
  - reflexivity.
  - change (String.concat sep ((a :: b :: l) ++ [x]))
      with (a ++ sep ++ String.concat sep ((b :: l) ++ [x])).
    rewrite IH by discriminate.
    change (String.concat sep (a :: b :: l))
      with (a ++ sep ++ String.concat sep (b :: l)).
    now rewrite <- !append_assoc.
Qed.

Lemma concat_cons (sep a : string) (l : list string) :
  l <> [] -> String.concat sep (a :: l) = a ++ sep ++ String.concat sep l.
Proof. destruct l; [contradiction | reflexivity]. Qed.

Lemma turns_from_text (r : list (string * string)) (rest : list SpeakerSeg) :
  forall cur,
    String.concat " " (map t_text (turns_from r cur rest))
    = String.concat " " (t_text cur :: map text rest).
Proof.
  induction rest as [|seg rest IH]; intro cur; [reflexivity|].
  cbn [turns_from]. destruct (extends cur seg).
  - rewrite IH. cbn [extend t_text map].
    destruct rest as [|s2 rest].
    + reflexivity.
    + rewrite !concat_cons by discriminate.
      now rewrite <- !append_assoc.
  - cbn [map]. destruct (turns_from_head r rest (turn_of r seg)) as (h & t & E & _).
    rewrite concat_cons by (rewrite E; discriminate).
    rewrite IH. reflexivity.
Qed.

(** X9. [build_conversation] keeps the text: the texts of the turns,
    joined by single spaces, are the texts of the aligned segments in
    order of start, joined by single spaces; no character is lost,
    added or moved. *)
Theorem conversation_keeps_text (aligned : list SpeakerSeg) :
  String.concat " " (map t_text (conversation_of aligned))
  = String.concat " " (map text (Py.sorted start aligned)).
Proof.
  rewrite conversation_unfold.
  destruct (Py.sorted start aligned) as [|s0 rest]; [reflexivity|].
  cbv zeta. apply turns_from_text.
Qed.

(** *** Turns of segments that are already apart *)

Lemma turns_from_apart (r : list (string * string)) (rest : list SpeakerSeg) :
  forall s0,
    neighbours
      (fun a b => speaker a = speaker b -> MAX_GAP < start b - end_ a)
      (s0 :: rest) ->
    turns_from r (turn_of r s0) rest = map (turn_of r) (s0 :: rest).
Proof.
  induction rest as [|seg rest IH]; intros s0 H; [reflexivity|].
  destruct H as [H0 H]. cbn [turns_from].
  replace (extends (turn_of r s0) seg) with false.
  - cbn [map]. f_equal. now apply IH.
  - symmetry. destruct (extends (turn_of r s0) seg) eqn:E; [|reflexivity].
    apply extends_spec in E as [Es Eg]. simpl in Es, Eg.
    specialize (H0 Es). exfalso. apply (Qlt_not_le _ _ H0 Eg).
Qed.

Lemma conversation_of_apart (segs : list SpeakerSeg) :
  ascending start segs ->
  neighbours
    (fun a b => speaker a = speaker b -> MAX_GAP < start b - end_ a) segs ->
  conversation_of segs = map (turn_of (roles (speaker_order segs))) segs.
Proof.
  intros Ha Hn. rewrite conversation_unfold, (sorted_fixed start segs Ha).
  destruct segs as [|s0 rest]; [reflexivity|].
  cbv zeta. now apply turns_from_apart.
Qed.

Lemma neighbours_and {A : Type} (R S T : A -> A -> Prop) (l : list A) :
  (forall a b, R a b -> S a b -> T a b) ->
  neighbours R l -> neighbours S l -> neighbours T l.
Proof.
  intro H. induction l as [|x l IH]; [trivial|].
  destruct l as [|y l]; [trivial|]. intros [R1 Rn] [S1 Sn].
  split; [now apply H | now apply IH].
Qed.

(** X10. After [align], [build_conversation] merges nothing but
    overlapping segments: when no segment [align] returns starts
    before the end of a previous neighbour of the same speaker, the
    conversation has exactly one turn per aligned segment, with the
    segment's start, end, raw speaker and text and the speaker's
    role. *)
Theorem conversation_of_aligned_segments (exp : Q -> Q)
  (asr_result : AsrResult) (diar : list Diar) :
  let segs := align exp asr_result diar in
  neighbours (fun a b => speaker a = speaker b -> end_ a <= start b) segs ->
  build_conversation exp asr_result diar
  = map (turn_of (roles (speaker_order segs))) segs.
Proof.
  intros segs H. unfold build_conversation. fold segs.
  apply conversation_of_apart; [apply align_ascending|].
  eapply neighbours_and; [|exact H | apply align_settled].
  intros a b Hab Hset Hsp. cbv beta in Hab, Hset.
  specialize (Hab Hsp).
  apply Qnot_le_lt. intro Hle. apply Hset.
  split; [now symmetry | split; [lra | exact Hle]].
Qed.

Lemma conversation_of_aligned_segments_witness :
  let asr := AsrList
    [mkRawAsr (Some 0) (Some (3 # 2)) (Some "hello world") None None;
     mkRawAsr (Some (8 # 5)) (Some (7 # 2)) (Some "how are you") None None] in
  let diar := [mkDiar 0 (3 # 2) "SPEAKER_00"; mkDiar (8 # 5) (7 # 2) "SPEAKER_01"] in
  build_conversation (fun _ => 1) asr diar
  = map (turn_of (roles (speaker_order (align (fun _ => 1) asr diar))))
      (align (fun _ => 1) asr diar).
Proof.
  cbv zeta. apply conversation_of_aligned_segments.
  vm_compute. split; [discriminate | exact I].
Defined.

(* ================================================================== *)
(** ** Speaker statistics *)
(* ================================================================== *)

Lemma compute_speaker_stats_eq (segs : list SpeakerSeg) :
  compute_speaker_stats segs
  = map (fun kv => (fst kv,
                    derive (sum_time (raw_stats segs))
                      (sum_words (raw_stats segs)) (snd kv)))
      (raw_stats segs).
Proof. destruct segs; reflexivity. Qed.

(** *** The keys *)

Lemma stats_update_keys (seg : SpeakerSeg) (m : list (string * SpeakerStats))
  (m' : list (string * Q)) :
  map fst m = map fst m' ->
  map fst (stats_update seg m) = map fst (time_step m' seg).
Proof.
  revert m'. induction m as [|[k v] tl IH]; intros [|[k' v'] tl'] H;
    try discriminate; [reflexivity|].
  simpl in H. injection H as <- H. unfold time_step. simpl.
  destruct (String.eqb k (speaker seg)); simpl; [now rewrite H|].
  f_equal. exact (IH tl' H).
Qed.

Lemma stats_fold_keys (segs : list SpeakerSeg) :
  forall m m',
    map fst m = map fst m' ->
    map fst (fold_left (fun m seg => stats_update seg m) segs m)
    = map fst (fold_left time_step segs m').
Proof.
  induction segs as [|seg rest IH]; intros m m' H; [exact H|].
  simpl. apply IH. now apply stats_update_keys.
Qed.

(** The dictionary of statistics and the dictionary of speaking times
    of [build_conversation] list the same speakers in the same
    order. *)
Lemma raw_stats_keys (segs : list SpeakerSeg) :
  map fst (raw_stats segs) = map fst (time_map segs).
Proof. apply (stats_fold_keys segs [] []). reflexivity. Qed.

Lemma stats_keys (segs : list SpeakerSeg) :
  map fst (compute_speaker_stats segs) = map fst (time_map segs).
Proof.
  rewrite compute_speaker_stats_eq, map_map. simpl.
  apply raw_stats_keys.
Qed.

(** *** The sums *)

Lemma fold_add_nat {A : Type} (f : A -> nat) (l : list A) : forall a,
  fold_left (fun acc x => (acc + f x)%nat) l a
  = (a + fold_left (fun acc x => (acc + f x)%nat) l 0)%nat.
Proof.
  induction l as [|x l IH]; intro a; simpl; [lia|].
  rewrite (IH (a + f x)%nat), (IH (f x)). lia.
Qed.

Lemma fold_add_Q {A : Type} (f : A -> Q) (l : list A) : forall a,
  fold_left (fun acc x => acc + f x) l a
  == a + fold_left (fun acc x => acc + f x) l 0.
Proof.
  induction l as [|x l IH]; intro a; simpl; [ring|].
  rewrite (IH (a + f x)), (IH (0 + f x)). ring.
Qed.

Lemma sum_words_cons kv (m : list (string * SpeakerStats)) :
  sum_words (kv :: m) = (total_words (snd kv) + sum_words m)%nat.
Proof. unfold sum_words. simpl. now rewrite fold_add_nat. Qed.

Lemma sum_count_cons kv (m : list (string * SpeakerStats)) :
  sum_count (kv :: m) = (segment_count (snd kv) + sum_count m)%nat.
Proof. unfold sum_count. simpl. now rewrite fold_add_nat. Qed.

Lemma sum_time_cons kv (m : list (string * SpeakerStats)) :
  sum_time (kv :: m) == total_speaking_time (snd kv) + sum_time m.
Proof. unfold sum_time. simpl. rewrite fold_add_Q. ring. Qed.

Lemma sums_update (seg : SpeakerSeg) (m : list (string * SpeakerStats)) :
  sum_words (stats_update seg m)
  = (sum_words m + List.length (Py.split (text seg)))%nat
  /\ sum_count (stats_update seg m) = (sum_count m + 1)%nat
  /\ sum_time (stats_update seg m) == sum_time m + (end_ seg - start seg).
Proof.
  induction m as [|[k v] tl (IHw & IHc & IHt)].
  - simpl. unfold sum_words, sum_count, sum_time. simpl.
    repeat split; try lia. ring.
  - simpl. destruct (String.eqb k (speaker seg)).
    + rewrite !sum_words_cons, !sum_count_cons, !sum_time_cons. simpl.
      repeat split; try lia. ring.
    + rewrite !sum_words_cons, !sum_count_cons, !sum_time_cons. simpl.
      rewrite IHw, IHc, IHt. repeat split; try lia. ring.
Qed.

Lemma sums_fold (segs : list SpeakerSeg) :
  forall m,
    let m' := fold_left (fun m seg => stats_update seg m) segs m in
    sum_words m' = (sum_words m + words_total segs)%nat
    /\ sum_count m' = (sum_count m + List.length segs)%nat
    /\ sum_time m' == sum_time m + time_total segs.
Proof.
  induction segs as [|seg rest IH]; intro m; cbv zeta.
  - simpl. repeat split; try lia. ring.
  - simpl fold_left. destruct (IH (stats_update seg m)) as (Hw & Hc & Ht).
    destruct (sums_update seg m) as (Uw & Uc & Ut).
    rewrite Hw, Hc, Ht, Uw, Uc, Ut. simpl. repeat split; try lia. ring.
Qed.

Lemma raw_stats_sums (segs : list SpeakerSeg) :
  sum_words (raw_stats segs) = words_total segs
  /\ sum_count (raw_stats segs) = List.length segs
  /\ sum_time (raw_stats segs) == time_total segs.
Proof.
  destruct (sums_fold segs []) as (Hw & Hc & Ht).
  unfold raw_stats. rewrite Hw, Hc, Ht. unfold sum_time. simpl.
  repeat split. ring.
Qed.

Lemma sums_derived (T : Q) (W : nat) (m : list (string * SpeakerStats)) :
  let m' := map (fun kv => (fst kv, derive T W (snd kv))) m in
  sum_words m' = sum_words m /\ sum_count m' = sum_count m.
Proof.
  cbv zeta. induction m as [|kv m [IHw IHc]]; [split; reflexivity|].
  cbn [map]. rewrite !sum_words_cons, !sum_count_cons, IHw, IHc.
  split; reflexivity.
Qed.

Lemma words_total_fold (segs : list SpeakerSeg) :
  fold_left (fun acc seg => (acc + List.length (Py.split (text seg)))%nat)
    segs 0%nat
  = words_total segs.
Proof.
  induction segs as [|seg rest IH]; [reflexivity|].
  simpl. rewrite fold_add_nat, IH. reflexivity.
Qed.

(** *** The order of the keys *)








Lemma speaker_count_eq (segs : list SpeakerSeg) :
  List.length (nodup string_dec (map speaker segs))
  = List.length (compute_speaker_stats segs).
Proof.
  rewrite <- (length_map fst (compute_speaker_stats segs)), stats_keys.
  destruct (time_map_spec segs) as (ND & Hin & Hex).
  apply Permutation_length, NoDup_Permutation; [apply NoDup_nodup | exact ND|].
  intro k. rewrite nodup_In. split.
  - intro H. destruct (Hex k H) as [v Hv]. apply in_map_iff. now exists (k, v).
  - intro H. apply in_map_iff in H as ([k' v] & <- & H). now apply (Hin k' v).
Qed.

Lemma conversation_stats_fields (segs : list SpeakerSeg) (ds : list Diar)
  (st : ConversationStats) :
  compute_conversation_stats segs ds = Some st ->
  segs <> []
  /\ total_segments st = List.length segs
  /\ cs_total_words st = words_total segs
  /\ speaker_count st = List.length (nodup string_dec (map speaker segs)).
Proof.
  unfold compute_conversation_stats.
  destruct segs as [|s0 segs]; [discriminate|].
  destruct ds as [|d0 ds]; [discriminate|].
  intro H. injection H as <-.
  split; [discriminate|]. split; [reflexivity|].
  split; [exact (words_total_fold (s0 :: segs))|].
  reflexivity.
Qed.

(** X12. The conversation-wide counts are the sums of the per-speaker
    ones: when [compute_conversation_stats] returns statistics, its
    [speaker_count] is the number of entries of
    [compute_speaker_stats], its [total_segments] the sum of their
    [segment_count] and its [total_words] the sum of their
    [total_words]; there is at least one speaker and at most one per
    segment. *)
Theorem conversation_stats_sum_speaker_stats
  (segs : list SpeakerSeg) (ds : list Diar) (st : ConversationStats) :
  compute_conversation_stats segs ds = Some st ->
  speaker_count st = List.length (compute_speaker_stats segs)
  /\ total_segments st = sum_count (compute_speaker_stats segs)
  /\ cs_total_words st = sum_words (compute_speaker_stats segs)
  /\ (1 <= speaker_count st <= total_segments st)%nat.
Proof.
  intro H.
  destruct (conversation_stats_fields segs ds st H) as (Hne & Hn & Hw & Hc).
  destruct (sums_derived (sum_time (raw_stats segs))
              (sum_words (raw_stats segs)) (raw_stats segs)) as [Sw Sc].
  destruct (raw_stats_sums segs) as (Rw & Rc & _).
  rewrite <- compute_speaker_stats_eq in Sw, Sc.
  rewrite Hn, Hw, Hc, Sw, Sc, Rw, Rc, speaker_count_eq.
  split; [reflexivity|]. split; [reflexivity|]. split; [reflexivity|].
  rewrite <- speaker_count_eq. split.
  - destruct segs as [|s0 segs]; [contradiction|].
    assert (Hin : In (speaker s0) (nodup string_dec (map speaker (s0 :: segs))))
      by (apply nodup_In; now left).
    destruct (nodup string_dec (map speaker (s0 :: segs))); [destruct Hin|].
    simpl. lia.
  - rewrite <- (length_map speaker segs).
    apply NoDup_incl_length; [apply NoDup_nodup|].
    intros x Hx. now apply nodup_In in Hx.
Qed.

Lemma conversation_stats_sum_speaker_stats_witness :
  let segs := [mkSpeakerSeg 0 4 "SPEAKER_00" "one two three" (1 # 2);
               mkSpeakerSeg 5 10 "SPEAKER_01" "four five six" (1 # 2);
               mkSpeakerSeg 11 12 "SPEAKER_00" "seven" (1 # 2)] in
  exists st,
    compute_conversation_stats segs [mkDiar 0 12 "SPEAKER_00"] = Some st
    /\ speaker_count st = List.length (compute_speaker_stats segs)
    /\ total_segments st = sum_count (compute_speaker_stats segs)
    /\ cs_total_words st = sum_words (compute_speaker_stats segs).
Proof.
  intro segs.
  destruct (compute_conversation_stats segs [mkDiar 0 12 "SPEAKER_00"])
    as [st|] eqn:E; [|discriminate E].
  exists st. split; [reflexivity|].
  destruct (conversation_stats_sum_speaker_stats _ _ _ E) as (H1 & H2 & H3 & _).
  auto.
Defined.

(** *** One speaker's entry *)

Lemma lookup_stats_update (seg : SpeakerSeg) (m : list (string * SpeakerStats))
  (k : string) :
  lookup_stats (stats_update seg m) k =
    if String.eqb (speaker seg) k
    then Some (bump seg (match lookup_stats m k with
                         | Some v => v
                         | None => fresh_stats
                         end))
    else lookup_stats m k.
Proof.
  induction m as [|[k' v] tl IH]; simpl.
  - reflexivity.
  - destruct (String.eqb k' (speaker seg)) eqn:E1; simpl.
    + apply String.eqb_eq in E1. subst k'.
      now destruct (String.eqb (speaker seg) k).
    + destruct (String.eqb k' k) eqn:E2.
      * apply String.eqb_eq in E2. subst k'.
        rewrite String.eqb_sym, E1. reflexivity.
      * exact IH.
Qed.

Lemma raw_stats_lookup (segs : list SpeakerSeg) (k : string) :
  forall m,
    lookup_stats (fold_left (fun m seg => stats_update seg m) segs m) k =
      match lookup_stats m k with
      | Some v => Some (stats_of segs k v)
      | None =>
          if existsb (fun seg => String.eqb (speaker seg) k) segs
          then Some (stats_of segs k fresh_stats)
          else None
      end.
Proof.
  induction segs as [|seg rest IH]; intro m.
  - simpl. now destruct (lookup_stats m k).
  - cbn [fold_left]. rewrite IH, lookup_stats_update.
    unfold stats_of. cbn [fold_left existsb].
    destruct (String.eqb (speaker seg) k);
      destruct (lookup_stats m k); reflexivity.
Qed.

Lemma lookup_stats_In (m : list (string * SpeakerStats)) (k : string)
  (v : SpeakerStats) :
  In (k, v) m -> NoDup (map fst m) -> lookup_stats m k = Some v.
Proof.
  induction m as [|[k' v'] tl IH]; simpl; intros Hin ND; [contradiction|].
  inversion ND as [|? ? Hnot Htl]; subst.
  destruct Hin as [E | Hin].
  - injection E as -> ->. now rewrite String.eqb_refl.
  - destruct (String.eqb k' k) eqn:E; [|now apply IH].
    apply String.eqb_eq in E. subst k'. exfalso. apply Hnot.
    apply in_map_iff. now exists (k, v).
Qed.

Lemma time_total_snoc (S : list SpeakerSeg) (x : SpeakerSeg) :
  time_total (S ++ [x]) == time_total S + duration x.
Proof.
  induction S as [|y S IH]; simpl; [unfold duration; ring|].
  rewrite IH. ring.
Qed.

Lemma words_total_snoc (S : list SpeakerSeg) (x : SpeakerSeg) :
  words_total (S ++ [x])
  = (words_total S + List.length (Py.split (text x)))%nat.
Proof.
  induction S as [|y S IH]; simpl; [lia|]. rewrite IH. lia.
Qed.

Lemma py_max_cases (a b : Q) :
  (Py.max a b = a /\ b <= a) \/ (Py.max a b = b /\ a <= b).
Proof.
  unfold Py.max. destruct (Qle_bool b a) eqn:E.
  - left. split; [reflexivity | now apply Qle_bool_iff].
  - right. split; [reflexivity | apply Qlt_le_weak; now apply Qle_bool_false].
Qed.

Lemma py_min_cases (a b : Q) :
  (Py.min a b = a /\ a <= b) \/ (Py.min a b = b /\ b <= a).
Proof.
  unfold Py.min. destruct (Qle_bool a b) eqn:E.
  - left. split; [reflexivity | now apply Qle_bool_iff].
  - right. split; [reflexivity | apply Qlt_le_weak; now apply Qle_bool_false].
Qed.

Lemma bump_inv (S : list SpeakerSeg) (s : SpeakerStats) (seg : SpeakerSeg) :
  stats_inv S s -> stats_inv (S ++ [seg]) (bump seg s).
Proof.
  intros (Ht & Hc & Hw & (Hl0 & Hl1 & Hl2) & Hf & Hla).
  unfold stats_inv, bump.
  cbn [total_speaking_time segment_count total_words longest_monologue
       first_spoke_at last_spoke_at].
  fold (duration seg).
  split; [rewrite time_total_snoc, Ht; reflexivity|].
  split; [rewrite length_app, Hc; reflexivity|].
  split; [rewrite words_total_snoc, Hw; reflexivity|].
  split; [|split].
  - destruct (py_max_cases (longest_monologue s) (duration seg)) as [[-> L] | [-> L]].
    + split; [exact Hl0|]. split.
      * intros x Hx. apply in_app_or in Hx as [Hx | [<- | []]]; auto.
      * destruct Hl2 as [E | (x & Hx & E)]; [now left|].
        right. exists x. split; [apply in_or_app; now left | exact E].
    + split; [eapply Qle_trans; eassumption|]. split.
      * intros x Hx. apply in_app_or in Hx as [Hx | [<- | []]];
          [eapply Qle_trans; [now apply Hl1 | exact L] | apply Qle_refl].
      * right. exists seg. split; [apply in_or_app; right; now left | reflexivity].
  - destruct (first_spoke_at s) as [f|].
    + destruct Hf as [Hf1 (x0 & Hx0 & Hf2)].
      destruct (py_min_cases f (start seg)) as [[-> L] | [-> L]].
      * split.
        -- intros x Hx. apply in_app_or in Hx as [Hx | [<- | []]]; auto.
        -- exists x0. split; [apply in_or_app; now left | exact Hf2].
      * split.
        -- intros x Hx. apply in_app_or in Hx as [Hx | [<- | []]];
             [eapply Qle_trans; [exact L | now apply Hf1] | apply Qle_refl].
        -- exists seg. split; [apply in_or_app; right; now left | reflexivity].
    + subst S. split.
      * intros x [<- | []]. apply Qle_refl.
      * exists seg. split; [now left | reflexivity].
  - destruct (last_spoke_at s) as [l|].
    + destruct Hla as [Hl (x0 & Hx0 & Hl')].
      destruct (py_max_cases l (end_ seg)) as [[-> L] | [-> L]].
      * split.
        -- intros x Hx. apply in_app_or in Hx as [Hx | [<- | []]]; auto.
        -- exists x0. split; [apply in_or_app; now left | exact Hl'].
      * split.
        -- intros x Hx. apply in_app_or in Hx as [Hx | [<- | []]];
             [eapply Qle_trans; [now apply Hl | exact L] | apply Qle_refl].
        -- exists seg. split; [apply in_or_app; right; now left | reflexivity].
    + subst S. split.
      * intros x [<- | []]. apply Qle_refl.
      * exists seg. split; [now left | reflexivity].
Qed.

Lemma stats_of_inv (segs : list SpeakerSeg) (k : string) :
  forall S s,
    stats_inv S s ->
    stats_inv (S ++ segments_of segs k) (stats_of segs k s).
Proof.
  induction segs as [|seg rest IH]; intros S s H.
  - simpl. now rewrite app_nil_r.
  - unfold stats_of, segments_of in *. cbn [fold_left filter].
    destruct (String.eqb (speaker seg) k).
    + replace (S ++ seg :: filter (fun s0 => String.eqb (speaker s0) k) rest)%list
        with ((S ++ [seg]) ++ filter (fun s0 => String.eqb (speaker s0) k) rest)%list
        by (now rewrite <- app_assoc).
      apply IH. now apply bump_inv.
    + now apply IH.
Qed.

Lemma fresh_inv : stats_inv [] fresh_stats.
Proof.
  unfold stats_inv, fresh_stats. simpl.
  repeat split; try reflexivity; try (intros x []); try apply Qle_refl.
  now left.
Qed.

(** Every entry of the dictionary, before the ratios are set, is what
    the segments of its speaker make of the fresh entry. *)
Lemma raw_stats_entry (segs : list SpeakerSeg) (k : string) (s : SpeakerStats) :
  In (k, s) (raw_stats segs) ->
  stats_inv (segments_of segs k) s /\ segments_of segs k <> [].
Proof.
  intro Hin.
  assert (ND : NoDup (map fst (raw_stats segs))).
  { rewrite raw_stats_keys. apply time_map_spec. }
  pose proof (lookup_stats_In _ _ _ Hin ND) as L.
  unfold raw_stats in L. rewrite raw_stats_lookup in L. simpl in L.
  destruct (existsb (fun seg => String.eqb (speaker seg) k) segs) eqn:Ex;
    [|discriminate].
  injection L as <-. split.
  - exact (stats_of_inv segs k [] fresh_stats fresh_inv).
  - apply existsb_exists in Ex as (x & Hx & E). intro F.
    assert (Hf : In x (segments_of segs k)) by (apply filter_In; auto).
    rewrite F in Hf. destruct Hf.
Qed.

Lemma speaking_time_segments (segs : list SpeakerSeg) (k : string) :
  speaking_time segs k == time_total (segments_of segs k).
Proof.
  induction segs as [|seg rest IH]; [reflexivity|].
  simpl. destruct (String.eqb (speaker seg) k); simpl; now rewrite IH.
Qed.

Lemma stats_entry (segs : list SpeakerSeg) (k : string) (s : SpeakerStats) :
  In (k, s) (compute_speaker_stats segs) ->
  exists s0,
    In (k, s0) (raw_stats segs)
    /\ s = derive (sum_time (raw_stats segs)) (sum_words (raw_stats segs)) s0.
Proof.
  rewrite compute_speaker_stats_eq. intro H.
  apply in_map_iff in H as ([k0 s0] & E & Hin). simpl in E.
  injection E as -> <-. now exists s0.
Qed.

(** X13. The entry of a speaker in [compute_speaker_stats] is about
    that speaker's segments only: its speaking time is the sum of
    their lengths, its [segment_count] their number, which is at
    least one, and its [total_words] the number of their words. *)
Theorem speaker_stats_per_speaker (segs : list SpeakerSeg) (k : string)
  (s : SpeakerStats) :
  In (k, s) (compute_speaker_stats segs) ->
  segments_of segs k <> []
  /\ total_speaking_time s == speaking_time segs k
  /\ segment_count s = List.length (segments_of segs k)
  /\ total_words s = words_total (segments_of segs k).
Proof.
  intro H. destruct (stats_entry segs k s H) as (s0 & Hin & ->).
  destruct (raw_stats_entry segs k s0 Hin) as [(Ht & Hc & Hw & _) Hne].
  unfold derive.
  cbn [total_speaking_time segment_count total_words].
  split; [exact Hne|].
  split; [now rewrite speaking_time_segments|].
  split; [exact Hc | exact Hw].
Qed.

Lemma speaker_stats_per_speaker_witness :
  let segs := [mkSpeakerSeg 0 4 "SPEAKER_00" "one two three" (1 # 2);
               mkSpeakerSeg 5 10 "SPEAKER_01" "four five six" (1 # 2);
               mkSpeakerSeg 11 12 "SPEAKER_00" "seven" (1 # 2)] in
  exists s,
    lookup_stats (compute_speaker_stats segs) "SPEAKER_00" = Some s
    /\ total_speaking_time s == speaking_time segs "SPEAKER_00"
    /\ segment_count s = 2%nat
    /\ total_words s = 4%nat.
Proof.
  intro segs.
  destruct (lookup_stats (compute_speaker_stats segs) "SPEAKER_00")
    as [s|] eqn:E; [|discriminate E].
  exists s. split; [reflexivity|].
  assert (Hin : In ("SPEAKER_00", s) (compute_speaker_stats segs)).
  { vm_compute in E. injection E as <-. vm_compute. left. reflexivity. }
  destruct (speaker_stats_per_speaker segs "SPEAKER_00" s Hin)
    as (_ & Ht & Hc & Hw).
  auto.
Defined.

Lemma time_total_bounds (S : list SpeakerSeg) :
  (forall x, In x S -> start x <= end_ x) ->
  0 <= time_total S /\ forall x, In x S -> duration x <= time_total S.
Proof.
  induction S as [|y S IH]; intro H.
  - split; [apply Qle_refl | intros x []].
  - destruct IH as [IH0 IH1]; [intros x Hx; apply H; now right|].
    assert (Hy : 0 <= duration y)
      by (unfold duration; pose proof (H y (or_introl eq_refl)); lra).
    simpl. fold (duration y). split; [lra|].
    intros x [<- | Hx]; [lra|]. specialize (IH1 x Hx). lra.
Qed.

(** X14. In the entry of a speaker, [first_spoke_at] and
    [last_spoke_at] are set: the first is the earliest start and the
    second the latest end of the speaker's segments, each taken by
    one of them.  [longest_monologue] is never negative and at least
    the length of every segment of the speaker.  When none of these
    segments is inverted, [first_spoke_at] is not after
    [last_spoke_at] and [longest_monologue] is at most the speaking
    time. *)
Theorem speaker_stats_first_last_longest (segs : list SpeakerSeg) (k : string)
  (s : SpeakerStats) :
  In (k, s) (compute_speaker_stats segs) ->
  exists f l,
    first_spoke_at s = Some f /\ last_spoke_at s = Some l
    /\ (forall x, In x (segments_of segs k) -> f <= start x /\ end_ x <= l)
    /\ (exists x, In x (segments_of segs k) /\ f = start x)
    /\ (exists x, In x (segments_of segs k) /\ l = end_ x)
    /\ 0 <= longest_monologue s
    /\ (forall x, In x (segments_of segs k) -> duration x <= longest_monologue s)
    /\ ((forall x, In x (segments_of segs k) -> start x <= end_ x) ->
        f <= l /\ longest_monologue s <= total_speaking_time s).
Proof.
  intro H. destruct (stats_entry segs k s H) as (s0 & Hin & ->).
  destruct (raw_stats_entry segs k s0 Hin)
    as [(Ht & _ & _ & (Hl0 & Hl1 & Hl2) & Hf & Hla) Hne].
  unfold derive.
  cbn [first_spoke_at last_spoke_at longest_monologue total_speaking_time].
  destruct (first_spoke_at s0) as [f|]; [|contradiction].
  destruct (last_spoke_at s0) as [l|]; [|contradiction].
  destruct Hf as [Hf1 Hf2]. destruct Hla as [Hla1 Hla2].
  exists f, l.
  split; [reflexivity|]. split; [reflexivity|].
  split; [intros x Hx; split; [now apply Hf1 | now apply Hla1]|].
  split; [exact Hf2|]. split; [exact Hla2|].
  split; [exact Hl0|]. split; [exact Hl1|].
  intro Hp. split.
  - destruct Hf2 as (x & Hx & ->).
    eapply Qle_trans; [apply (Hp x Hx) | now apply Hla1].
  - destruct (time_total_bounds _ Hp) as [T0 T1]. rewrite Ht.
    destruct Hl2 as [-> | (x & Hx & ->)]; [exact T0 | now apply T1].
Qed.

Lemma speaker_stats_first_last_longest_witness :
  let segs := [mkSpeakerSeg 5 7 "SPEAKER_00" "one two three" (1 # 2);
               mkSpeakerSeg 0 4 "SPEAKER_00" "seven" (1 # 2)] in
  exists s f l,
    lookup_stats (compute_speaker_stats segs) "SPEAKER_00" = Some s
    /\ first_spoke_at s = Some f /\ last_spoke_at s = Some l /\ f <= l
    /\ longest_monologue s <= total_speaking_time s.
Proof.
  intro segs.
  destruct (lookup_stats (compute_speaker_stats segs) "SPEAKER_00")
    as [s|] eqn:E; [|discriminate E].
  assert (Hin : In ("SPEAKER_00", s) (compute_speaker_stats segs)).
  { vm_compute in E. injection E as <-. vm_compute. left. reflexivity. }
  destruct (speaker_stats_first_last_longest segs "SPEAKER_00" s Hin)
    as (f & l & Hf & Hl & _ & _ & _ & _ & _ & Hp).
  exists s, f, l. split; [reflexivity|]. split; [exact Hf|]. split; [exact Hl|].
  apply Hp. intros x [<- | [<- | []]]; vm_compute; discriminate.
Defined.

(** *** The ratios *)

Lemma time_total_filter (f : SpeakerSeg -> bool) (S : list SpeakerSeg) :
  (forall x, In x S -> start x <= end_ x) ->
  time_total (filter f S) <= time_total S.
Proof.
  induction S as [|y S IH]; intro H; [apply Qle_refl|].
  assert (Hy : start y <= end_ y) by (apply H; now left).
  assert (IH' : time_total (filter f S) <= time_total S)
    by (apply IH; intros x Hx; apply H; now right).
  simpl. destruct (f y); simpl; lra.
Qed.

Lemma words_total_filter (f : SpeakerSeg -> bool) (S : list SpeakerSeg) :
  (words_total (filter f S) <= words_total S)%nat.
Proof.
  induction S as [|y S IH]; [apply Nat.le_refl|].
  simpl. destruct (f y); simpl; lia.
Qed.

Lemma quotient_bounds (x d : Q) :
  0 <= x -> 1 <= d -> 0 <= x / d <= x /\ (x <= d -> x / d <= 1).
Proof.
  intros Hx Hd. assert (P : 0 < d) by lra.
  split; [split|].
  - apply Qle_shift_div_l; [exact P | lra].
  - apply Qle_shift_div_r; [exact P|].
    nra.
  - intro L. apply Qle_shift_div_r; [exact P | lra].
Qed.

(** X15. The ratios of [compute_speaker_stats] stay in range.  The
    [word_ratio] of every speaker lies in [[0, 1]].  When no segment
    is inverted, the [speaking_ratio] lies in [[0, 1]] and is at most
    the speaker's speaking time (the denominator is never below 1),
    [avg_segment_length] lies between 0 and the speaking time, and
    [wpm] is never negative. *)
Theorem speaker_stats_ratios_bounded (segs : list SpeakerSeg) (k : string)
  (s : SpeakerStats) :
  In (k, s) (compute_speaker_stats segs) ->
  0 <= word_ratio s <= 1
  /\ ((forall x, In x segs -> start x <= end_ x) ->
      0 <= speaking_ratio s <= 1
      /\ speaking_ratio s <= total_speaking_time s
      /\ 0 <= avg_segment_length s <= total_speaking_time s
      /\ 0 <= wpm s).
Proof.
  intro H. destruct (stats_entry segs k s H) as (s0 & Hin & ->).
  destruct (raw_stats_entry segs k s0 Hin) as [(Ht & Hc & Hw & _) Hne].
  destruct (raw_stats_sums segs) as (Rw & _ & Rt).
  unfold derive.
  cbn [total_speaking_time word_ratio speaking_ratio avg_segment_length wpm].
  split.
  - rewrite Rw, Hw.
    pose proof (words_total_filter (fun seg => String.eqb (speaker seg) k) segs) as L.
    fold (segments_of segs k) in L. apply of_nat_le in L.
    pose proof (of_nat_nonneg (words_total (segments_of segs k))) as N.
    pose proof (max_ge_l (of_nat (words_total segs)) 1) as M1.
    pose proof (max_ge_r (of_nat (words_total segs)) 1) as M2.
    destruct (quotient_bounds _ _ N M2) as [[B0 _] B1].
    split; [exact B0 | apply B1; lra].
  - intro Hp.
    assert (Hk : forall x, In x (segments_of segs k) -> start x <= end_ x).
    { intros x Hx. apply filter_In in Hx as [Hx _]. now apply Hp. }
    destruct (time_total_bounds _ Hk) as [T0 _].
    pose proof (time_total_filter (fun seg => String.eqb (speaker seg) k) segs Hp) as L.
    fold (segments_of segs k) in L.
    assert (N : 0 <= total_speaking_time s0) by lra.
    pose proof (max_ge_l (sum_time (raw_stats segs)) 1) as M1.
    pose proof (max_ge_r (sum_time (raw_stats segs)) 1) as M2.
    destruct (quotient_bounds _ _ N M2) as [[B0 B2] B1].
    split; [split; [exact B0 | apply B1; lra]|].
    split; [exact B2|].
    split.
    + assert (C : 1 <= of_nat (Nat.max (segment_count s0) 1)).
      { change 1 with (of_nat 1) at 1. apply of_nat_le. lia. }
      destruct (quotient_bounds _ _ N C) as [B _]. exact B.
    + destruct (Py.ltb 0 (total_speaking_time s0)) eqn:E; [|apply Qle_refl].
      apply ltb_true in E.
      assert (Q0 : 0 <= of_nat (total_words s0) / total_speaking_time s0).
      { apply Qle_shift_div_l; [exact E|].
        pose proof (of_nat_nonneg (total_words s0)). lra. }
      lra.
Qed.

Lemma speaker_stats_ratios_bounded_witness :
  let segs := [mkSpeakerSeg 0 (1 # 4) "SPEAKER_00" "yes" (1 # 2);
               mkSpeakerSeg 1 (3 # 2) "SPEAKER_01" "no" (1 # 2)] in
  exists s,
    lookup_stats (compute_speaker_stats segs) "SPEAKER_01" = Some s
    /\ 0 <= word_ratio s <= 1 /\ 0 <= speaking_ratio s <= 1.
Proof.
  intro segs.
  destruct (lookup_stats (compute_speaker_stats segs) "SPEAKER_01")
    as [s|] eqn:E; [|discriminate E].
  assert (Hin : In ("SPEAKER_01", s) (compute_speaker_stats segs)).
  { vm_compute in E. injection E as <-. vm_compute. right. left. reflexivity. }
  destruct (speaker_stats_ratios_bounded segs "SPEAKER_01" s Hin) as [Hw Hp].
  exists s. split; [reflexivity|]. split; [exact Hw|].
  apply Hp. intros x [<- | [<- | []]]; vm_compute; discriminate.
Defined.

(* ================================================================== *)
(** ** Smoothing the diarization *)
(* ================================================================== *)

Lemma smooth_step_eq (md mg : Q) (kept : list DiarSeg) (last seg : DiarSeg) :
  smooth_step md mg (kept, Some last) seg
  = if absorbed md mg last seg then (kept, Some (widen last seg))
    else ((kept ++ [last])%list, Some seg).
Proof.
  unfold smooth_step, absorbed.
  destruct (String.eqb (g_speaker seg) (g_speaker last)
            && Qle_bool (g_start seg - g_end last) mg); [reflexivity|].
  simpl. now destruct (Py.ltb (g_end seg - g_start seg) md).
Qed.

Lemma fold_smooth_from (md mg : Q) (rest : list DiarSeg) :
  forall kept last,
    (let (k, cur) := fold_left (smooth_step md mg) rest (kept, Some last) in
     match cur with
     | Some l => (k ++ [l])%list
     | None => k
     end)
    = (kept ++ smooth_from md mg last rest)%list.
Proof.
  induction rest as [|seg rest IH]; intros kept last; [reflexivity|].
  cbn [fold_left smooth_from]. rewrite smooth_step_eq.
  destruct (absorbed md mg last seg).
  - apply IH.
  - rewrite IH. now rewrite <- app_assoc.
Qed.

Lemma smooth_unfold (segments : list DiarSeg) (md mg : Q) :
  _smooth_segments segments md mg
  = match Py.sorted g_start segments with
    | [] => []
    | s0 :: rest => smooth_from md mg s0 rest
    end.
Proof.
  unfold _smooth_segments. destruct segments as [|a l]; [reflexivity|].
  destruct (Py.sorted g_start (a :: l)) as [|s0 rest] eqn:E.
  - pose proof (sorted_length g_start (a :: l)) as L. rewrite E in L. discriminate.
  - cbn [fold_left]. exact (fold_smooth_from md mg rest [] s0).
Qed.

Lemma absorbed_false (md mg : Q) (last seg : DiarSeg) :
  absorbed md mg last seg = false ->
  ~ (g_speaker seg = g_speaker last /\ g_start seg - g_end last <= mg)
  /\ md <= g_end seg - g_start seg.
Proof.
  unfold absorbed. intro H. apply orb_false_iff in H as [H1 H2].
  split; [|now apply ltb_false].
  intros [Hs Hg]. apply String.eqb_eq in Hs. apply Qle_bool_iff in Hg.
  rewrite Hs, Hg in H1. discriminate.
Qed.

Lemma smooth_from_head (md mg : Q) (rest : list DiarSeg) :
  forall last, exists h t,
    smooth_from md mg last rest = h :: t
    /\ g_start h = g_start last /\ g_speaker h = g_speaker last
    /\ g_end last <= g_end h.
Proof.
  induction rest as [|seg rest IH]; intro last; simpl.
  - exists last, []. repeat split. apply Qle_refl.
  - destruct (absorbed md mg last seg).
    + destruct (IH (widen last seg)) as (h & t & E & Hs & Hp & He).
      exists h, t. repeat split; auto.
      eapply Qle_trans; [|exact He]. simpl. apply max_ge_l.
    + exists last, (smooth_from md mg seg rest). repeat split. apply Qle_refl.
Qed.

Lemma smooth_from_ascending (md mg : Q) (rest : list DiarSeg) :
  forall last,
    ascending g_start (last :: rest) ->
    ascending g_start (smooth_from md mg last rest).
Proof.
  induction rest as [|seg rest IH]; intros last H; [exact I|].
  destruct H as [Hle H]. simpl. destruct (absorbed md mg last seg).
  - apply IH. destruct rest as [|s2 rest]; [exact I|].
    destruct H as [Hle2 H]. split; [|exact H].
    simpl. eapply Qle_trans; eassumption.
  - specialize (IH seg H).
    destruct (smooth_from_head md mg rest seg) as (h & t & E & Hs & _).
    rewrite E in *. split; [now rewrite Hs | exact IH].
Qed.

Lemma smooth_from_separated (md mg : Q) (rest : list DiarSeg) :
  forall last,
    neighbours
      (fun a b => ~ (g_speaker b = g_speaker a /\ g_start b - g_end a <= mg)
                  /\ md <= g_end b - g_start b)
      (smooth_from md mg last rest).
Proof.
  induction rest as [|seg rest IH]; intro last; [exact I|].
  simpl. destruct (absorbed md mg last seg) eqn:E; [apply IH|].
  specialize (IH seg).
  destruct (smooth_from_head md mg rest seg) as (h & t & Eh & Hs & Hp & He).
  rewrite Eh in *. split; [|exact IH].
  destruct (absorbed_false _ _ _ _ E) as [Hn Hd].
  rewrite Hs, Hp. split; [exact Hn | lra].
Qed.

Lemma smooth_from_length (md mg : Q) (rest : list DiarSeg) :
  forall last,
    (1 <= List.length (smooth_from md mg last rest) <= S (List.length rest))%nat.
Proof.
  induction rest as [|seg rest IH]; intro last; simpl; [lia|].
  destruct (absorbed md mg last seg).
  - specialize (IH (widen last seg)). lia.
  - specialize (IH seg). simpl. lia.
Qed.

(** X16. What [_smooth_segments] returns is in order of start, and no
    segment could have gone into the one before it: a segment never
    follows one of the same speaker with a gap of at most
    [max_gap_merge], and every segment but the first lasts at least
    [min_duration].  There are at most as many segments as given,
    and at least one when one is given. *)
Theorem smoothed_segments_are_separated (segments : list DiarSeg)
  (min_duration max_gap_merge : Q) :
  let out := _smooth_segments segments min_duration max_gap_merge in
  ascending g_start out
  /\ neighbours
       (fun a b =>
          ~ (g_speaker b = g_speaker a
             /\ g_start b - g_end a <= max_gap_merge)
          /\ min_duration <= g_end b - g_start b)
       out
  /\ (List.length out <= List.length segments)%nat
  /\ (segments <> [] -> out <> []).
Proof.
  cbv zeta. rewrite smooth_unfold.
  pose proof (sorted_ascending g_start segments) as Hasc.
  pose proof (sorted_length g_start segments) as Hlen.
  destruct (Py.sorted g_start segments) as [|s0 rest].
  - repeat split; simpl; try lia.
    destruct segments; [contradiction | discriminate].
  - pose proof (smooth_from_length min_duration max_gap_merge rest s0) as L.
    split; [now apply smooth_from_ascending|].
    split; [apply smooth_from_separated|].
    split; [simpl in Hlen; lia|].
    intros _ F. rewrite F in L. simpl in L. lia.
Qed.

Lemma smoothed_segments_are_separated_witness :
  _smooth_segments [mkDiarSeg 0 1 "SPEAKER_00" 1;
                    mkDiarSeg 2 3 "SPEAKER_01" 1] MIN_DURATION MAX_GAP_MERGE
  <> [].
Proof.
  refine (proj2 (proj2 (proj2 (smoothed_segments_are_separated
                                 [mkDiarSeg 0 1 "SPEAKER_00" 1;
                                  mkDiarSeg 2 3 "SPEAKER_01" 1]
                                 MIN_DURATION MAX_GAP_MERGE))) _).
  discriminate.
Defined.

Lemma smooth_from_inv (P : DiarSeg -> Prop) (md mg : Q) :
  (forall a b, P a -> P b -> P (widen a b)) ->
  forall rest last,
    P last -> Forall P rest -> Forall P (smooth_from md mg last rest).
Proof.
  intros Hw. induction rest as [|seg rest IH]; intros last Hl Hr; simpl.
  - now constructor.
  - inversion Hr as [|? ? Hseg Hrest]; subst.
    destruct (absorbed md mg last seg).
    + apply IH; [now apply Hw | exact Hrest].
    + constructor; [exact Hl | now apply IH].
Qed.

Lemma smooth_inv (P : DiarSeg -> Prop) (segments : list DiarSeg) (md mg : Q) :
  (forall a b, P a -> P b -> P (widen a b)) ->
  Forall P segments -> Forall P (_smooth_segments segments md mg).
Proof.
  intros Hw H. rewrite smooth_unfold.
  assert (Hs : Forall P (Py.sorted g_start segments)).
  { apply Forall_forall. intros b Hb. apply sorted_In in Hb.
    rewrite Forall_forall in H. now apply H. }
  destruct (Py.sorted g_start segments) as [|s0 rest]; [constructor|].
  inversion Hs; subst. now apply smooth_from_inv.
Qed.

Lemma smooth_proper (segments : list DiarSeg) (md mg : Q) :
  Forall (fun s => g_start s <= g_end s) segments ->
  Forall (fun s => g_start s <= g_end s) (_smooth_segments segments md mg).
Proof.
  apply smooth_inv. intros a b Ha _. simpl.
  eapply Qle_trans; [exact Ha | apply max_ge_l].
Qed.

(** X17. [_smooth_segments] keeps segments well formed: when no given
    segment is inverted, no returned one is; and when all given
    confidences lie between two bounds, so do all returned ones. *)
Theorem smoothing_keeps_segments_well_formed (segments : list DiarSeg)
  (min_duration max_gap_merge lo hi : Q) :
  (Forall (fun s => g_start s <= g_end s) segments ->
   Forall (fun s => g_start s <= g_end s)
     (_smooth_segments segments min_duration max_gap_merge))
  /\ (Forall (fun s => lo <= g_confidence s <= hi) segments ->
      Forall (fun s => lo <= g_confidence s <= hi)
        (_smooth_segments segments min_duration max_gap_merge)).
Proof.
  split; [apply smooth_proper|].
  apply smooth_inv. intros a b [Ha1 Ha2] [Hb1 Hb2]. simpl.
  split.
  - apply Qle_shift_div_l; [reflexivity | lra].
  - apply Qle_shift_div_r; [reflexivity | lra].
Qed.

Lemma smoothing_keeps_segments_well_formed_witness :
  Forall (fun s => g_start s <= g_end s)
    (_smooth_segments
       [mkDiarSeg 3 (7 # 2) "SPEAKER_01" 1; mkDiarSeg 0 2 "SPEAKER_00" 1;
        mkDiarSeg (11 # 5) 5 "SPEAKER_00" 1] MIN_DURATION MAX_GAP_MERGE).
Proof.
  refine (proj1 (smoothing_keeps_segments_well_formed _ _ _ 0 1) _).
  repeat constructor; vm_compute; discriminate.
Defined.

Lemma smooth_from_holds (md mg : Q) (rest : list DiarSeg) :
  forall last,
    ascending g_start (last :: rest) ->
    (forall x, holds last x ->
       exists out, In out (smooth_from md mg last rest) /\ holds out x)
    /\ (forall x, In x rest ->
          exists out, In out (smooth_from md mg last rest) /\ holds out x).
Proof.
  induction rest as [|seg rest IH]; intros last Hasc.
  - split; [|intros x []]. intros x Hx. exists last. split; [now left | exact Hx].
  - pose proof (ascending_head_le g_start last (seg :: rest) Hasc) as Hhead.
    destruct Hasc as [Hle Hasc]. simpl.
    destruct (absorbed md mg last seg).
    + assert (Hasc' : ascending g_start (widen last seg :: rest)).
      { apply ascending_intro; [now apply ascending_tail in Hasc|].
        intros x Hx. simpl. apply Hhead. now right. }
      destruct (IH (widen last seg) Hasc') as [IH1 IH2].
      assert (Hw : forall x, holds last x -> holds (widen last seg) x).
      { intros x [H1 H2]. split; [exact H1|]. simpl.
        eapply Qle_trans; [exact H2 | apply max_ge_l]. }
      split.
      * intros x Hx. apply IH1. now apply Hw.
      * intros x [<- | Hx]; [|now apply IH2].
        apply IH1. split; [exact Hle | simpl; apply max_ge_r].
    + destruct (IH seg Hasc) as [IH1 IH2]. split.
      * intros x Hx. exists last. split; [now left | exact Hx].
      * intros x [<- | Hx].
        -- destruct (IH1 seg) as (out & Ho & Hh); [split; apply Qle_refl|].
           exists out. split; [now right | exact Hh].
        -- destruct (IH2 x Hx) as (out & Ho & Hh).
           exists out. split; [now right | exact Hh].
Qed.

(** X18. [_smooth_segments] drops no speech time: the interval of
    every given segment lies inside the interval of a returned
    segment (not always one of the same speaker, as a short segment
    goes into the segment before it whoever speaks). *)
Theorem smoothing_covers_every_segment (segments : list DiarSeg)
  (min_duration max_gap_merge : Q) (x : DiarSeg) :
  In x segments ->
  exists out,
    In out (_smooth_segments segments min_duration max_gap_merge)
    /\ holds out x.
Proof.
  intro Hx. rewrite smooth_unfold.
  apply (sorted_In g_start) in Hx.
  pose proof (sorted_ascending g_start segments) as Hasc.
  destruct (Py.sorted g_start segments) as [|s0 rest]; [contradiction|].
  destruct (smooth_from_holds min_duration max_gap_merge rest s0 Hasc) as [H1 H2].
  destruct Hx as [<- | Hx]; [|now apply H2].
  apply H1. split; apply Qle_refl.
Qed.

Lemma smoothing_covers_every_segment_witness :
  exists out,
    In out (_smooth_segments
              [mkDiarSeg 3 (7 # 2) "SPEAKER_01" 1; mkDiarSeg 0 2 "SPEAKER_00" 1]
              MIN_DURATION MAX_GAP_MERGE)
    /\ holds out (mkDiarSeg 3 (7 # 2) "SPEAKER_01" 1).
Proof.
  apply smoothing_covers_every_segment. now left.
Defined.

(** X19. Smoothing makes the diarization fit for [align]: when no
    segment given to [_smooth_segments] is inverted, every segment
    [align] returns on the smoothed diarization has
    [start <= end]. *)
Theorem align_after_smoothing_is_proper (exp : Q -> Q)
  (asr_result : AsrResult) (raw : list DiarSeg)
  (min_duration max_gap_merge : Q) (seg : SpeakerSeg) :
  Forall (fun s => g_start s <= g_end s) raw ->
  In seg (align exp asr_result
            (map to_diar (_smooth_segments raw min_duration max_gap_merge))) ->
  start seg <= end_ seg.
Proof.
  intros Hraw Hin.
  set (diar := map to_diar (_smooth_segments raw min_duration max_gap_merge)) in *.
  assert (HD : Forall (fun d => d_start d <= d_end d) diar).
  { subst diar. apply Forall_forall. intros d Hd.
    apply in_map_iff in Hd as (s & <- & Hs).
    pose proof (smooth_proper raw min_duration max_gap_merge Hraw) as P.
    rewrite Forall_forall in P. exact (P s Hs). }
  destruct (align_In _ _ _ _ Hin) as (blk & Hblk & ->).
  unfold attach. simpl.
  pose proof (mapper_emits_raw_blocks _ diar
                (to_word_segments_tokens (_extract_asr_segments asr_result)) HD)
    as Hr.
  assert (Hp : Forall (fun b => b_start b <= b_end b)
                 (_align_words_to_diarization
                    (_to_word_segments (_extract_asr_segments asr_result)) diar)).
  { eapply Forall_impl; [|exact Hr]. now intros b [H _]. }
  apply (merge_blocks_proper _ MAX_GAP) in Hp.
  rewrite Forall_forall in Hp. now apply Hp.
Qed.

Lemma align_after_smoothing_is_proper_witness :
  let seg := mkSpeakerSeg (0 / 1000) (5000 / 1000) "SPEAKER_00" "hello there"
               (1 # 2) in
  start seg <= end_ seg.
Proof.
  cbv zeta.
  refine (align_after_smoothing_is_proper (fun _ => 1)
            (AsrList [mkRawAsr (Some 0) (Some 2) (Some "hello there") None None])
            [mkDiarSeg 3 (7 # 2) "SPEAKER_01" 1; mkDiarSeg 0 2 "SPEAKER_00" 1;
             mkDiarSeg (11 # 5) 5 "SPEAKER_00" 1]
            MIN_DURATION MAX_GAP_MERGE _ _ _).
  - repeat constructor; vm_compute; discriminate.
  - vm_compute. left. reflexivity.
Defined.

(* ================================================================== *)
(** ** Overlap, normalisation and confidence *)
(* ================================================================== *)

Ltac plain t :=
  lazymatch t with
  | context [Py.max _ _] => fail
  | context [Py.min _ _] => fail
  | _ => idtac
  end.

(** Case analysis on every [max] and [min] of the goal, innermost
    first. *)
Ltac py_cases :=
  repeat match goal with
    | |- context [Py.max ?a ?b] =>
        plain a; plain b;
        let L := fresh "L" in
        destruct (py_max_cases a b) as [[-> L] | [-> L]]
    | |- context [Py.min ?a ?b] =>
        plain a; plain b;
        let L := fresh "L" in
        destruct (py_min_cases a b) as [[-> L] | [-> L]]
    end.

(** X20. [_overlap] measures the time two intervals share: it is
    never negative, does not depend on the order of the two
    intervals, is positive exactly when each interval starts before
    both ends, and is at most the length of an interval that is not
    inverted.  On intervals of positive length, the test by which
    the speaker mapper selects words says the same as a positive
    [_overlap]. *)
Theorem overlap_is_shared_time (a_s a_e b_s b_e : Q) :
  0 <= _overlap a_s a_e b_s b_e
  /\ _overlap a_s a_e b_s b_e == _overlap b_s b_e a_s a_e
  /\ (0 < _overlap a_s a_e b_s b_e <->
      a_s < a_e /\ b_s < b_e /\ a_s < b_e /\ b_s < a_e)
  /\ (a_s <= a_e -> _overlap a_s a_e b_s b_e <= a_e - a_s)
  /\ (a_s < a_e -> b_s < b_e ->
      forall w spk,
        overlaps (mkDiar b_s b_e spk) (mkWordSeg a_s a_e w) = true
        <-> 0 < _overlap a_s a_e b_s b_e).
Proof.
  unfold _overlap.
  split; [apply max_ge_l|].
  split; [py_cases; lra|].
  split; [split; [intro H; revert H; py_cases; intro H; repeat split; lra
                 | intros (H1 & H2 & H3 & H4); py_cases; lra]|].
  split; [intro H; py_cases; lra|].
  intros Ha Hb w spk. rewrite overlaps_spec. simpl.
  split.
  - intro H. py_cases; try lra; exfalso; apply H; lra.
  - intros H [F | F]; revert H; py_cases; intro H; lra.
Qed.

Lemma overlap_is_shared_time_witness :
  overlaps (mkDiar 1 3 "SPEAKER_00") (mkWordSeg 0 2 "hello") = true.
Proof.
  refine (proj2 (proj2 (proj2 (proj2 (proj2 (overlap_is_shared_time 0 2 1 3))))
                   _ _ "hello" "SPEAKER_00") _).
  - reflexivity.
  - reflexivity.
  - vm_compute. reflexivity.
Defined.

(* ------------------------------------------------------------------ *)
(** *** Normalising what is already normalised *)

Lemma normalise_to_raw (l : list AsrSeg) :
  Forall (fun s => trimmed (a_text s)) l ->
  flat_map normalise_one (map to_raw l) = l.
Proof.
  induction 1 as [|s l Hs _ IH]; [reflexivity|].
  cbn [map flat_map]. rewrite IH.
  unfold normalise_one, to_raw. simpl.
  rewrite (strip_trimmed _ Hs). now destruct s.
Qed.

Lemma extract_all_trimmed (asr_result : AsrResult) :
  Forall (fun s => trimmed (a_text s)) (_extract_asr_segments asr_result).
Proof. apply Forall_forall. intros s. apply extract_trimmed. Qed.

(** X21. [_extract_asr_segments] is idempotent: its result, given
    back as a list or under the key ["segments"] of a dict (whatever
    ["meta"] holds), is returned unchanged, so no segment of it is
    dropped, no text trimmed again and no default filled in. *)
Theorem extract_asr_segments_idempotent (asr_result : AsrResult) :
  let out := _extract_asr_segments asr_result in
  _extract_asr_segments (AsrList (map to_raw out)) = out
  /\ forall meta, _extract_asr_segments (AsrDict (Some (map to_raw out)) meta) = out.
Proof.
  intro out.
  pose proof (normalise_to_raw out (extract_all_trimmed asr_result)) as H.
  split; [exact H|]. intros [m|]; exact H.
Qed.

(* ------------------------------------------------------------------ *)
(** *** Confidence when the exponential is positive *)

Lemma logistic_range (e : Q) : 0 < e -> 0 < 1 / (1 + e) /\ 1 / (1 + e) <= 1.
Proof.
  intro He. assert (P : 0 < 1 + e) by lra. split.
  - unfold Qdiv. rewrite Qmult_1_l. now apply Qinv_lt_0_compat.
  - apply Qle_shift_div_r; [exact P | lra].
Qed.

(** X22. With a positive exponential and [no_speech_prob] in [[0, 1]]
    the clamp of [_confidence_from_whisper] does nothing: the result
    is the logistic of [avg_logprob] times [1 - no_speech_prob], and
    it is at most [1 - no_speech_prob].  For any [no_speech_prob], of
    two segments with the same [avg_logprob] the one with the larger
    [no_speech_prob] has the smaller or equal confidence. *)
Theorem confidence_under_positive_exp (exp : Q -> Q) (b : AsrSeg) :
  (forall x, 0 < exp x) ->
  (0 <= no_speech_prob b <= 1 ->
   _confidence_from_whisper exp b
   == 1 / (1 + exp (- avg_logprob b)) * (1 - no_speech_prob b)
   /\ _confidence_from_whisper exp b <= 1 - no_speech_prob b)
  /\ (forall b',
        avg_logprob b' = avg_logprob b ->
        no_speech_prob b <= no_speech_prob b' ->
        _confidence_from_whisper exp b' <= _confidence_from_whisper exp b).
Proof.
  intro Hexp. unfold _confidence_from_whisper.
  destruct (logistic_range (exp (- avg_logprob b)) (Hexp _)) as [K0 K1].
  split.
  - intros [N0 N1].
    set (k := 1 / (1 + exp (- avg_logprob b))) in *.
    assert (P0 : 0 <= k * (1 - no_speech_prob b)).
    { apply Qmult_le_0_compat; lra. }
    assert (P1 : k * (1 - no_speech_prob b) <= 1 * (1 - no_speech_prob b)).
    { apply Qmult_le_compat_r; lra. }
    set (p := k * (1 - no_speech_prob b)) in *.
    split; py_cases; lra.
  - intros b' Ea Hn. rewrite Ea.
    set (k := 1 / (1 + exp (- avg_logprob b))) in *.
    assert (P : k * (1 - no_speech_prob b') <= k * (1 - no_speech_prob b)).
    { rewrite !(Qmult_comm k). apply Qmult_le_compat_r; lra. }
    set (p := k * (1 - no_speech_prob b)) in *.
    set (p' := k * (1 - no_speech_prob b')) in *.
    py_cases; lra.
Qed.

Lemma confidence_under_positive_exp_witness :
  _confidence_from_whisper (fun _ => 1) (mkAsrSeg 0 1 "hello" (-1) (1 # 2))
  <= 1 - (1 # 2).
Proof.
  refine (proj2 (proj1 (confidence_under_positive_exp (fun _ => 1)
                          (mkAsrSeg 0 1 "hello" (-1) (1 # 2)) _) _)).
  - intro x. reflexivity.
  - simpl. split; [discriminate | discriminate].
Defined.

(* ================================================================== *)
(** ** Neighbours without a gap *)
(* ================================================================== *)

Lemma Forall2_at {A B : Type} (P : A -> B -> Prop) (l1 : list A) (l2 : list B) :
  Forall2 P l1 l2 ->
  forall i b, nth_error l2 i = Some b ->
              exists a, nth_error l1 i = Some a /\ P a b.
Proof.
  induction 1 as [|a0 b0 l1 l2 H0 _ IH]; intros i b Hi.
  - destruct i; discriminate.
  - destruct i as [|i]; simpl in Hi.
    + injection Hi as <-. now exists a0.
    + exact (IH i b Hi).
Qed.

(** Every returned block is the fusion of its group, and has the
    speaker of every block of the group. *)
Lemma merge_blocks_fused (segments : list Block) (g : Q) :
  Forall2 (fun m gr => fuse gr = Some m
                       /\ forall x, In x gr -> b_speaker x = b_speaker m)
    (_merge_blocks segments g) (contributions segments g).
Proof.
  rewrite merge_blocks_eq. unfold contributions.
  destruct (Py.sorted b_start segments) as [|s0 rest]; [constructor|].
  apply (groups_from_spec g rest s0 [s0]); [reflexivity|].
  now intros x [<- | []].
Qed.

Lemma merge_blocks_hull (segments : list Block) (g : Q) :
  Forall proper_block segments ->
  Forall2 hull_of (_merge_blocks segments g) (contributions segments g).
Proof.
  intro H. rewrite merge_blocks_eq. unfold contributions.
  assert (Hs : Forall proper_block (Py.sorted b_start segments)).
  { apply Forall_forall. intros b Hb. apply sorted_In in Hb.
    rewrite Forall_forall in H. now apply H. }
  destruct (Py.sorted b_start segments) as [|s0 rest]; [constructor|].
  inversion Hs as [|? ? H0 Hrest]; subst.
  apply groups_from_hull; [exact H0 | | exact Hrest].
  split; [discriminate|]. split; [reflexivity|]. split; [reflexivity|].
  intros x [<- | []]. split; apply Qle_refl.
Qed.

(** The text a run of merges makes of texts that are trimmed and not
    empty: the texts joined by single spaces. *)
Lemma fold_absorb_text (tl : list Block) :
  forall x,
    text_ok (b_text x) ->
    Forall (fun b => text_ok (b_text b)) tl ->
    b_text (fold_left absorb tl x) = Py.join " " (b_text x :: map b_text tl).
Proof.
  induction tl as [|y tl IH]; intros x Hx Htl; [reflexivity|].
  inversion Htl as [|? ? Hy Hrest]; subst.
  cbn [fold_left]. rewrite (IH (absorb x y) (absorb_text_ok x y Hx Hy) Hrest).
  unfold absorb. cbn [b_text].
  destruct Hx as [Tx Nx], Hy as [Ty Ny].
  rewrite (strip_trimmed _ (trimmed_app (b_text x) " " (b_text y) Tx Nx Ty Ny)).
  unfold Py.join. cbn [map]. destruct (map b_text tl) as [|z zs].
  - reflexivity.
  - rewrite (concat_cons " " (b_text x ++ " " ++ b_text y)) by discriminate.
    rewrite (concat_cons " " (b_text x)) by discriminate.
    rewrite (concat_cons " " (b_text y)) by discriminate.
    now rewrite <- !append_assoc.
Qed.

Lemma fuse_text (grp : list Block) (m : Block) :
  Forall (fun b => text_ok (b_text b)) grp ->
  fuse grp = Some m ->
  b_text m = Py.join " " (map b_text grp).
Proof.
  destruct grp as [|x tl]; [discriminate|].
  intros H Hf. injection Hf as <-.
  inversion H as [|? ? Hx Htl]; subst.
  now apply fold_absorb_text.
Qed.

Lemma last_cons {A : Type} (y : list A) :
  forall b d, last (b :: y) d = last y b.
Proof.
  induction y as [|c y IH]; intros b d; [reflexivity|].
  change (last (b :: c :: y) d) with (last (c :: y) d).
  now rewrite (IH c d), (IH c b).
Qed.

Lemma last_run {A : Type} (u : list A) (a b : A) (y : list A) :
  forall d, last (u ++ a :: b :: y) d = last y b.
Proof.
  induction u as [|z u IH]; intro d.
  - simpl app. now rewrite (last_cons (b :: y) a d), last_cons.
  - change ((z :: u) ++ a :: b :: y)%list with (z :: (u ++ a :: b :: y))%list.
    rewrite last_cons. apply IH.
Qed.

Lemma fold_absorb_span (tl : list Block) :
  forall x,
    b_start (fold_left absorb tl x) = b_start x
    /\ b_end (fold_left absorb tl x) = b_end (last tl x).
Proof.
  induction tl as [|y tl IH]; intro x; [split; reflexivity|].
  cbn [fold_left]. destruct (IH (absorb x y)) as [Hs He].
  split; [exact Hs|]. rewrite He, last_cons.
  destruct tl as [|z tl]; [reflexivity|].
  now rewrite !(last_cons tl z).
Qed.

Lemma fuse_span (x : list Block) (a b : Block) (y : list Block) (m : Block) :
  fuse (x ++ a :: b :: y)%list = Some m ->
  b_start m = b_start (hd a x) /\ b_end m = b_end (last y b).
Proof.
  intro H.
  destruct x as [|x0 x]; cbn [app fuse] in H; injection H as <-.
  - destruct (fold_absorb_span (b :: y) a) as [Hs He].
    split; [exact Hs|].
    transitivity (b_end (last (b :: y) a)); [exact He|].
    apply f_equal, last_cons.
  - destruct (fold_absorb_span (x ++ a :: b :: y) x0) as [Hs He].
    split; [exact Hs|].
    transitivity (b_end (last (x ++ a :: b :: y) x0)); [exact He|].
    apply f_equal, last_run.
Qed.

(** C3. Two blocks of one speaker that are neighbours in the input
    sorted by start, the second starting exactly where the first ends,
    are merged: one of the blocks [_merge_blocks] returns is made of a
    run of input blocks that holds the two side by side; it has their
    speaker, the start of the first block of the run and the end of
    the last one.  The blocks being raw, with trimmed texts that are
    not empty as the speaker mapper makes them, its text is the texts
    of the run joined by single spaces, so the first text, a space
    and the second text in this order; and when no input block is
    inverted it spans the run from the smallest start to the largest
    end.  When the two are the whole input, the result is the one
    block from the first start, which is the smaller, to the second
    end, with the first text, a space and the second text when the
    two are raw; the second end is the larger end when the second
    block is not inverted. *)
Theorem merge_adjacent_same_speaker (segments pre post : list Block)
  (a b : Block) :
  Py.sorted b_start segments = (pre ++ a :: b :: post)%list ->
  b_speaker a = b_speaker b ->
  gap a b == 0 ->
  (exists i m x y,
      nth_error (_merge_blocks segments MAX_GAP) i = Some m
      /\ nth_error (contributions segments MAX_GAP) i
         = Some (x ++ a :: b :: y)%list
      /\ b_speaker m = b_speaker a
      /\ b_start m = b_start (hd a x)
      /\ b_end m = b_end (last y b)
      /\ (Forall (fun s => text_ok (b_text s)) segments ->
          b_text m = Py.join " " (map b_text (x ++ a :: b :: y)))
      /\ (Forall proper_block segments -> hull_of m (x ++ a :: b :: y)))
  /\ (pre = [] -> post = [] ->
      _merge_blocks segments MAX_GAP
      = [mkBlock (b_start a) (b_end b) (b_speaker a)
           (Py.strip (b_text a ++ " " ++ b_text b))]
      /\ (text_ok (b_text a) -> text_ok (b_text b) ->
          Py.strip (b_text a ++ " " ++ b_text b) = b_text a ++ " " ++ b_text b)
      /\ b_start a == Qmin (b_start a) (b_start b)
      /\ (b_start b <= b_end b -> b_end b == Qmax (b_end a) (b_end b))).
Proof.
  intros Hs Hsp Hgap.
  split.
  - destruct (neighbours_share_group segments pre post a b Hsp Hgap Hs)
      as (x & y & Hg).
    destruct (In_nth_error _ _ Hg) as [i Hi].
    destruct (Forall2_at _ _ _ (merge_blocks_fused segments MAX_GAP) i _ Hi)
      as (m & Hm & Hf & Hspk).
    destruct (fuse_span x a b y m Hf) as [Hst Hen].
    exists i, m, x, y.
    split; [exact Hm|]. split; [exact Hi|].
    split; [symmetry; apply Hspk, in_or_app; right; now left|].
    split; [exact Hst|]. split; [exact Hen|].
    split.
    + intro Htxt. apply fuse_text; [|exact Hf].
      apply Forall_forall. intros z Hz.
      assert (Hz' : In z segments) by (eapply in_group_in_input; eassumption).
      rewrite Forall_forall in Htxt. now apply Htxt.
    + intro Hp.
      destruct (Forall2_at _ _ _ (merge_blocks_hull segments MAX_GAP Hp) i _ Hi)
        as (m' & Hm' & Hh).
      assert (m' = m) by congruence. now subst m'.
  - intros -> ->. simpl in Hs.
    pose proof (sorted_ascending b_start segments) as Hasc.
    rewrite Hs in Hasc. destruct Hasc as [Hab _].
    unfold gap in Hgap.
    split; [|split; [|split]].
    + rewrite merge_blocks_eq, Hs. simpl.
      replace (mergeable MAX_GAP a b) with true; [reflexivity|].
      symmetry. apply mergeable_spec. unfold gap, MAX_GAP.
      split; [auto | lra].
    + intros [Hta Hna] [Htb Hnb]. apply strip_trimmed.
      exact (trimmed_app (b_text a) " " (b_text b) Hta Hna Htb Hnb).
    + symmetry. now apply Q.min_l.
    + intro Pb. symmetry. apply Q.max_r. lra.
Qed.

Lemma merge_adjacent_same_speaker_witness :
  let a := mkBlock 0 1 "SPEAKER_00" "hello there" in
  let b := mkBlock 1 (5 # 2) "SPEAKER_00" "how are you" in
  let c := mkBlock 4 5 "SPEAKER_01" "fine" in
  exists i m x y,
    nth_error (_merge_blocks [c; b; a] MAX_GAP) i = Some m
    /\ nth_error (contributions [c; b; a] MAX_GAP) i
       = Some (x ++ a :: b :: y)%list
    /\ b_speaker m = b_speaker a
    /\ b_start m = b_start (hd a x)
    /\ b_end m = b_end (last y b)
    /\ b_text m = Py.join " " (map b_text (x ++ a :: b :: y))
    /\ hull_of m (x ++ a :: b :: y).
Proof.
  intros a b c.
  destruct (proj1 (merge_adjacent_same_speaker [c; b; a] [] [c] a b
                     eq_refl eq_refl eq_refl))
    as (i & m & x & y & H1 & H2 & H3 & H4 & H5 & Ht & Hh).
  exists i, m, x, y.
  repeat (split; [assumption|]). split.
  - apply Ht. repeat constructor; discriminate.
  - apply Hh. repeat constructor; vm_compute; discriminate.
Defined.

(** C3 as stated fails when the second block is inverted: the merged
    block ends where the second block ends, not at the larger of the
    two ends.  The speaker mapper emits such a pair from a diarization
    interval that ends before it starts and that a word spans. *)
Lemma merge_inverted_second_counterexample :
  let a := mkBlock (0 / 1000) (1000 / 1000) "SPEAKER_00" "well" in
  let b := mkBlock (1000 / 1000) (500 / 1000) "SPEAKER_00" "well" in
  _align_words_to_diarization [mkWordSeg 0 2 "well"]
    [mkDiar 0 1 "SPEAKER_00"; mkDiar 1 (1 # 2) "SPEAKER_00"] = [a; b]
  /\ b_speaker a = b_speaker b
  /\ gap a b == 0
  /\ exists m, _merge_blocks [a; b] MAX_GAP = [m]
               /\ b_text m = b_text a ++ " " ++ b_text b
               /\ b_end m < Qmax (b_end a) (b_end b).
Proof.
  cbv zeta. split; [vm_compute; reflexivity|].
  split; [reflexivity|]. split; [reflexivity|].
  eexists. split; [vm_compute; reflexivity|].
  split; [reflexivity|]. vm_compute. reflexivity.
Qed.
